(** * Scanner: a shallow embedding of scanner.py

    The development follows the layout of the script:

    - [PyStr]      Python [str] primitives used by the script
                   ([strip], [split], [in], [int]);
    - [Ports]      [parse_ports];
    - [Ipaddress]  the part of the [ipaddress] library the script uses;
    - [Targets]    [expand_targets];
    - [Codec]      [bytes.decode(errors='replace')] and [strip] on the text;
    - [Probe]      [banner_grab] and [scan_port];
    - [Scheduler]  [scan_host] under the schedules of the event loop;
    - [Session]    [main_async];
    - [Output]     the rows of [save_csv].

    Strings handed to the script on the command line are modelled by
    [string], whose characters are the code points U+0000 .. U+00FF.
    Python exceptions are the values of [exn]; a computation that may raise
    returns a [res]. *)

From Stdlib Require Import ZArith QArith Qminmax Lqa Ascii String List.
From Stdlib.Strings Require Import Byte.
From stdpp Require Import base tactics numbers list sorting gmap strings pretty.

Local Open Scope Z_scope.

(** ** Exceptions *)

(** The exception classes the script can meet, all derived from
    [Exception].  [TimeoutError] is [asyncio.TimeoutError]; [OSError] stands
    for an [OSError] of no more specific class named here. *)
Inductive exn : Type :=
  | TimeoutError
  | ConnectionRefusedError
  | ConnectionResetError
  | OSError
  | AttributeError
  | ValueError
  | RuntimeError.

(** [isinstance(e, cls)] for the classes the handlers name.
    [ConnectionRefusedError] and [ConnectionResetError] derive from
    [OSError]. *)
Definition is_TimeoutError (e : exn) : bool :=
  match e with TimeoutError => true | _ => false end.

Definition is_ConnectionRefusedError (e : exn) : bool :=
  match e with ConnectionRefusedError => true | _ => false end.

Definition is_OSError (e : exn) : bool :=
  match e with
  | ConnectionRefusedError | ConnectionResetError | OSError => true
  | _ => false
  end.

Definition is_AttributeError (e : exn) : bool :=
  match e with AttributeError => true | _ => false end.

Definition is_ValueError (e : exn) : bool :=
  match e with ValueError => true | _ => false end.

Inductive res (A : Type) : Type :=
  | Return (a : A)
  | Raise (e : exn).
Arguments Return {A} a.
Arguments Raise {A} e.

#[global] Instance res_ret : MRet res := λ A a, Return a.
#[global] Instance res_bind : MBind res := λ A B k m,
  match m with
  | Return a => k a
  | Raise e => Raise e
  end.

#[global] Instance res_fmap : FMap res := λ A B f m,
  match m with
  | Return a => Return (f a)
  | Raise e => Raise e
  end.

(** ** Python [str] primitives *)

Module PyStr.

Definition code (c : ascii) : N := N_of_ascii c.

(** [str.isspace] on one character, which is also what [str.strip]
    removes. *)
Definition isspace_code (n : N) : bool :=
  ((9 <=? n) && (n <=? 13) || (28 <=? n) && (n <=? 32)
   || (n =? 133) || (n =? 160) || (n =? 5760)
   || (8192 <=? n) && (n <=? 8202) || (n =? 8232) || (n =? 8233)
   || (n =? 8239) || (n =? 8287) || (n =? 12288))%N.

Definition isspace (c : ascii) : bool := isspace_code (code c).

Definition is_empty (s : string) : bool :=
  match s with EmptyString => true | _ => false end.

Fixpoint lstrip (s : string) : string :=
  match s with
  | String c s' => if isspace c then lstrip s' else s
  | EmptyString => EmptyString
  end.

Fixpoint rstrip (s : string) : string :=
  match s with
  | String c s' =>
      let r := rstrip s' in
      if is_empty r && isspace c then EmptyString else String c r
  | EmptyString => EmptyString
  end.

(** [s.strip()] *)
Definition strip (s : string) : string := rstrip (lstrip s).

(** [sep in s] for a one-character [sep] *)
Fixpoint contains (sep : ascii) (s : string) : bool :=
  match s with
  | String c s' => Ascii.eqb c sep || contains sep s'
  | EmptyString => false
  end.

(** [s.split(sep)] for a one-character [sep]: never empty. *)
Fixpoint split (sep : ascii) (s : string) : list string :=
  match s with
  | String c s' =>
      if Ascii.eqb c sep then EmptyString :: split sep s'
      else match split sep s' with
           | p :: ps => String c p :: ps
           | [] => [String c EmptyString]
           end
  | EmptyString => [EmptyString]
  end.

(** [s.split(sep, 1)] when [sep in s]: the text before and after the
    first separator.  Without a separator Python returns the one-element
    list [[s]]; here that is [(s, None)]. *)
Fixpoint split1 (sep : ascii) (s : string) : string * option string :=
  match s with
  | String c s' =>
      if Ascii.eqb c sep then (EmptyString, Some s')
      else let '(a, b) := split1 sep s' in (String c a, b)
  | EmptyString => (EmptyString, None)
  end.

(** *** [int(s)] in base ten *)

Definition is_digit (c : ascii) : bool :=
  ((48 <=? code c) && (code c <=? 57))%N.

Definition digit_value (c : ascii) : Z := Z.of_N (code c) - 48.

(** The blanks [int] skips around the number: the C-locale blanks, and the
    two non-ASCII whitespace characters of the Latin-1 range, which the
    interpreter first rewrites into a space.  The separators U+001C ..
    U+001F are whitespace for [strip] but not for [int]. *)
Definition int_blank (c : ascii) : bool :=
  ((9 <=? code c) && (code c <=? 13) || (code c =? 32)
   || (code c =? 133) || (code c =? 160))%N.

Fixpoint skip_blanks (s : string) : string :=
  match s with
  | String c s' => if int_blank c then skip_blanks s' else s
  | EmptyString => EmptyString
  end.

(** Digits with single underscores between them; [prev_us] records that
    the previous character was an underscore. *)
Fixpoint scan_digits (acc : Z) (prev_us : bool) (s : string) : option (Z * string) :=
  match s with
  | String c s' =>
      if is_digit c then scan_digits (10 * acc + digit_value c) false s'
      else if Ascii.eqb c "_" then
        (if prev_us then None else scan_digits acc true s')
      else if prev_us then None else Some (acc, s)
  | EmptyString => if prev_us then None else Some (acc, EmptyString)
  end.

Definition scan_number (s : string) : option (Z * string) :=
  match s with
  | String c s' => if is_digit c then scan_digits (digit_value c) false s' else None
  | EmptyString => None
  end.

Definition split_sign (s : string) : Z * string :=
  match s with
  | String c s' =>
      if Ascii.eqb c "+" then (1, s')
      else if Ascii.eqb c "-" then (-1, s')
      else (1, s)
  | EmptyString => (1, s)
  end.

Definition int (s : string) : res Z :=
  let '(sign, body) := split_sign (skip_blanks s) in
  match scan_number body with
  | Some (n, rest) =>
      if is_empty (skip_blanks rest) then Return (sign * n) else Raise ValueError
  | None => Raise ValueError
  end.

End PyStr.

(** ** Sorting as [sorted(..., key=...)] does: ascending and stable *)

Section Sorted.
Context {A : Type} (key : A → Z).

Definition key_le (x y : A) : Prop := key x ≤ key y.

Fixpoint insert_by (x : A) (l : list A) : list A :=
  match l with
  | [] => [x]
  | y :: l' => if key x <=? key y then x :: l else y :: insert_by x l'
  end.

Definition sorted_by (l : list A) : list A := foldr insert_by [] l.
End Sorted.

(** ** parse_ports *)

Module Ports.

Definition in_port_range (p : Z) : bool := (1 <=? p) && (p <=? 65535).

(** One round of the loop over [ports_arg.split(',')]. *)
Definition parse_part (ports : gset Z) (part : string) : res (gset Z) :=
  let part := PyStr.strip part in
  if PyStr.is_empty part then Return ports
  else if PyStr.contains "-" part then
    match PyStr.split1 "-" part with
    | (a, Some b) =>
        a ← PyStr.int a;
        b ← PyStr.int b;
        let '(a, b) := if b <? a then (b, a) else (a, b) in
        Return (ports ∪ list_to_set (seqZ a (b + 1 - a)))
    | (_, None) => Raise ValueError
    end
  else
    n ← PyStr.int part;
    Return (ports ∪ {[ n ]}).

Fixpoint parse_parts (ports : gset Z) (parts : list string) : res (gset Z) :=
  match parts with
  | [] => Return ports
  | part :: parts' =>
      ports' ← parse_part ports part;
      parse_parts ports' parts'
  end.

Definition parse_ports (ports_arg : string) : res (list Z) :=
  ports ← parse_parts ∅ (PyStr.split "," ports_arg);
  Return (sorted_by id (filter (λ p, in_port_range p = true) (elements ports))).

End Ports.

(** ** The [ipaddress] library, as far as [expand_targets] uses it *)

Module Ipaddress.

Import PyStr.

Inductive version := V4 | V6.

Definition max_prefixlen (v : version) : Z :=
  match v with V4 => 32 | V6 => 128 end.

Definition all_ones (v : version) : Z := 2 ^ max_prefixlen v - 1.

(** An address object: its integer, and for IPv6 the scope id written
    after [%]. *)
Record address := Address {
  addr_version : version;
  addr_ip : Z;
  addr_scope : option string
}.

(** A network object; [net_addr] is the address the network was built
    from, which [hosts] hands back for a one-address network. *)
Record network := Network {
  net_version : version;
  network_address : Z;
  prefixlen : Z;
  net_addr : address
}.

Fixpoint all_chars (p : ascii → bool) (s : string) : bool :=
  match s with
  | String c s' => p c && all_chars p s'
  | EmptyString => true
  end.

(** [int(s, 10)] on a string of ASCII digits *)
Fixpoint decimal_acc (acc : Z) (s : string) : Z :=
  match s with
  | String c s' => decimal_acc (10 * acc + digit_value c) s'
  | EmptyString => acc
  end.

(** [s.isascii() and s.isdigit()] *)
Definition ascii_digits (s : string) : bool :=
  negb (is_empty s) && all_chars is_digit s.

Definition first_is (c : ascii) (s : string) : bool :=
  match s with
  | String c' _ => Ascii.eqb c' c
  | EmptyString => false
  end.

Definition parse_octet (octet_str : string) : option Z :=
  if is_empty octet_str then None
  else if negb (ascii_digits octet_str) then None
  else if (3 <? String.length octet_str)%nat then None
  else if negb (String.eqb octet_str "0") && first_is "0" octet_str then None
  else
    let octet_int := decimal_acc 0 octet_str in
    if 255 <? octet_int then None else Some octet_int.

(** [int.from_bytes(bs, 'big')] *)
Definition from_bytes (bs : list Z) : Z :=
  fold_left (λ acc b, acc * 256 + b) bs 0.

Definition v4_ip_int_from_string (ip_str : string) : option Z :=
  if is_empty ip_str then None
  else
    let octets := split "." ip_str in
    if negb (length octets =? 4)%nat then None
    else from_bytes <$> mapM parse_octet octets.

Definition IPv4Address (addr_str : string) : option address :=
  if contains "/" addr_str then None
  else ip ← v4_ip_int_from_string addr_str; Some (Address V4 ip None).

(** *** IPv6 text form *)

Definition hex_value (c : ascii) : option Z :=
  let n := Z.of_N (code c) in
  if (48 <=? n) && (n <=? 57) then Some (n - 48)
  else if (65 <=? n) && (n <=? 70) then Some (n - 55)
  else if (97 <=? n) && (n <=? 102) then Some (n - 87)
  else None.

Definition is_hex (c : ascii) : bool :=
  match hex_value c with Some _ => true | None => false end.

Fixpoint hex_acc (acc : Z) (s : string) : Z :=
  match s with
  | String c s' => hex_acc (16 * acc + default 0 (hex_value c)) s'
  | EmptyString => acc
  end.

Definition parse_hextet (hextet_str : string) : option Z :=
  if negb (all_chars is_hex hextet_str) then None
  else if (4 <? String.length hextet_str)%nat then None
  else if is_empty hextet_str then None
  else Some (hex_acc 0 hextet_str).

Definition hex_digit (d : Z) : ascii :=
  ascii_of_N (Z.to_N (if d <? 10 then d + 48 else d + 87)).

(** ['%x' % n] for [0 <= n < 16 ^ fuel] *)
Fixpoint hex_string (fuel : nat) (n : Z) : string :=
  match fuel with
  | O => EmptyString
  | S fuel' =>
      if n <? 16 then String (hex_digit n) EmptyString
      else hex_string fuel' (n / 16) +:+ String (hex_digit (n mod 16)) EmptyString
  end.

(** The index of the only empty part strictly inside [parts], [None]
    when there are two, [Some None] when there is none. *)
Fixpoint find_skip (i : nat) (inner : list string) (found : option nat)
  : option (option nat) :=
  match inner with
  | [] => Some found
  | p :: inner' =>
      if is_empty p then
        match found with
        | Some _ => None
        | None => find_skip (S i) inner' (Some i)
        end
      else find_skip (S i) inner' found
  end.

Definition inner_parts (parts : list string) : list string :=
  removelast (tail parts).

Definition shift_hextets (acc : Z) (hs : list Z) : Z :=
  fold_left (λ acc h, Z.lor (Z.shiftl acc 16) h) hs acc.

(** How many parts stand before the gap, how many after it, and how many
    hextets the gap stands for; without a gap all eight parts stand
    before it. *)
Definition part_counts (parts : list string) (skip_index : option nat)
  : option (nat * nat * nat) :=
  match skip_index with
  | Some skip_index =>
      let parts_hi := skip_index in
      let parts_lo := (length parts - skip_index - 1)%nat in
      parts_hi ←
        (if is_empty (List.hd EmptyString parts) then
           if (parts_hi - 1 =? 0)%nat then Some (parts_hi - 1)%nat else None
         else Some parts_hi);
      parts_lo ←
        (if is_empty (List.last parts EmptyString) then
           if (parts_lo - 1 =? 0)%nat then Some (parts_lo - 1)%nat else None
         else Some parts_lo);
      if (8 <=? parts_hi + parts_lo)%nat then None
      else Some (parts_hi, parts_lo, (8 - (parts_hi + parts_lo))%nat)
  | None =>
      if negb (length parts =? 8)%nat then None
      else if is_empty (List.hd EmptyString parts) then None
      else if is_empty (List.last parts EmptyString) then None
      else Some (length parts, O, O)
  end.

(** The parts of an address with its IPv4-style suffix, if it has one,
    turned into two hextets. *)
Definition expand_suffix (parts : list string) : option (list string) :=
  if contains "." (List.last parts EmptyString) then
    a ← IPv4Address (List.last parts EmptyString);
    let ipv4_int := addr_ip a in
    Some (removelast parts
            ++ [hex_string 4 (Z.land (Z.shiftr ipv4_int 16) 65535);
                hex_string 4 (Z.land ipv4_int 65535)])
  else Some parts.

Definition assemble (hi : list Z) (parts_skipped : nat) (lo : list Z) : Z :=
  shift_hextets (Z.shiftl (shift_hextets 0 hi) (16 * Z.of_nat parts_skipped)) lo.

Definition v6_ip_int_from_string (ip_str : string) : option Z :=
  if is_empty ip_str then None
  else
    let parts := split ":" ip_str in
    if (length parts <? 3)%nat then None
    else
      parts ← expand_suffix parts;
      if (9 <? length parts)%nat then None
      else
        skip_index ← find_skip 1 (inner_parts parts) None;
        '(parts_hi, parts_lo, parts_skipped) ← part_counts parts skip_index;
        hi ← mapM parse_hextet (take parts_hi parts);
        lo ← mapM parse_hextet (drop (length parts - parts_lo) parts);
        Some (assemble hi parts_skipped lo).

(** [ip_str.partition('%')], with the check of the scope id *)
Definition split_scope_id (ip_str : string) : option (string * option string) :=
  match split1 "%" ip_str with
  | (addr, None) => Some (addr, None)
  | (addr, Some scope_id) =>
      if is_empty scope_id || contains "%" scope_id then None
      else Some (addr, Some scope_id)
  end.

Definition IPv6Address (addr_str : string) : option address :=
  if contains "/" addr_str then None
  else
    '(addr_str, scope_id) ← split_scope_id addr_str;
    ip ← v6_ip_int_from_string addr_str;
    Some (Address V6 ip scope_id).

Definition ip_address (text : string) : res address :=
  match IPv4Address text with
  | Some a => Return a
  | None =>
      match IPv6Address text with
      | Some a => Return a
      | None => Raise ValueError
      end
  end.

(** *** Netmasks *)

Fixpoint trailing_zero_bits (fuel : nat) (n : Z) : Z :=
  match fuel with
  | O => 0
  | S fuel' => if Z.odd n then 0 else 1 + trailing_zero_bits fuel' (Z.shiftr n 1)
  end.

Definition count_righthand_zero_bits (number bits : Z) : Z :=
  if number =? 0 then bits
  else Z.min bits (trailing_zero_bits (Z.to_nat bits) number).

Definition prefix_from_ip_int (v : version) (ip_int : Z) : option Z :=
  let trailing_zeroes := count_righthand_zero_bits ip_int (max_prefixlen v) in
  let prefixlen := max_prefixlen v - trailing_zeroes in
  let leading_ones := Z.shiftr ip_int trailing_zeroes in
  let all_ones := Z.shiftl 1 prefixlen - 1 in
  if leading_ones =? all_ones then Some prefixlen else None.

Definition prefix_from_prefix_string (v : version) (prefixlen_str : string) : option Z :=
  if negb (ascii_digits prefixlen_str) then None
  else
    let prefixlen := decimal_acc 0 prefixlen_str in
    if (0 <=? prefixlen) && (prefixlen <=? max_prefixlen v) then Some prefixlen
    else None.

Definition prefix_from_ip_string (ip_str : string) : option Z :=
  ip_int ← v4_ip_int_from_string ip_str;
  match prefix_from_ip_int V4 ip_int with
  | Some p => Some p
  | None => prefix_from_ip_int V4 (Z.lxor ip_int (all_ones V4))
  end.

Definition make_netmask (v : version) (arg : string) : option Z :=
  match v with
  | V4 =>
      match prefix_from_prefix_string V4 arg with
      | Some p => Some p
      | None => prefix_from_ip_string arg
      end
  | V6 => prefix_from_prefix_string V6 arg
  end.

Definition ip_int_from_prefix (v : version) (prefixlen : Z) : Z :=
  Z.lxor (all_ones v) (Z.shiftr (all_ones v) prefixlen).

(** [_split_addr_prefix]: the text around the only [/], the mask
    defaulting to the full length. *)
Definition split_addr_prefix (text : string) : option (string * option string) :=
  match split "/" text with
  | [addr] => Some (addr, None)
  | [addr; mask] => Some (addr, Some mask)
  | _ => None
  end.

(** [IPv4Network(address, strict=False)] and
    [IPv6Network(address, strict=False)] *)
Definition IPNetwork (v : version) (text : string) : option network :=
  '(addr, mask) ← split_addr_prefix text;
  a ← match v with V4 => IPv4Address addr | V6 => IPv6Address addr end;
  prefixlen ← match mask with
              | Some mask => make_netmask v mask
              | None => Some (max_prefixlen v)
              end;
  let packed := addr_ip a in
  Some (Network v (Z.land packed (ip_int_from_prefix v prefixlen)) prefixlen a).

(** [ipaddress.ip_network(address, strict=False)] *)
Definition ip_network (text : string) : res network :=
  match IPNetwork V4 text with
  | Some n => Return n
  | None =>
      match IPNetwork V6 text with
      | Some n => Return n
      | None => Raise ValueError
      end
  end.

Definition hostmask (n : network) : Z :=
  Z.lxor (ip_int_from_prefix (net_version n) (prefixlen n)) (all_ones (net_version n)).

Definition broadcast_address (n : network) : Z :=
  Z.lor (network_address n) (hostmask n).

Definition address_of_int (v : version) (x : Z) : address := Address v x None.

(** [range(a, b)] *)
Definition range (a b : Z) : list Z := seqZ a (b - a).

(** [net.hosts()] *)
Definition hosts (n : network) : list address :=
  let v := net_version n in
  let network := network_address n in
  let broadcast := broadcast_address n in
  if prefixlen n =? max_prefixlen v - 1 then
    address_of_int v <$> range network (broadcast + 1)
  else if prefixlen n =? max_prefixlen v then
    [net_addr n]
  else
    match v with
    | V4 => address_of_int v <$> range (network + 1) broadcast
    | V6 => address_of_int v <$> range (network + 1) (broadcast + 1)
    end.

(** *** [str(address)] *)

Definition join (sep : string) (l : list string) : string :=
  match l with
  | [] => EmptyString
  | x :: l' => fold_left (λ acc y, acc +:+ sep +:+ y) l' x
  end.

Definition v4_string_from_ip_int (ip_int : Z) : string :=
  join "." (pretty <$> [Z.shiftr ip_int 24 `mod` 256; Z.shiftr ip_int 16 `mod` 256;
                        Z.shiftr ip_int 8 `mod` 256; ip_int `mod` 256]).

(** The scan of [_compress_hextets]: the first longest run of ["0"]
    hextets, as (start, length). *)
Fixpoint best_run (index : nat) (hextets : list string)
    (cur_start : option nat) (cur_len : nat) (best : nat * nat) : nat * nat :=
  match hextets with
  | [] => best
  | h :: hextets' =>
      if String.eqb h "0" then
        let cur_len := S cur_len in
        let cur_start := match cur_start with Some s => s | None => index end in
        let best := if (snd best <? cur_len)%nat then (cur_start, cur_len) else best in
        best_run (S index) hextets' (Some cur_start) cur_len best
      else best_run (S index) hextets' None O best
  end.

Definition compress_hextets (hextets : list string) : list string :=
  let '(best_start, best_len) := best_run 0 hextets None 0 (O, O) in
  if (1 <? best_len)%nat then
    let best_end := (best_start + best_len)%nat in
    let hextets :=
      if (best_end =? length hextets)%nat then hextets ++ [EmptyString] else hextets in
    let hextets := take best_start hextets ++ [EmptyString] ++ drop best_end hextets in
    if (best_start =? 0)%nat then EmptyString :: hextets else hextets
  else hextets.

Definition v6_string_from_ip_int (ip_int : Z) : string :=
  let hextets :=
    (λ i : nat, hex_string 4 (Z.shiftr ip_int (16 * (7 - Z.of_nat i)) `mod` 65536))
      <$> seq 0 8 in
  join ":" (compress_hextets hextets).

Definition str (a : address) : string :=
  match addr_version a with
  | V4 => v4_string_from_ip_int (addr_ip a)
  | V6 =>
      let ip_str := v6_string_from_ip_int (addr_ip a) in
      match addr_scope a with
      | Some scope_id => ip_str +:+ "%" +:+ scope_id
      | None => ip_str
      end
  end.

End Ipaddress.

(** ** expand_targets *)

Module Targets.

Definition expand_targets (target_arg : string) : res (list string) :=
  let target_arg := PyStr.strip target_arg in
  let body : res (list string) :=
    if PyStr.contains "/" target_arg then
      net ← Ipaddress.ip_network target_arg;
      Return (Ipaddress.str <$> Ipaddress.hosts net)
    else
      _ ← Ipaddress.ip_address target_arg;
      Return [target_arg]
  in
  match body with
  | Raise e => if is_ValueError e then Return [target_arg] else Raise e
  | Return targets => Return targets
  end.

End Targets.

(** ** Decoding and trimming a banner *)

(** A decoded Python [str]: its code points. *)
Definition text : Type := list N.

Module Codec.

Definition REPLACEMENT : N := 65533.

Definition is_continuation (b : N) : bool := ((128 <=? b) && (b <? 192))%N.

(** The second byte of a three-byte form cannot continue the first. *)
Definition bad_second3 (b0 b1 : N) : bool :=
  (negb (is_continuation b1)
   || (if b1 <? 160 then b0 =? 224 else b0 =? 237))%N.

(** The same for a four-byte form. *)
Definition bad_second4 (b0 b1 : N) : bool :=
  (negb (is_continuation b1)
   || (if b1 <? 144 then b0 =? 240 else b0 =? 244))%N.

Definition cp2 (b0 b1 : N) : N := ((b0 - 192) * 64 + (b1 - 128))%N.
Definition cp3 (b0 b1 b2 : N) : N :=
  ((b0 - 224) * 4096 + (b1 - 128) * 64 + (b2 - 128))%N.
Definition cp4 (b0 b1 b2 b3 : N) : N :=
  ((b0 - 240) * 262144 + (b1 - 128) * 4096 + (b2 - 128) * 64 + (b3 - 128))%N.

(** [bytes.decode(errors='replace')] with the default UTF-8 codec: every
    ill-formed or truncated sequence becomes one U+FFFD and decoding
    resumes behind it. *)
Fixpoint utf8_replace (data : list N) : text :=
  match data with
  | [] => []
  | b0 :: rest =>
      if (b0 <? 128)%N then b0 :: utf8_replace rest
      else if (b0 <? 194)%N then REPLACEMENT :: utf8_replace rest
      else if (b0 <? 224)%N then
        match rest with
        | [] => [REPLACEMENT]
        | b1 :: rest1 =>
            if is_continuation b1 then cp2 b0 b1 :: utf8_replace rest1
            else REPLACEMENT :: utf8_replace rest
        end
      else if (b0 <? 240)%N then
        match rest with
        | [] => [REPLACEMENT]
        | b1 :: rest1 =>
            if bad_second3 b0 b1 then REPLACEMENT :: utf8_replace rest
            else
              match rest1 with
              | [] => [REPLACEMENT]
              | b2 :: rest2 =>
                  if is_continuation b2 then cp3 b0 b1 b2 :: utf8_replace rest2
                  else REPLACEMENT :: utf8_replace rest1
              end
        end
      else if (b0 <? 245)%N then
        match rest with
        | [] => [REPLACEMENT]
        | b1 :: rest1 =>
            if bad_second4 b0 b1 then REPLACEMENT :: utf8_replace rest
            else
              match rest1 with
              | [] => [REPLACEMENT]
              | b2 :: rest2 =>
                  if negb (is_continuation b2) then REPLACEMENT :: utf8_replace rest1
                  else
                    match rest2 with
                    | [] => [REPLACEMENT]
                    | b3 :: rest3 =>
                        if is_continuation b3
                        then cp4 b0 b1 b2 b3 :: utf8_replace rest3
                        else REPLACEMENT :: utf8_replace rest2
                    end
              end
        end
      else REPLACEMENT :: utf8_replace rest
  end.

(** [data.decode(errors='replace')] *)
Definition decode (data : list Byte.byte) : text :=
  utf8_replace (Byte.to_N <$> data).

Fixpoint lstrip (s : text) : text :=
  match s with
  | c :: s' => if PyStr.isspace_code c then lstrip s' else s
  | [] => []
  end.

Fixpoint rstrip (s : text) : text :=
  match s with
  | c :: s' =>
      match rstrip s' with
      | [] => if PyStr.isspace_code c then [] else [c]
      | r => c :: r
      end
  | [] => []
  end.

(** [s.strip()] on decoded text *)
Definition strip (s : text) : text := rstrip (lstrip s).

End Codec.

(** ** The port prober: banner_grab and scan_port *)

(** One probe result, the tuple [(port, is_open, banner)]. *)
Definition outcome : Type := Z * bool * text.

Definition out_port (o : outcome) : Z := o.1.1.
Definition out_open (o : outcome) : bool := o.1.2.
Definition out_banner (o : outcome) : text := o.2.

Module Probe.

Definition BANNER_READ_BYTES : nat := 1024.

(** What the network makes of an awaited operation: it completes after
    some time, with a value or an exception, or it never does.  Times are
    seconds; every finite float is a rational. *)
Inductive awaitable (A : Type) : Type :=
  | Completes (after : Q) (r : res A)
  | Never.
Arguments Completes {A} after r.
Arguments Never {A}.

(** The two ends [asyncio.open_connection] returns.  [incoming] is what
    the peer has sent when a read returns. *)
Record StreamReader := {
  incoming : awaitable (list Byte.byte)
}.

(** What [writer.close()] and [await writer.wait_closed()] do in the run
    described.  The reader and the writer share one protocol object: when
    the transport reports a failure, its exception goes to the reader and to
    the future [wait_closed] awaits, so that a run in which a read has raised
    [e] is one in which [wait_closed_result] is [Raise e]. *)
Record StreamWriter := {
  close_result : res unit;
  wait_closed_after : Q;
  wait_closed_result : res unit
}.

Definition connection : Type := StreamReader * StreamWriter.

(** What a probe does, in order; the semaphore sees [Acquire] and
    [Release]. *)
Inductive event : Type :=
  | Acquire
  | Release
  | Connect (host : string) (port : Z) (timeout : Q)
  | Read (n : nat) (timeout : Q)
  | Close
  | WaitClosed.

(** The state a coroutine runs in: its clock and the events so far, each
    with the time it happened. *)
Record world := World {
  now : Q;
  log : list (Q * event)
}.

Definition M (A : Type) : Type := world → res A * world.

#[global] Instance M_ret : MRet M := λ A a w, (Return a, w).
#[global] Instance M_bind : MBind M := λ A B k m w,
  match m w with
  | (Return a, w') => k a w'
  | (Raise e, w') => (Raise e, w')
  end.

Definition raise {A} (e : exn) : M A := λ w, (Raise e, w).

Definition lift {A} (r : res A) : M A := λ w, (r, w).

(** [try: body except Exception as e: handler e] *)
Definition try_except {A} (body : M A) (handler : exn → M A) : M A := λ w,
  match body w with
  | (Return a, w') => (Return a, w')
  | (Raise e, w') => handler e w'
  end.

Definition emit (e : event) : M unit := λ w,
  (Return (), World (now w) (log w ++ [(now w, e)])).

Definition sleep (d : Q) : M unit := λ w,
  (Return (), World (now w + d) (log w)).

(** [await asyncio.wait_for(op, timeout=timeout)] for a coroutine [op] *)
Definition wait_for {A} (op : awaitable A) (timeout : Q) : M A :=
  if Qle_bool timeout 0 then raise TimeoutError
  else
    match op with
    | Completes after r =>
        if Qle_bool after timeout then sleep after;; lift r
        else sleep timeout;; raise TimeoutError
    | Never => sleep timeout;; raise TimeoutError
    end.

(** [reader.read(n)]: at most [n] of the bytes that came in *)
Definition read (reader : StreamReader) (n : nat) : awaitable (list Byte.byte) :=
  match incoming reader with
  | Completes after r => Completes after (take n <$> r)
  | Never => Never
  end.

(** [writer.close()] *)
Definition close (writer : StreamWriter) : M unit :=
  emit Close;; lift (close_result writer).

(** [await writer.wait_closed()] *)
Definition wait_closed (writer : StreamWriter) : M unit :=
  emit WaitClosed;; sleep (wait_closed_after writer);; lift (wait_closed_result writer).

(** [min(a, b)] of Python: [b] when [b < a], else [a] *)
Definition pymin (a b : Q) : Q := if Qle_bool a b then a else b.

(** [async with sem: body] *)
Definition async_with_sem {A} (body : M A) : M A := λ w,
  let '(_, w1) := emit Acquire w in
  let '(r, w2) := body w1 in
  let '(_, w3) := emit Release w2 in
  (r, w3).

Definition banner_grab (reader : StreamReader) (timeout : Q) : M text :=
  try_except
    (data ← (emit (Read BANNER_READ_BYTES timeout);;
             wait_for (read reader BANNER_READ_BYTES) timeout);
     mret (Codec.strip (Codec.decode data)))
    (λ _, mret []).

Definition scan_port (open_connection : string → Z → awaitable connection)
    (host : string) (port : Z) (timeout : Q) (do_banner : bool) : M outcome :=
  async_with_sem
    (try_except
       (let conn := open_connection host port in
        '(reader, writer) ← (emit (Connect host port timeout);; wait_for conn timeout);
        banner ← (if do_banner then banner_grab reader (pymin (1 # 2) timeout)
                  else mret []);
        close writer;;
        try_except (wait_closed writer)
          (λ e, if is_AttributeError e then mret () else raise e);;
        mret (port, true, banner))
       (λ e,
          if is_TimeoutError e || is_ConnectionRefusedError e || is_OSError e
          then mret (port, false, [])
          else mret (port, false, []))).

Definition start : world := World 0 [].

End Probe.

(** ** What the script does to the outside *)

(** The lines it prints. *)
Inductive line : Type :=
  | Scanning (host : string) (nports : nat)
  | OpenPort (host : string) (port : Z) (banner : text)
  | Finished (host : string) (open_count nports : nat)
  | ErrorScanning (host : string) (e : exn)
  | Saved (path : string)
  | SkippingSave.

(** A host's results, and the dictionary [all_results], in insertion
    order. *)
Definition host_result : Type := list outcome.
Definition session_result : Type := list (string * host_result).

(** [WriteJson] and [WriteCsv] are a save that went through: the file was
    created or truncated and holds the data.  [WritePartial] is a save that
    raised after [open(path, 'w')] had created or truncated the file: the
    file is left empty or written in part. *)
Inductive effect : Type :=
  | Net (host : string) (task : nat) (e : Probe.event)
  | Console (l : line)
  | WriteJson (path : string) (data : session_result)
  | WriteCsv (path : string) (data : session_result)
  | WritePartial (path : string).

(** ** The host scan: scan_host *)

Module Scheduler.

Import Probe.

(** The network as the [i]-th probe of a host scan meets it. *)
Definition network : Type := string → Z → nat → awaitable connection.

(** A probe task: the events it has gone through, those it still has to,
    and what the coroutine returns after the last one. *)
Record task := Task {
  done : list event;
  todo : list event;
  returns : res outcome
}.

(** The coroutine object [scan_port(host, p, timeout, do_banner, sem)] of
    the [i]-th port. *)
Definition spawn (net : network) (host : string) (timeout : Q) (do_banner : bool)
    (i : nat) (p : Z) : task :=
  let '(r, w) := scan_port (λ h q, net h q i) host p timeout do_banner start in
  Task [] (snd <$> log w) r.

Record state := State {
  sem_value : Z;
  tasks : list task;
  completed : list (res outcome);
  results : list outcome;
  effects : list effect;
  failure : option exn
}.

(** After [sem = asyncio.Semaphore(concurrency)] and the list of
    coroutines. *)
Definition init (net : network) (host : string) (ports : list Z) (timeout : Q)
    (concurrency : Z) (do_banner : bool) : state :=
  State concurrency (imap (spawn net host timeout do_banner) ports) [] [] [] None.

(** What the event loop does next: let task [i] go through its next
    event, or let the [for] loop take the next completed task. *)
Inductive choice : Type :=
  | Advance (i : nat)
  | Collect.

Definition step (host : string) (c : choice) (s : state) : option state :=
  match failure s with
  | Some _ => None
  | None =>
      match c with
      | Advance i =>
          t ← tasks s !! i;
          match todo t with
          | [] => None
          | e :: rest =>
              v ← match e with
                  | Acquire => if 0 <? sem_value s then Some (sem_value s - 1) else None
                  | Release => Some (sem_value s + 1)
                  | _ => Some (sem_value s)
                  end;
              Some (State v
                      (<[i := Task (done t ++ [e]) rest (returns t)]> (tasks s))
                      (match rest with
                       | [] => completed s ++ [returns t]
                       | _ => completed s
                       end)
                      (results s)
                      (effects s ++ [Net host i e])
                      None)
          end
      | Collect =>
          match completed s with
          | [] => None
          | Return (port, is_open, banner) :: q =>
              Some (State (sem_value s) (tasks s) q
                      (results s ++ [(port, is_open, banner)])
                      (effects s ++
                         (if is_open then [Console (OpenPort host port banner)] else []))
                      None)
          | Raise e :: q =>
              Some (State (sem_value s) (tasks s) q (results s) (effects s) (Some e))
          end
      end
  end.

Fixpoint run (host : string) (sched : list choice) (s : state) : option state :=
  match sched with
  | [] => Some s
  | c :: sched' => s' ← step host c s; run host sched' s'
  end.

Definition idle (t : task) : bool :=
  match todo t with [] => true | _ => false end.

(** Every task has completed and has been taken by the loop. *)
Definition finished (s : state) : bool :=
  forallb idle (tasks s) && match completed s with [] => true | _ => false end.

(** The host scan under the schedule [sched] of the event loop: what it
    returns or raises, with its effects; [None] when [sched] is not a
    schedule of the scan or stops before the scan is over. *)
Definition scan_host (net : network) (host : string) (ports : list Z) (timeout : Q)
    (concurrency : Z) (do_banner : bool) (sched : list choice)
  : option (res host_result * list effect) :=
  if concurrency <? 0 then Some (Raise ValueError, [])
  else
    s ← run host sched (init net host ports timeout concurrency do_banner);
    match failure s with
    | Some e => Some (Raise e, effects s)
    | None =>
        if finished s then Some (Return (sorted_by out_port (results s)), effects s)
        else None
    end.

Definition is_acquire (e : event) : bool :=
  match e with Acquire => true | _ => false end.

Definition is_release (e : event) : bool :=
  match e with Release => true | _ => false end.

(** A task holds a slot of the semaphore: it is past its [Acquire] and
    before its [Release]. *)
Definition holding (t : task) : bool :=
  existsb is_acquire (done t) && negb (existsb is_release (done t)).

Definition in_flight (s : state) : nat := length (filter (λ t, holding t = true) (tasks s)).

End Scheduler.

(** ** The session driver: main_async *)

Module Session.

Record args := Args {
  target : string;
  ports : string;
  concurrency : Z;
  timeout : Q;
  banner : bool;
  output : option string
}.

(** [all_results[host] = host_results] *)
Fixpoint dict_set (d : session_result) (host : string) (v : host_result) : session_result :=
  match d with
  | [] => [(host, v)]
  | (k, v') :: d' =>
      if String.eqb k host then (k, v) :: d' else (k, v') :: dict_set d' host v
  end.

Fixpoint dict_get (d : session_result) (host : string) : option host_result :=
  match d with
  | [] => None
  | (k, v) :: d' => if String.eqb k host then Some v else dict_get d' host
  end.

(** [sum(1 for (_, open_, _) in host_results if open_)] *)
Definition open_count (host_results : host_result) : nat :=
  length (filter (λ o, out_open o = true) host_results).

(** The [for host in targets] loop.  [scan host] is the awaited
    [scan_host(host, ...)]: what it returns or raises and its effects, or
    [None] when it never finishes. *)
Fixpoint scan_targets (scan : string → option (res host_result * list effect))
    (nports : nat) (targets : list string) (all_results : session_result)
  : option (session_result * list effect) :=
  match targets with
  | [] => Some (all_results, [])
  | host :: targets' =>
      '(r, during) ← scan host;
      let '(all_results', after) :=
        match r with
        | Return host_results =>
            (dict_set all_results host host_results,
             [Console (Finished host (open_count host_results) nports)])
        | Raise e => (all_results, [Console (ErrorScanning host e)])
        end in
      '(final, later) ← scan_targets scan nports targets' all_results';
      Some (final, Console (Scanning host nports) :: during ++ after ++ later)
  end.

(** [s.lower()] on one character of the Latin-1 range *)
Definition lower_char (c : ascii) : ascii :=
  let n := PyStr.code c in
  if ((65 <=? n) && (n <=? 90) || (192 <=? n) && (n <=? 222) && negb (n =? 215))%N
  then ascii_of_N (n + 32) else c.

Fixpoint lower (s : string) : string :=
  match s with
  | String c s' => String (lower_char c) (lower s')
  | EmptyString => EmptyString
  end.

(** [s.endswith(suffix)] *)
Definition endswith (s suffix : string) : bool :=
  (String.length suffix <=? String.length s)%nat
  && String.eqb (String.substring (String.length s - String.length suffix)
                   (String.length suffix) s) suffix.

(** The part after the loop, with [save_json] and [save_csv].  [fs path]
    is what the file system makes of the two steps of a save:
    [open(path, 'w')] raises, or it creates or truncates the file, and then
    the write to the file raises or goes through. *)
Definition save_output (fs : string → res (res unit)) (out : option string)
    (all_results : session_result) : res unit * list effect :=
  match out with
  | None => (Return (), [])
  | Some path =>
      if PyStr.is_empty path then (Return (), [])
      else if endswith (lower path) ".json" then
        match fs path with
        | Return (Return _) =>
            (Return (), [WriteJson path all_results; Console (Saved path)])
        | Return (Raise e) => (Raise e, [WritePartial path])
        | Raise e => (Raise e, [])
        end
      else if endswith (lower path) ".csv" then
        match fs path with
        | Return (Return _) =>
            (Return (), [WriteCsv path all_results; Console (Saved path)])
        | Return (Raise e) => (Raise e, [WritePartial path])
        | Raise e => (Raise e, [])
        end
      else (Return (), [Console SkippingSave])
  end.

(** The run of the session under the network [net], the schedules
    [sched] of the event loop, one per host, and the file system [fs]. *)
Definition main_async (net : Scheduler.network)
    (sched : string → list Scheduler.choice) (fs : string → res (res unit)) (a : args)
  : option (res session_result * list effect) :=
  match Ports.parse_ports (ports a) with
  | Raise e => Some (Raise e, [])
  | Return port_list =>
      match Targets.expand_targets (target a) with
      | Raise e => Some (Raise e, [])
      | Return targets =>
          '(all_results, during) ←
            scan_targets
              (λ host, Scheduler.scan_host net host port_list (timeout a)
                         (concurrency a) (banner a) (sched host))
              (length port_list) targets [];
          match save_output fs (output a) all_results with
          | (Return _, saved) => Some (Return all_results, during ++ saved)
          | (Raise e, saved) => Some (Raise e, during ++ saved)
          end
      end
  end.

End Session.

(** ** The rows of save_csv *)

Module Output.

Record csv_row := CsvRow {
  row_host : string;
  row_port : Z;
  row_open : bool;
  row_banner : text
}.

(** The list [rows] of [save_csv]: one dictionary per host and outcome. *)
Definition csv_rows (data : session_result) : list csv_row :=
  '(host, results) ← data;
  '(port, is_open, banner) ← results;
  [CsvRow host port is_open banner].

End Output.

(** * The vocabulary of the statements *)

Module PortsSpec.

Import PyStr.

Definition int_ok (s : string) : bool :=
  match PyStr.int s with Return _ => true | Raise _ => false end.

(** The tokens of a port expression: the comma-separated parts, trimmed,
    without the empty ones. *)
Definition tokens (ports_arg : string) : list string :=
  filter (λ t, is_empty t = false) (strip <$> split "," ports_arg).

(** Every way to cut a token at one of its [-]. *)
Fixpoint dash_cuts (t : string) : list (string * string) :=
  match t with
  | String c t' =>
      (if Ascii.eqb c "-" then [(EmptyString, t')] else [])
        ++ (prod_map (String c) id <$> dash_cuts t')
  | EmptyString => []
  end.

(** A token as the specification words it: an integer, or two integers
    separated by [-]. *)
Definition spec_parseable (t : string) : bool :=
  int_ok t || existsb (λ ab, int_ok ab.1 && int_ok ab.2) (dash_cuts t).

(** The values a token stands for, as the parser reads it: a token
    without [-] is one integer, a token with [-] is cut at its first
    [-] into the two ends of a range. *)
Definition token_span (t : string) : option (Z * Z) :=
  if contains "-" t then
    match split1 "-" t with
    | (a, Some b) =>
        match PyStr.int a, PyStr.int b with
        | Return a, Return b => Some (Z.min a b, Z.max a b)
        | _, _ => None
        end
    | (_, None) => None
    end
  else
    match PyStr.int t with
    | Return n => Some (n, n)
    | Raise _ => None
    end.

Definition parseable (t : string) : bool :=
  match token_span t with Some _ => true | None => false end.

Definition covers (t : string) (p : Z) : Prop :=
  ∃ lo hi, token_span t = Some (lo, hi) ∧ lo ≤ p ≤ hi.

Definition part_tokens (parts : list string) : list string :=
  filter (λ t, is_empty t = false) (strip <$> parts).

End PortsSpec.

Module ProbeSpec.

Import Probe.

(** The banner a read gives: the text of what came in within the timeout,
    else nothing. *)
Definition banner_of (reader : StreamReader) (timeout : Q) : text :=
  if Qle_bool timeout 0 then []
  else
    match incoming reader with
    | Completes after (Return data) =>
        if Qle_bool after timeout
        then Codec.strip (Codec.decode (take BANNER_READ_BYTES data))
        else []
    | _ => []
    end.

(** The time a wait takes. *)
Definition wait_time {A} (op : awaitable A) (timeout : Q) : Q :=
  if Qle_bool timeout 0 then 0
  else
    match op with
    | Completes after _ => if Qle_bool after timeout then after else timeout
    | Never => timeout
    end.

(** The connection a probe gets, with the time it took: none when the
    attempt fails or does not complete within the timeout. *)
Definition connected (conn : awaitable connection) (timeout : Q)
  : option (Q * connection) :=
  if Qle_bool timeout 0 then None
  else
    match conn with
    | Completes after (Return c) =>
        if Qle_bool after timeout then Some (after, c) else None
    | _ => None
    end.

(** Closing the connection raises nothing that leaves the inner handler. *)
Definition closes_quietly (writer : StreamWriter) : bool :=
  match close_result writer with
  | Return _ =>
      match wait_closed_result writer with
      | Return _ => true
      | Raise e => is_AttributeError e
      end
  | Raise _ => false
  end.

Definition closed_port (port : Z) : outcome := (port, false, []).

(** A peer that accepts the connection and resets it while it is closed. *)
Definition reset_on_close : Probe.connection :=
  (Build_StreamReader Never,
   Build_StreamWriter (Return ()) 0 (Raise ConnectionResetError)).

(** A service that greets with the bytes of SSH, a space and a newline,
    and closes cleanly. *)
Definition greeting : connection :=
  (Build_StreamReader
     (Completes (1 # 10) (Return [Byte.x53; Byte.x53; Byte.x48; Byte.x20; Byte.x0a])),
   Build_StreamWriter (Return ()) 0 (Return ())).

(** The exception a read under [timeout] ends in, when it ends in one:
    the transport has reported the failure before the timeout. *)
Definition read_failure (reader : StreamReader) (timeout : Q) : option exn :=
  if Qle_bool timeout 0 then None
  else
    match incoming reader with
    | Completes after (Raise e) => if Qle_bool after timeout then Some e else None
    | _ => None
    end.

(** A peer that accepts the connection and resets it a tenth of a second
    later.  [StreamReaderProtocol.connection_lost(exc)] of asyncio hands the
    exception to the reader and to the future [wait_closed] awaits alike: a
    read raises it, and so does [wait_closed]. *)
Definition reset_while_reading : connection :=
  (Build_StreamReader (Completes (1 # 10) (Raise ConnectionResetError)),
   Build_StreamWriter (Return ()) 0 (Raise ConnectionResetError)).

(** A host where port 22 answers and every other port refuses. *)
Definition one_open_port (host : string) (port : Z) (i : nat) : awaitable connection :=
  if port =? 22 then Completes (1 # 100) (Return greeting)
  else Completes (1 # 100) (Raise ConnectionRefusedError).

End ProbeSpec.

Module SessionSpec.

Import Session.

(** What the loop does for one host: the line that announces it, the
    effects of its scan, and the summary or the diagnostic. *)
Definition host_effects (scan : string → option (res host_result * list effect))
    (nports : nat) (host : string) : list effect :=
  match scan host with
  | Some (Return host_results, during) =>
      Console (Scanning host nports) :: during
        ++ [Console (Finished host (open_count host_results) nports)]
  | Some (Raise e, during) =>
      Console (Scanning host nports) :: during ++ [Console (ErrorScanning host e)]
  | None => []
  end.

(** The entry of [host] after the loop over [targets]: the result of its
    last scan that returned, else the entry it had before. *)
Fixpoint recorded (scan : string → option (res host_result * list effect))
    (targets : list string) (host : string) (before : option host_result)
  : option host_result :=
  match targets with
  | [] => before
  | h :: targets' =>
      recorded scan targets' host
        (if String.eqb h host then
           match scan h with
           | Some (Return host_results, _) => Some host_results
           | _ => before
           end
         else before)
  end.

(** Host scans of which the one of ["10.0.0.1"] raises. *)
Definition one_failing_host (host : string)
  : option (res host_result * list effect) :=
  if String.eqb host "10.0.0.1" then Some (Raise RuntimeError, [])
  else Some (Return [(80, true, [])], []).

End SessionSpec.

Module SchedulerSpec.

Import Probe Scheduler.

(** An event of the probe proper, between [Acquire] and [Release]. *)
Definition probe_event (e : event) : bool :=
  negb (is_acquire e) && negb (is_release e).

(** What the [i]-th probe of a host scan returns. *)
Definition outcome_of (net : network) (host : string) (timeout : Q) (do_banner : bool)
    (i : nat) (p : Z) : outcome :=
  match returns (spawn net host timeout do_banner i p) with
  | Return o => o
  | Raise _ => (p, false, [])
  end.

Definition expected (net : network) (host : string) (ports : list Z) (timeout : Q)
    (do_banner : bool) : list outcome :=
  imap (outcome_of net host timeout do_banner) ports.

(** The events the [i]-th probe goes through, in order. *)
Definition script (net : network) (host : string) (timeout : Q) (do_banner : bool)
    (i : nat) (p : Z) : list event :=
  snd <$> log (scan_port (λ h q, net h q i) host p timeout do_banner start).2.

Definition events (t : task) : list event := done t ++ todo t.

Definition unwrap (r : res outcome) : option outcome :=
  match r with Return o => Some o | Raise _ => None end.

(** Where a task is in its script: before [Acquire], between [Acquire]
    and [Release], or behind [Release] with nothing left. *)
Inductive phase (t : task) : Prop :=
  | Waiting body :
      done t = [] → todo t = Acquire :: body ++ [Release] →
      forallb probe_event body = true → phase t
  | Running pre post :
      done t = Acquire :: pre → todo t = post ++ [Release] →
      forallb probe_event pre = true → forallb probe_event post = true → phase t
  | Over body :
      done t = Acquire :: body ++ [Release] → todo t = [] →
      forallb probe_event body = true → phase t.

(** What is left to do: two for an event of a task, one for a completed
    task the loop has not taken. *)
Definition pending (s : state) : nat :=
  2 * sum_list_with (λ t, length (todo t)) (tasks s) + length (completed s).

(** What holds in every state of a host scan with cap [cap]. *)
Record inv (cap : Z) (expect : list outcome) (scripts : list (list event))
    (s : state) : Prop := {
  inv_phase : Forall phase (tasks s);
  inv_returns : returns <$> tasks s = Return <$> expect;
  inv_events : events <$> tasks s = scripts;
  inv_sem : sem_value s + Z.of_nat (in_flight s) = cap;
  inv_failure : failure s = None;
  inv_results :
    (Return <$> results s) ++ completed s
    ≡ₚ returns <$> filter (λ t, idle t = true) (tasks s)
}.

End SchedulerSpec.

Module TargetsSpec.

Import Ipaddress.

(** The number of addresses of a block but one: the distance from its
    network address to its last address. *)
Definition span (n : network) : Z :=
  2 ^ (max_prefixlen (net_version n) - prefixlen n) - 1.

(** What every network object built from text satisfies. *)
Definition well_formed (n : network) : Prop :=
  let m := max_prefixlen (net_version n) in
  0 ≤ prefixlen n ≤ m
  ∧ 0 ≤ addr_ip (net_addr n) < 2 ^ m
  ∧ addr_version (net_addr n) = net_version n
  ∧ network_address n
    = Z.land (addr_ip (net_addr n)) (ip_int_from_prefix (net_version n) (prefixlen n)).

End TargetsSpec.

Module CodecSpec.

(** A Unicode scalar value: a code point that is no surrogate. *)
Definition scalar (c : N) : Prop := (c < 55296 ∨ 57344 ≤ c < 1114112)%N.

(** The UTF-8 bytes of one scalar value. *)
Definition utf8_encode_one (c : N) : list N :=
  (if c <? 128 then [c]
   else if c <? 2048 then [192 + c / 64; 128 + c mod 64]
   else if c <? 65536 then [224 + c / 4096; 128 + (c / 64) mod 64; 128 + c mod 64]
   else [240 + c / 262144; 128 + (c / 4096) mod 64; 128 + (c / 64) mod 64;
         128 + c mod 64])%N.

(** [s.encode('utf-8')] *)
Definition utf8_encode (s : text) : list N := s ≫= utf8_encode_one.

End CodecSpec.


Module ProbeTime.

Import Probe.

(** The longest the close of a connection can keep a probe: the time
    [wait_closed] takes, which the probe does not bound. *)
Definition closing_time (conn : awaitable connection) : Q :=
  match conn with
  | Completes _ (Return (_, writer)) => Qmax 0 (wait_closed_after writer)
  | _ => 0
  end.

End ProbeTime.

Module EffectSpec.

(** The events of the [i]-th probe among the effects of a host scan. *)
Definition net_trace (i : nat) (effs : list effect) : list Probe.event :=
  omap (λ e, match e with
             | Net _ j ev => if (j =? i)%nat then Some ev else None
             | _ => None
             end) effs.

(** The lines printed. *)
Definition console (effs : list effect) : list line :=
  omap (λ e, match e with Console l => Some l | _ => None end) effs.

(** The [OPEN] lines of the open ports of a list of outcomes. *)
Definition open_lines (host : string) (l : list outcome) : list line :=
  (λ o, OpenPort host (out_port o) (out_banner o))
    <$> filter (λ o, out_open o = true) l.

Definition is_connect (e : Probe.event) : bool :=
  match e with Probe.Connect _ _ _ => true | _ => false end.

(** An effect of a scan of [host]: an event of one of its probes or an
    [OPEN] line for it. *)
Definition of_scan (host : string) (e : effect) : Prop :=
  match e with
  | Net h _ _ => h = host
  | Console (OpenPort h _ _) => h = host
  | _ => False
  end.

(** An effect on a file. *)
Definition is_write (e : effect) : bool :=
  match e with WriteJson _ _ | WriteCsv _ _ | WritePartial _ => true | _ => false end.

End EffectSpec.

Module PortsText.

(** [','.join(str(p) for p in ports)] *)
Definition port_list_text (ports : list Z) : string :=
  Ipaddress.join "," (pretty <$> ports).

End PortsText.

Module TraceSpec.

Import Scheduler EffectSpec.

(** What the effects of a host scan record of its state. *)
Record traced (host : string) (s : state) : Prop := {
  traced_net : ∀ i, net_trace i (effects s) = default [] (done <$> tasks s !! i);
  traced_console : console (effects s) = open_lines host (results s);
  traced_scan : Forall (of_scan host) (effects s)
}.

End TraceSpec.

Module DecimalSpec.

Import PyStr.

(** A character of a number and of nothing else. *)
Definition plain (c : ascii) : bool :=
  is_digit c && negb (isspace c) && negb (int_blank c) && negb (Ascii.eqb c ",")
  && negb (Ascii.eqb c "-") && negb (Ascii.eqb c "+") && negb (Ascii.eqb c "_").

(** Text without whitespace, commas and the like. *)
Definition solid (c : ascii) : bool := negb (isspace c) && negb (Ascii.eqb c ",").

End DecimalSpec.

Module DottedSpec.

Import PyStr Ipaddress DecimalSpec.

(** An octet whose decimal text [parse_octet] reads back. *)
Definition octet_ok (o : Z) : bool :=
  match parse_octet (pretty o) with
  | Some o' => o' =? o
  | None => false
  end.

(** A character of a dotted quad. *)
Definition dotted (c : ascii) : bool :=
  (is_digit c || Ascii.eqb c ".") && negb (isspace c) && negb (Ascii.eqb c "/").

End DottedSpec.

(** * Properties *)

(** ** Sorting *)

Section SortedFacts.
Context {A : Type} (key : A → Z).

Lemma insert_by_perm x l : insert_by key x l ≡ₚ x :: l.
Proof.
  induction l as [|y l IH]; simpl; [done|].
  destruct (key x <=? key y); [done|].
  rewrite IH. apply Permutation_swap.
Qed.

Lemma sorted_by_perm l : sorted_by key l ≡ₚ l.
Proof.
  induction l as [|x l IH]; simpl; [done|].
  rewrite insert_by_perm. by f_equiv.
Qed.

Lemma sorted_by_length l : length (sorted_by key l) = length l.
Proof. by rewrite sorted_by_perm. Qed.

Lemma insert_by_sorted x l :
  StronglySorted (key_le key) l → StronglySorted (key_le key) (insert_by key x l).
Proof.
  induction 1 as [|y l Hl IH Hy]; simpl.
  - repeat constructor.
  - destruct (Z.leb_spec (key x) (key y)) as [Hxy|Hxy].
    + constructor; [by constructor|].
      constructor; [done|].
      eapply Forall_impl; [exact Hy|]. unfold key_le. intros; lia.
    + constructor; [done|].
      rewrite insert_by_perm. constructor; [|done]. unfold key_le; lia.
Qed.

Lemma sorted_by_sorted l : StronglySorted (key_le key) (sorted_by key l).
Proof.
  induction l as [|x l IH]; simpl; [constructor|]. by apply insert_by_sorted.
Qed.
End SortedFacts.

Lemma sorted_le_nodup_lt (l : list Z) :
  StronglySorted Z.le l → NoDup l → StronglySorted Z.lt l.
Proof.
  induction 1 as [|x l Hl IH Hx]; intros Hnd; [constructor|].
  apply NoDup_cons in Hnd as [Hxl Hnd].
  constructor; [by apply IH|].
  apply Forall_forall. intros y Hy.
  rewrite Forall_forall in Hx. specialize (Hx y Hy).
  assert (x ≠ y) by (intros ->; done). lia.
Qed.

(** ** parse_ports *)

Module PortsFacts.

Import PyStr Ports PortsSpec.

Lemma int_raises s e : PyStr.int s = Raise e → e = ValueError.
Proof.
  unfold PyStr.int. destruct (split_sign _) as [sg body].
  destruct (scan_number body) as [[n rest]|]; [|congruence].
  destruct (is_empty _); congruence.
Qed.

Lemma split1_contains sep s :
  contains sep s = true → ∃ a b, split1 sep s = (a, Some b).
Proof.
  induction s as [|c s IH]; simpl; [done|].
  destruct (Ascii.eqb c sep); simpl; [eauto|].
  intros H. destruct (IH H) as (a & b & ->). eauto.
Qed.

Lemma split1_cut s a b :
  split1 "-" s = (a, Some b) → (a, b) ∈ dash_cuts s.
Proof.
  revert a. induction s as [|c s IH]; simpl; intros a; [done|].
  destruct (Ascii.eqb c "-").
  - intros [= <- <-]. set_solver.
  - destruct (split1 "-" s) as [a' b'] eqn:E. intros [= <- ->].
    apply elem_of_app. right.
    apply (list_elem_of_fmap_2 (prod_map (String c) id) _ (a', b)).
    by apply IH.
Qed.

(** One round of the loop, by the span of its token. *)
Lemma parse_part_span S part :
  parse_part S part =
    if is_empty (strip part) then Return S
    else match token_span (strip part) with
         | Some (lo, hi) => Return (S ∪ list_to_set (seqZ lo (hi + 1 - lo)))
         | None => Raise ValueError
         end.
Proof.
  unfold parse_part, token_span.
  destruct (is_empty (strip part)); [done|].
  destruct (contains "-" (strip part)) eqn:Hc.
  - destruct (split1_contains _ _ Hc) as (a & b & ->).
    destruct (PyStr.int a) as [x|e] eqn:Ha; simpl.
    + destruct (PyStr.int b) as [y|e] eqn:Hb; simpl.
      * destruct (Z.ltb_spec y x) as [Hyx|Hyx].
        -- by rewrite (Z.min_r x y), (Z.max_l x y) by lia.
        -- by rewrite (Z.min_l x y), (Z.max_r x y) by lia.
      * by rewrite (int_raises _ _ Hb).
    + by rewrite (int_raises _ _ Ha).
  - destruct (PyStr.int (strip part)) as [x|e] eqn:Ha; simpl.
    + do 2 f_equal. apply set_eq. intros p.
      rewrite elem_of_list_to_set, elem_of_seqZ, elem_of_singleton. lia.
    + by rewrite (int_raises _ _ Ha).
Qed.

Lemma part_tokens_cons part parts :
  part_tokens (part :: parts) =
    if is_empty (strip part) then part_tokens parts
    else strip part :: part_tokens parts.
Proof.
  unfold part_tokens. simpl. rewrite filter_cons.
  destruct (is_empty (strip part)); by case_decide.
Qed.

Lemma parse_parts_ok parts : ∀ S,
  Forall (λ t, parseable t = true) (part_tokens parts) →
  ∃ S', parse_parts S parts = Return S'
        ∧ ∀ p, p ∈ S' ↔ p ∈ S ∨ ∃ t, t ∈ part_tokens parts ∧ covers t p.
Proof.
  induction parts as [|part parts IH]; intros S Hall; simpl.
  - exists S. split; [done|]. intros p. split; [auto|].
    intros [?|(t & Ht & _)]; [done|]. by apply elem_of_nil in Ht.
  - rewrite parse_part_span. rewrite part_tokens_cons in Hall |- *.
    destruct (is_empty (strip part)) eqn:He.
    + simpl. destruct (IH S Hall) as (S' & -> & HS'). eauto.
    + apply Forall_cons in Hall as [Hp Hall].
      unfold parseable in Hp.
      destruct (token_span (strip part)) as [[lo hi]|] eqn:Hspan; [|done].
      simpl.
      destruct (IH (S ∪ list_to_set (seqZ lo (hi + 1 - lo))) Hall) as (S' & -> & HS').
      exists S'. split; [done|]. intros p. rewrite HS'.
      rewrite elem_of_union, elem_of_list_to_set, elem_of_seqZ.
      split.
      * intros [[?|Hr]|(t & Ht & Hc)]; [by left| |].
        -- right. exists (strip part). split; [by left|].
           exists lo, hi. split; [done|lia].
        -- right. exists t. split; [by right|done].
      * intros [?|(t & Ht & Hc)]; [by left; left|].
        apply elem_of_cons in Ht as [->|Ht].
        -- destruct Hc as (lo' & hi' & Hs & Hr).
           rewrite Hspan in Hs. injection Hs as <- <-. left; right. lia.
        -- right. eauto.
Qed.

Lemma parse_parts_raises parts : ∀ S e,
  parse_parts S parts = Raise e → e = ValueError.
Proof.
  induction parts as [|part parts IH]; intros S e; simpl; [done|].
  rewrite parse_part_span.
  destruct (is_empty (strip part)); simpl; [apply IH|].
  destruct (token_span _) as [[lo hi]|]; simpl; [apply IH|congruence].
Qed.

Lemma parse_parts_fails parts : ∀ S,
  Exists (λ t, parseable t = false) (part_tokens parts) →
  parse_parts S parts = Raise ValueError.
Proof.
  induction parts as [|part parts IH]; intros S Hex.
  - by apply Exists_nil in Hex.
  - simpl. rewrite parse_part_span. rewrite part_tokens_cons in Hex.
    destruct (is_empty (strip part)); simpl; [by apply IH|].
    destruct (token_span (strip part)) as [[lo hi]|] eqn:Hspan; [|done].
    apply Exists_cons in Hex as [Hp|Hex]; [|by apply IH].
    unfold parseable in Hp. by rewrite Hspan in Hp.
Qed.

(** A token that is not an integer, nor two integers around a [-], is not
    one the parser reads. *)
Lemma spec_unparseable t : spec_parseable t = false → parseable t = false.
Proof.
  unfold spec_parseable, parseable, token_span, int_ok.
  intros [Hi Hcuts]%orb_false_elim.
  destruct (contains "-" t) eqn:Hc.
  - destruct (split1_contains _ _ Hc) as (a & b & Hs). rewrite Hs.
    destruct (PyStr.int a) as [x|] eqn:Ha; [|done].
    destruct (PyStr.int b) as [y|] eqn:Hb; [|done].
    exfalso. apply split1_cut in Hs.
    assert (existsb (λ ab, int_ok ab.1 && int_ok ab.2) (dash_cuts t) = true) as Htrue.
    { apply existsb_exists. exists (a, b). split; [by apply list_elem_of_In|].
      unfold int_ok; simpl. by rewrite Ha, Hb. }
    unfold int_ok in Htrue. congruence.
  - destruct (PyStr.int t); [done|done].
Qed.

(** *** Blanks around tokens and around the ends of a range *)

Abbreviation all_chars := Ipaddress.all_chars.

Lemma lstrip_blank w : all_chars isspace w = true → lstrip w = EmptyString.
Proof.
  induction w as [|c w IH]; simpl; [done|].
  intros [Hc Hw]%andb_prop. rewrite Hc. auto.
Qed.

Lemma rstrip_blank w : all_chars isspace w = true → rstrip w = EmptyString.
Proof.
  induction w as [|c w IH]; simpl; [done|].
  intros [Hc Hw]%andb_prop. by rewrite (IH Hw), Hc.
Qed.

Lemma lstrip_pad w s : all_chars isspace w = true → lstrip (w +:+ s) = lstrip s.
Proof.
  induction w as [|c w IH]; simpl; [done|].
  intros [Hc Hw]%andb_prop. rewrite Hc. auto.
Qed.

Lemma rstrip_pad s w : all_chars isspace w = true → rstrip (s +:+ w) = rstrip s.
Proof.
  intros Hw. induction s as [|c s IH]; simpl; [by apply rstrip_blank|].
  by rewrite IH.
Qed.

Lemma strip_pad_r s w : all_chars isspace w = true → strip (s +:+ w) = strip s.
Proof.
  intros Hw. unfold strip. induction s as [|c s IH].
  - change (EmptyString +:+ w) with w. by rewrite (lstrip_blank _ Hw).
  - change (String c s +:+ w) with (String c (s +:+ w)). simpl.
    destruct (isspace c); [done|].
    change (String c (s +:+ w)) with (String c s +:+ w). by apply rstrip_pad.
Qed.

Lemma strip_pad w1 t w2 :
  all_chars isspace w1 = true → all_chars isspace w2 = true →
  strip (w1 +:+ t +:+ w2) = strip t.
Proof.
  intros H1 H2. unfold strip. rewrite lstrip_pad by done. by apply strip_pad_r.
Qed.

Lemma int_blank_other c :
  int_blank c = true → is_digit c = false ∧ Ascii.eqb c "_" = false.
Proof. destruct c as [[] [] [] [] [] [] [] []]; vm_compute; by intros; split. Qed.

Lemma skip_blanks_blank w : all_chars int_blank w = true → skip_blanks w = EmptyString.
Proof.
  induction w as [|c w IH]; simpl; [done|].
  intros [Hc Hw]%andb_prop. rewrite Hc. auto.
Qed.

Lemma skip_blanks_pad_l w s :
  all_chars int_blank w = true → skip_blanks (w +:+ s) = skip_blanks s.
Proof.
  induction w as [|c w IH]; simpl; [done|].
  intros [Hc Hw]%andb_prop. rewrite Hc. auto.
Qed.

Lemma skip_blanks_pad_r s w :
  all_chars int_blank w = true →
  skip_blanks (s +:+ w) =
    if is_empty (skip_blanks s) then EmptyString else skip_blanks s +:+ w.
Proof.
  intros Hw. induction s as [|c s IH].
  - change (EmptyString +:+ w) with w. simpl. by apply skip_blanks_blank.
  - change (String c s +:+ w) with (String c (s +:+ w)). simpl.
    by destruct (int_blank c).
Qed.

Lemma scan_digits_pad w : all_chars int_blank w = true → ∀ s acc prev,
  scan_digits acc prev (s +:+ w) =
    match scan_digits acc prev s with
    | Some (n, rest) => Some (n, rest +:+ w)
    | None => None
    end.
Proof.
  intros Hw. induction s as [|c s IH]; intros acc prev.
  - change (EmptyString +:+ w) with w. destruct w as [|c w]; simpl.
    + by destruct prev.
    + simpl in Hw. apply andb_prop in Hw as [Hc _].
      destruct (int_blank_other _ Hc) as [-> ->]. by destruct prev.
  - change (String c s +:+ w) with (String c (s +:+ w)). simpl.
    destruct (is_digit c); [apply IH|].
    destruct (Ascii.eqb c "_"); [destruct prev; [done|apply IH]|].
    by destruct prev.
Qed.

Lemma scan_number_pad w s : all_chars int_blank w = true →
  scan_number (s +:+ w) =
    match scan_number s with
    | Some (n, rest) => Some (n, rest +:+ w)
    | None => None
    end.
Proof.
  intros Hw. destruct s as [|c s].
  - change (EmptyString +:+ w) with w. destruct w as [|c w]; simpl; [done|].
    simpl in Hw. apply andb_prop in Hw as [Hc _].
    by destruct (int_blank_other _ Hc) as [-> _].
  - change (String c s +:+ w) with (String c (s +:+ w)). simpl.
    destruct (is_digit c); [by apply scan_digits_pad|done].
Qed.

Lemma split_sign_pad w s : s ≠ EmptyString →
  split_sign (s +:+ w) = ((split_sign s).1, (split_sign s).2 +:+ w).
Proof.
  destruct s as [|c s]; [done|]. intros _.
  change (String c s +:+ w) with (String c (s +:+ w)). simpl.
  destruct (Ascii.eqb c "+"); [done|]. by destruct (Ascii.eqb c "-").
Qed.

Lemma int_pad_r s w : all_chars int_blank w = true → PyStr.int (s +:+ w) = PyStr.int s.
Proof.
  intros Hw. unfold PyStr.int. rewrite skip_blanks_pad_r by done.
  destruct (skip_blanks s) as [|c s'] eqn:Hs; [done|].
  cbn [is_empty]. rewrite split_sign_pad by done.
  destruct (split_sign (String c s')) as [sg body]. cbn [fst snd].
  rewrite scan_number_pad by done.
  destruct (scan_number body) as [[n rest]|]; [|done].
  rewrite skip_blanks_pad_r by done. by destruct (skip_blanks rest).
Qed.

Lemma int_pad w1 a w2 :
  all_chars int_blank w1 = true → all_chars int_blank w2 = true →
  PyStr.int (w1 +:+ a +:+ w2) = PyStr.int a.
Proof.
  intros H1 H2. rewrite <- (int_pad_r a w2 H2).
  unfold PyStr.int. by rewrite skip_blanks_pad_l.
Qed.

End PortsFacts.

(** C6 (as amended).  A signed token such as [-5] is cut at its [-] like a
    range and is a parse error.  For every port expression whose non-empty
    tokens the parser reads (a token without [-] as one integer, a token
    with [-] as two integers around its first [-]), [parse_ports] returns a
    strictly ascending list, hence without duplicates, of exactly the
    values in [1, 65535] that some token stands for, a range standing for
    the values between its smaller and its larger end.  Whitespace around a
    token and blanks around an integer do not matter, and
    [parse_ports "22,80-82" = [22, 80, 81, 82]],
    [parse_ports "80,80-81" = [80, 81]]. *)
Theorem parse_ports_reads_tokens :
  Ports.parse_ports "22,80-82" = Return [22; 80; 81; 82]
  ∧ Ports.parse_ports "80,80-81" = Return [80; 81]
  ∧ Ports.parse_ports "100-98" = Return [98; 99; 100]
  ∧ (∀ w1 t w2,
       Ipaddress.all_chars PyStr.isspace w1 = true →
       Ipaddress.all_chars PyStr.isspace w2 = true →
       PyStr.strip (w1 +:+ t +:+ w2) = PyStr.strip t)
  ∧ (∀ w1 a w2,
       Ipaddress.all_chars PyStr.int_blank w1 = true →
       Ipaddress.all_chars PyStr.int_blank w2 = true →
       PyStr.int (w1 +:+ a +:+ w2) = PyStr.int a)
  ∧ ∀ ports_arg,
      Forall (λ t, PortsSpec.parseable t = true) (PortsSpec.tokens ports_arg) →
      ∃ l, Ports.parse_ports ports_arg = Return l
           ∧ StronglySorted Z.lt l
           ∧ ∀ p, p ∈ l ↔
                  1 ≤ p ≤ 65535
                  ∧ ∃ t, t ∈ PortsSpec.tokens ports_arg ∧ PortsSpec.covers t p.
Proof.
  split; [by vm_compute|]. split; [by vm_compute|]. split; [by vm_compute|].
  split; [exact PortsFacts.strip_pad|]. split; [exact PortsFacts.int_pad|].
  intros ports_arg Hall. unfold Ports.parse_ports.
  destruct (PortsFacts.parse_parts_ok (PyStr.split "," ports_arg) ∅ Hall)
    as (S & -> & HS).
  eexists. split; [reflexivity|].
  set (kept := filter (λ p, Ports.in_port_range p = true) (elements S)).
  assert (NoDup kept) as Hnd by (apply NoDup_filter, NoDup_elements).
  split.
  - apply sorted_le_nodup_lt.
    + exact (sorted_by_sorted id kept).
    + by rewrite sorted_by_perm.
  - intros p. rewrite sorted_by_perm. unfold kept.
    rewrite list_elem_of_filter, elem_of_elements, HS.
    unfold Ports.in_port_range. rewrite andb_true_iff, !Z.leb_le.
    split.
    + intros [? [?|?]]; [set_solver|done].
    + intros [? ?]. split; [done|by right].
Qed.

Lemma parse_ports_reads_tokens_witness :
  ∃ l, Ports.parse_ports " 443 ,8080-8078,,0" = Return l
       ∧ StronglySorted Z.lt l
       ∧ ∀ p, p ∈ l ↔
              1 ≤ p ≤ 65535
              ∧ ∃ t, t ∈ PortsSpec.tokens " 443 ,8080-8078,,0" ∧ PortsSpec.covers t p.
Proof.
  apply (proj2 (proj2 (proj2 (proj2 (proj2 parse_ports_reads_tokens))))).
  change (PortsSpec.tokens " 443 ,8080-8078,,0") with ["443"; "8080-8078"; "0"]%string.
  repeat (constructor; [reflexivity|]). constructor.
Defined.

(** C6, as stated, fails: the only token of ["-5"] is an integer as
    [int] reads it, outside [1, 65535], and yet [parse_ports] raises instead
    of dropping the value. *)
Lemma parse_ports_signed_token :
  Forall (λ t, PortsSpec.spec_parseable t = true) (PortsSpec.tokens "-5")
  ∧ PyStr.int "-5" = Return (-5)
  ∧ Ports.parse_ports "-5" = Raise ValueError.
Proof.
  change (PortsSpec.tokens "-5") with ["-5"]%string.
  split; [repeat constructor|]. split; reflexivity.
Qed.

(** ** main_async *)

Module SessionFacts.

Import Session SessionSpec.

Lemma dict_get_set d k v h :
  dict_get (dict_set d k v) h = if String.eqb k h then Some v else dict_get d h.
Proof.
  induction d as [|[k' v'] d IH]; simpl; [done|].
  destruct (String.eqb_spec k' k) as [->|Hne]; simpl.
  - by destruct (String.eqb k h).
  - rewrite IH. destruct (String.eqb_spec k' h) as [->|?]; [|done].
    destruct (String.eqb_spec k h) as [->|?]; done.
Qed.

Lemma recorded_failing scan targets h before e during :
  scan h = Some (Raise e, during) → recorded scan targets h before = before.
Proof.
  intros Hs. revert before. induction targets as [|h' targets IH]; intros before; simpl.
  - done.
  - rewrite IH. destruct (String.eqb_spec h' h) as [->|?]; [|done]. by rewrite Hs.
Qed.

Lemma scan_targets_closed_form scan nports targets : ∀ d0,
  Forall (λ h, is_Some (scan h)) targets →
  ∃ final, scan_targets scan nports targets d0
           = Some (final, concat (host_effects scan nports <$> targets))
           ∧ ∀ h, dict_get final h = recorded scan targets h (dict_get d0 h).
Proof.
  induction targets as [|host targets IH]; intros d0 Hall; simpl.
  - by exists d0.
  - apply Forall_cons in Hall as [[[r during] Hs] Hall].
    unfold host_effects at 1. rewrite Hs. simpl.
    destruct r as [host_results|e].
    + destruct (IH (dict_set d0 host host_results) Hall) as (final & -> & Hget).
      exists final. simpl. split.
      * by rewrite <- !app_assoc.
      * intros h. rewrite Hget, dict_get_set. done.
    + destruct (IH d0 Hall) as (final & -> & Hget).
      exists final. simpl. split.
      * by rewrite <- !app_assoc.
      * intros h. rewrite Hget. by destruct (String.eqb host h).
Qed.

End SessionFacts.

(** C7.  When some non-empty token of the port expression is neither an
    integer nor two integers separated by [-], the session raises
    [ValueError] out of [main_async] before anything else happens: no effect
    at all, so no probe, and no result. *)
Theorem main_async_parse_error net sched fs (a : Session.args) :
  Exists (λ t, PortsSpec.spec_parseable t = false) (PortsSpec.tokens (Session.ports a)) →
  Ports.parse_ports (Session.ports a) = Raise ValueError
  ∧ Session.main_async net sched fs a = Some (Raise ValueError, []).
Proof.
  intros Hex.
  assert (Ports.parse_ports (Session.ports a) = Raise ValueError) as Hp.
  { unfold Ports.parse_ports.
    rewrite (PortsFacts.parse_parts_fails _ ∅); [done|].
    eapply Exists_impl; [exact Hex|].
    intros t Ht. by apply PortsFacts.spec_unparseable. }
  split; [done|]. unfold Session.main_async. by rewrite Hp.
Qed.

Lemma main_async_parse_error_witness :
  Ports.parse_ports "22,http,80" = Raise ValueError
  ∧ Session.main_async (λ _ _ _, Probe.Never) (λ _, []) (λ _, Return (Return ()))
      (Session.Args "10.0.0.0/30" "22,http,80" 500 1 false None)
    = Some (Raise ValueError, []).
Proof.
  apply (main_async_parse_error _ _ _ (Session.Args "10.0.0.0/30" "22,http,80" 500 1 false None)).
  change (PortsSpec.tokens (Session.ports
            (Session.Args "10.0.0.0/30" "22,http,80" 500 1 false None)))
    with ["22"; "http"; "80"]%string.
  apply Exists_cons_tl, Exists_cons_hd. reflexivity.
Defined.

(** C9.  The loop of the session driver goes through the targets in list
    order, one block of effects per host.  When the scan of a host raises,
    the block ends with the diagnostic, the dictionary keeps the entry the
    host had before (none, for a host not met before), and the loop goes on
    with the hosts that follow. *)
Theorem scan_targets_isolates_failures
    (scan : string → option (res host_result * list effect))
    (nports : nat) (targets : list string) (before : session_result) :
  Forall (λ h, is_Some (scan h)) targets →
  ∃ final effects,
    Session.scan_targets scan nports targets before = Some (final, effects)
    ∧ effects = concat (SessionSpec.host_effects scan nports <$> targets)
    ∧ (∀ h, Session.dict_get final h
            = SessionSpec.recorded scan targets h (Session.dict_get before h))
    ∧ ∀ h e during,
        h ∈ targets → scan h = Some (Raise e, during) →
        Console (ErrorScanning h e) ∈ effects
        ∧ Session.dict_get final h = Session.dict_get before h.
Proof.
  intros Hall.
  destruct (SessionFacts.scan_targets_closed_form scan nports targets before Hall)
    as (final & Hrun & Hget).
  exists final, (concat (SessionSpec.host_effects scan nports <$> targets)).
  split; [done|]. split; [done|]. split; [done|].
  intros h e during Hin Hs. split.
  - apply list_elem_of_In, in_concat.
    exists (SessionSpec.host_effects scan nports h). split.
    + apply list_elem_of_In, list_elem_of_fmap_2, Hin.
    + unfold SessionSpec.host_effects. rewrite Hs.
      right. apply in_or_app. right. by left.
  - rewrite Hget. by eapply SessionFacts.recorded_failing.
Qed.

Lemma scan_targets_isolates_failures_witness :
  ∃ final effects,
    Session.scan_targets SessionSpec.one_failing_host 1 ["10.0.0.1"; "10.0.0.2"] []
    = Some (final, effects)
    ∧ effects
      = concat (SessionSpec.host_effects SessionSpec.one_failing_host 1
                  <$> ["10.0.0.1"; "10.0.0.2"])
    ∧ (∀ h, Session.dict_get final h
            = SessionSpec.recorded SessionSpec.one_failing_host
                ["10.0.0.1"; "10.0.0.2"] h (Session.dict_get [] h))
    ∧ ∀ h e during,
        h ∈ ["10.0.0.1"; "10.0.0.2"] →
        SessionSpec.one_failing_host h = Some (Raise e, during) →
        Console (ErrorScanning h e) ∈ effects
        ∧ Session.dict_get final h = Session.dict_get [] h.
Proof.
  apply (scan_targets_isolates_failures SessionSpec.one_failing_host 1
           ["10.0.0.1"; "10.0.0.2"] []).
  repeat constructor; vm_compute; eauto.
Defined.

(** ** banner_grab and scan_port *)

Module ProbeFacts.

Import Probe ProbeSpec.
Local Open Scope Q_scope.

Ltac unfold_M :=
  unfold scan_port, async_with_sem, banner_grab, try_except, close, wait_closed,
    wait_for, read, emit, sleep, lift, raise, mbind, mret, M_bind, M_ret in *;
  cbn [now log fst snd] in *.

Lemma wait_time_le {A} (op : awaitable A) timeout :
  0 < timeout → wait_time op timeout <= timeout.
Proof.
  intros Hpos. unfold wait_time.
  destruct (Qle_bool timeout 0) eqn:H0.
  { apply Qle_bool_iff in H0. lra. }
  destruct op as [after r|]; [|lra].
  destruct (Qle_bool after timeout) eqn:Ha; [|lra].
  by apply Qle_bool_iff in Ha.
Qed.

Lemma pymin_le_l a b : pymin a b <= a.
Proof.
  unfold pymin. destruct (Qle_bool a b) eqn:H; [lra|].
  destruct (Qlt_le_dec b a) as [?|Hle]; [lra|].
  apply Qle_bool_iff in Hle. congruence.
Qed.

Lemma pymin_le_r a b : pymin a b <= b.
Proof.
  unfold pymin. destruct (Qle_bool a b) eqn:H; [|lra].
  by apply Qle_bool_iff in H.
Qed.

Lemma banner_grab_run reader timeout w :
  ∃ t, banner_grab reader timeout w =
         (Return (banner_of reader timeout),
          World t (log w ++ [(now w, Read BANNER_READ_BYTES timeout)]))
       ∧ t == now w + wait_time (incoming reader) timeout.
Proof.
  unfold banner_of, wait_time. unfold_M.
  destruct (Qle_bool timeout 0); cbn.
  { eexists. split; [reflexivity|]. cbn. lra. }
  destruct (incoming reader) as [after [data|e]|]; cbn.
  - destruct (Qle_bool after timeout); cbn;
      (eexists; split; [reflexivity|]; cbn; lra).
  - destruct (Qle_bool after timeout); cbn;
      (eexists; split; [reflexivity|]; cbn; lra).
  - eexists; split; [reflexivity|]; cbn; lra.
Qed.

Lemma scan_port_not_connected open_connection host port timeout do_banner w :
  connected (open_connection host port) timeout = None →
  ∃ t, scan_port open_connection host port timeout do_banner w =
         (Return (closed_port port),
          World t (log w ++ [(now w, Acquire); (now w, Connect host port timeout);
                             (t, Release)])).
Proof.
  unfold connected, closed_port. unfold_M.
  destruct (Qle_bool timeout 0); cbn.
  { intros _. eexists. rewrite <- !app_assoc. reflexivity. }
  destruct (open_connection host port) as [after [[reader writer]|e]|]; cbn.
  - destruct (Qle_bool after timeout); [done|]. intros _. cbn.
    eexists. rewrite <- !app_assoc. reflexivity.
  - intros _.
    destruct (Qle_bool after timeout); cbn;
      destruct (is_TimeoutError e || is_ConnectionRefusedError e || is_OSError e);
      cbn; eexists; rewrite <- !app_assoc; reflexivity.
  - intros _. eexists. rewrite <- !app_assoc. reflexivity.
Qed.

Ltac unfold_probe :=
  unfold scan_port, async_with_sem, try_except, close, wait_closed,
    wait_for, emit, sleep, lift, raise, mbind, mret, M_bind, M_ret in *;
  cbn [now log fst snd] in *.

Lemma scan_port_connected open_connection host port timeout do_banner w
    after reader writer :
  connected (open_connection host port) timeout = Some (after, (reader, writer)) →
  ∃ t1 t2 t3,
    scan_port open_connection host port timeout do_banner w =
      (Return (if closes_quietly writer
               then (port, true,
                     if do_banner then banner_of reader (pymin (1 # 2) timeout) else [])
               else closed_port port),
       World t3
         (log w ++ [(now w, Acquire); (now w, Connect host port timeout)]
            ++ (if do_banner
                then [(t1, Read BANNER_READ_BYTES (pymin (1 # 2) timeout))] else [])
            ++ [(t2, Close)]
            ++ match close_result writer with
               | Return _ => [(t2, WaitClosed)]
               | Raise _ => []
               end
            ++ [(t3, Release)]))
    ∧ t1 == now w + after
    ∧ t2 == t1 + (if do_banner
                  then wait_time (incoming reader) (pymin (1 # 2) timeout) else 0)
    ∧ t3 == t2 + match close_result writer with
                 | Return _ => wait_closed_after writer
                 | Raise _ => 0
                 end.
Proof.
  unfold connected, closed_port, closes_quietly.
  destruct (Qle_bool timeout 0) eqn:Ht; [done|].
  destruct (open_connection host port) as [d [[rd wr]|e]|] eqn:Hconn; [|done|done].
  destruct (Qle_bool d timeout) eqn:Hd; [|done].
  intros [= -> -> ->].
  unfold_probe. rewrite Hconn, Ht, Hd. cbn.
  destruct do_banner.
  - match goal with
    | |- context [banner_grab ?r ?t ?w0] =>
        destruct (banner_grab_run r t w0) as (tb & -> & Htb)
    end.
    cbn in *.
    destruct (close_result writer) as [[]|e]; cbn.
    + destruct (wait_closed_result writer) as [[]|e]; cbn;
        [|destruct (is_AttributeError e); cbn;
          [|destruct (is_TimeoutError e || is_ConnectionRefusedError e || is_OSError e);
            cbn]];
        (exists (now w + after), tb, (tb + wait_closed_after writer);
         split; [rewrite <- !app_assoc; reflexivity|];
         repeat split; lra).
    + destruct (is_TimeoutError e || is_ConnectionRefusedError e || is_OSError e); cbn;
        (exists (now w + after), tb, tb;
         split; [rewrite <- !app_assoc; reflexivity|];
         repeat split; lra).
  - destruct (close_result writer) as [[]|e]; cbn.
    + destruct (wait_closed_result writer) as [[]|e]; cbn;
        [|destruct (is_AttributeError e); cbn;
          [|destruct (is_TimeoutError e || is_ConnectionRefusedError e || is_OSError e);
            cbn]];
        (exists (now w + after), (now w + after), (now w + after + wait_closed_after writer);
         split; [rewrite <- !app_assoc; reflexivity|];
         repeat split; lra).
    + destruct (is_TimeoutError e || is_ConnectionRefusedError e || is_OSError e); cbn;
        (exists (now w + after), (now w + after), (now w + after);
         split; [rewrite <- !app_assoc; reflexivity|];
         repeat split; lra).
Qed.

Lemma scan_port_result open_connection host port timeout do_banner w :
  (scan_port open_connection host port timeout do_banner w).1 =
    Return match connected (open_connection host port) timeout with
           | Some (_, (reader, writer)) =>
               if closes_quietly writer
               then (port, true,
                     if do_banner then banner_of reader (pymin (1 # 2) timeout) else [])
               else closed_port port
           | None => closed_port port
           end.
Proof.
  destruct (connected (open_connection host port) timeout)
    as [[after [reader writer]]|] eqn:Hc.
  - destruct (scan_port_connected _ _ _ _ do_banner w _ _ _ Hc)
      as (t1 & t2 & t3 & -> & _). done.
  - destruct (scan_port_not_connected _ _ _ _ do_banner w Hc) as (t & ->). done.
Qed.

(** *** Decoding and trimming *)

Lemma utf8_replace_ascii data :
  Forall (λ b, (b < 128)%N) data → Codec.utf8_replace data = data.
Proof.
  induction 1 as [|b data Hb _ IH]; [done|].
  cbn [Codec.utf8_replace]. apply N.ltb_lt in Hb. rewrite Hb. by rewrite IH.
Qed.

Lemma lstrip_head s c : head (Codec.lstrip s) = Some c → PyStr.isspace_code c = false.
Proof.
  induction s as [|c' s IH]; simpl; [done|].
  destruct (PyStr.isspace_code c') eqn:Hc'; [done|]. by intros [= <-].
Qed.

Lemma rstrip_head s c : head (Codec.rstrip s) = Some c → head s = Some c.
Proof.
  destruct s as [|c' s]; simpl; [done|].
  destruct (Codec.rstrip s); [|done].
  by destruct (PyStr.isspace_code c').
Qed.

Lemma rstrip_last s c : last (Codec.rstrip s) = Some c → PyStr.isspace_code c = false.
Proof.
  induction s as [|c' s IH]; simpl; [done|].
  destruct (Codec.rstrip s) as [|c'' r] eqn:Hr.
  - destruct (PyStr.isspace_code c') eqn:Hc'; [done|]. by intros [= <-].
  - rewrite last_cons. destruct (last (c'' :: r)) eqn:Hl.
    + intros [= ->]. by apply IH.
    + by apply last_None in Hl.
Qed.

Lemma strip_trimmed s :
  (∀ c, head (Codec.strip s) = Some c → PyStr.isspace_code c = false)
  ∧ (∀ c, last (Codec.strip s) = Some c → PyStr.isspace_code c = false).
Proof.
  split; intros c Hc.
  - unfold Codec.strip in Hc. by apply rstrip_head, lstrip_head in Hc.
  - by apply rstrip_last in Hc.
Qed.

Lemma lstrip_split s :
  ∃ pre, s = pre ++ Codec.lstrip s ∧ Forall (λ c, PyStr.isspace_code c = true) pre.
Proof.
  induction s as [|c s (pre & Hs & Hpre)]; [by exists []|]. simpl.
  destruct (PyStr.isspace_code c) eqn:Hc; [|by exists []].
  exists (c :: pre). split; [by rewrite Hs at 1|by constructor].
Qed.

Lemma rstrip_split s :
  ∃ suf, s = Codec.rstrip s ++ suf ∧ Forall (λ c, PyStr.isspace_code c = true) suf.
Proof.
  induction s as [|c s (suf & Hs & Hsuf)]; [by exists []|]. simpl.
  destruct (Codec.rstrip s) as [|c' r] eqn:Hr.
  - destruct (PyStr.isspace_code c) eqn:Hc.
    + exists (c :: suf). split; [by rewrite Hs at 1|by constructor].
    + exists suf. split; [by rewrite Hs at 1|done].
  - exists suf. split; [by rewrite Hs at 1|done].
Qed.

(** [strip] removes whitespace from the two ends and nothing else. *)
Lemma strip_split s :
  ∃ pre suf, s = pre ++ Codec.strip s ++ suf
             ∧ Forall (λ c, PyStr.isspace_code c = true) pre
             ∧ Forall (λ c, PyStr.isspace_code c = true) suf.
Proof.
  destruct (lstrip_split s) as (pre & Hs & Hpre).
  destruct (rstrip_split (Codec.lstrip s)) as (suf & Hl & Hsuf).
  exists pre, suf. unfold Codec.strip. by rewrite <- Hl.
Qed.

Lemma pymin_Qmin a b : pymin a b == Qmin a b.
Proof.
  unfold pymin. destruct (Qle_bool a b) eqn:H.
  - apply Qle_bool_iff in H. by rewrite Q.min_l.
  - destruct (Qlt_le_dec b a) as [Hlt|Hle].
    + rewrite Q.min_r; [reflexivity|lra].
    + apply Qle_bool_iff in Hle. congruence.
Qed.

Lemma pymin_pos a b : 0 < a → 0 < b → 0 < pymin a b.
Proof. unfold pymin. by destruct (Qle_bool a b). Qed.

Lemma connected_timeout_pos {conn timeout c} :
  connected conn timeout = Some c → 0 < timeout.
Proof.
  unfold connected. destruct (Qle_bool timeout 0) eqn:H; [done|]. intros _.
  destruct (Qlt_le_dec 0 timeout) as [?|Hle]; [done|].
  apply Qle_bool_iff in Hle. congruence.
Qed.

Lemma banner_of_cases reader timeout :
  (∀ after data,
     incoming reader = Completes after (Return data) → 0 < timeout → after <= timeout →
     banner_of reader timeout
     = Codec.strip (Codec.decode (take BANNER_READ_BYTES data)))
  ∧ (incoming reader = Never → banner_of reader timeout = [])
  ∧ (∀ after e, incoming reader = Completes after (Raise e) →
                banner_of reader timeout = [])
  ∧ (∀ after r, incoming reader = Completes after r → timeout < after →
                banner_of reader timeout = []).
Proof.
  unfold banner_of. repeat split.
  - intros after data -> Hpos Hle.
    destruct (Qle_bool timeout 0) eqn:H0.
    { apply Qle_bool_iff in H0. lra. }
    apply Qle_bool_iff in Hle. by rewrite Hle.
  - intros ->. by destruct (Qle_bool timeout 0).
  - intros after e ->. by destruct (Qle_bool timeout 0).
  - intros after r -> Hlt. destruct (Qle_bool timeout 0); [done|].
    destruct r; [|done].
    destruct (Qle_bool after timeout) eqn:Hle; [|done].
    apply Qle_bool_iff in Hle. lra.
Qed.

End ProbeFacts.


(** C3.  The probe never raises: whatever the network does, [scan_port]
    returns an outcome for its port.  When the connection attempt never
    completes, completes after the timeout, or ends in any exception
    (refusal, another [OSError], or anything else), the outcome is
    [(port, False, "")]. *)
Theorem scan_port_never_raises open_connection host port timeout do_banner w :
  let result := (Probe.scan_port open_connection host port timeout do_banner w).1 in
  (∃ is_open banner, result = Return (port, is_open, banner))
  ∧ (open_connection host port = Probe.Never → result = Return (port, false, []))
  ∧ (∀ after r,
       open_connection host port = Probe.Completes after r →
       Qle_bool after timeout = false → result = Return (port, false, []))
  ∧ (∀ after e,
       open_connection host port = Probe.Completes after (Raise e) →
       result = Return (port, false, [])).
Proof.
  cbv zeta. rewrite ProbeFacts.scan_port_result.
  unfold ProbeSpec.connected, ProbeSpec.closed_port.
  split; [|split; [|split]].
  - destruct (Qle_bool timeout 0); [by eauto|].
    destruct (open_connection host port) as [after [[reader writer]|e]|]; [|by eauto..].
    destruct (Qle_bool after timeout); [|by eauto].
    destruct (ProbeSpec.closes_quietly writer); eauto.
  - intros ->. by destruct (Qle_bool timeout 0).
  - intros after r -> ->. destruct (Qle_bool timeout 0); [done|]. by destruct r.
  - intros after e ->. by destruct (Qle_bool timeout 0).
Qed.

Lemma scan_port_never_raises_witness :
  (Probe.scan_port (λ _ _, Probe.Completes 0 (Raise RuntimeError)) "10.0.0.1" 22 1 true
     Probe.start).1 = Return (22, false, []).
Proof.
  apply (proj2 (proj2 (proj2
    (scan_port_never_raises (λ _ _, Probe.Completes 0 (Raise RuntimeError))
       "10.0.0.1" 22 1 true Probe.start))) 0%Q RuntimeError).
  reflexivity.
Defined.

(** C4, where the code departs from it.  The connection attempt has
    completed within the timeout and [writer.close()] has returned; when
    [wait_closed] then raises anything but [AttributeError], the exception
    reaches the outer handlers and the probe reports the port as not open,
    without a banner. *)
Theorem scan_port_close_error open_connection host port timeout do_banner w
    after reader writer e :
  ProbeSpec.connected (open_connection host port) timeout = Some (after, (reader, writer)) →
  Probe.close_result writer = Return () →
  Probe.wait_closed_result writer = Raise e →
  is_AttributeError e = false →
  (Probe.scan_port open_connection host port timeout do_banner w).1
  = Return (port, false, []).
Proof.
  intros Hc Hclose Hwait He. rewrite ProbeFacts.scan_port_result, Hc.
  unfold ProbeSpec.closes_quietly. by rewrite Hclose, Hwait, He.
Qed.

Lemma scan_port_close_error_witness :
  (Probe.scan_port (λ _ _, Probe.Completes (1 # 100) (Return ProbeSpec.reset_on_close))
     "10.0.0.1" 80 1 false Probe.start).1
  = Return (80, false, []).
Proof.
  apply (scan_port_close_error (λ _ _, Probe.Completes (1 # 100) (Return ProbeSpec.reset_on_close))
           "10.0.0.1" 80 1 false Probe.start (1 # 100)
           (Probe.Build_StreamReader Probe.Never)
           (Probe.Build_StreamWriter (Return ()) 0 (Raise ConnectionResetError))
           ConnectionResetError); reflexivity.
Defined.

(** C5, where the code departs from it.  The banner read asks for at
    most 1024 bytes under the timeout [min(0.5, timeout)]; it never raises,
    and takes no longer than its timeout.  What came in within the timeout
    is decoded, undecodable bytes replaced, and trimmed: whitespace is
    removed from the two ends and nothing else; a read that fails, or does
    not complete in time, gives the empty banner.  When [wait_closed]
    raises nothing a connected probe reports [(port, True, banner)], the
    connection being closed no later than [min(0.5, timeout)] after the
    read began.  But when the banner read raises, [wait_closed] raises the
    same exception, as asyncio has it; this one is not caught by
    [banner_grab], and the probe reports [(port, False, "")]: the failure of
    the banner read has changed [is_open]. *)
Theorem banner_read_failure_closes_port :
  Probe.BANNER_READ_BYTES = 1024%nat
  ∧ (∀ timeout, (Probe.pymin (1 # 2) timeout == Qmin (1 # 2) timeout)%Q)
  ∧ (∀ reader timeout w, ∃ t,
       Probe.banner_grab reader timeout w
       = (Return (ProbeSpec.banner_of reader timeout),
          Probe.World t (Probe.log w ++ [(Probe.now w, Probe.Read 1024 timeout)]))
       ∧ ((0 < timeout)%Q → (t <= Probe.now w + timeout)%Q))
  ∧ (∀ reader timeout,
       (∀ after data,
          Probe.incoming reader = Probe.Completes after (Return data) →
          (0 < timeout)%Q → (after <= timeout)%Q →
          ProbeSpec.banner_of reader timeout
          = Codec.strip (Codec.decode (take 1024 data))
          ∧ (length (take 1024 data) ≤ 1024)%nat)
       ∧ (Probe.incoming reader = Probe.Never → ProbeSpec.banner_of reader timeout = [])
       ∧ (∀ after e, Probe.incoming reader = Probe.Completes after (Raise e) →
                     ProbeSpec.banner_of reader timeout = [])
       ∧ (∀ after r, Probe.incoming reader = Probe.Completes after r →
                     (timeout < after)%Q → ProbeSpec.banner_of reader timeout = []))
  ∧ (∀ data, Forall (λ b, (Byte.to_N b < 128)%N) data →
             Codec.decode data = Byte.to_N <$> data)
  ∧ Codec.decode [Byte.xff; Byte.x41] = [65533%N; 65%N]
  ∧ (∀ s, ∃ pre suf,
       s = pre ++ Codec.strip s ++ suf
       ∧ Forall (λ c, PyStr.isspace_code c = true) pre
       ∧ Forall (λ c, PyStr.isspace_code c = true) suf
       ∧ ∀ c, head (Codec.strip s) = Some c ∨ last (Codec.strip s) = Some c →
              PyStr.isspace_code c = false)
  ∧ (∀ open_connection host port timeout w after reader writer,
       ProbeSpec.connected (open_connection host port) timeout
       = Some (after, (reader, writer)) →
       ProbeSpec.closes_quietly writer = true →
       ∃ t1 t2 t3,
         Probe.scan_port open_connection host port timeout true w
         = (Return (port, true,
                    ProbeSpec.banner_of reader (Probe.pymin (1 # 2) timeout)),
            Probe.World t3
              (Probe.log w
                 ++ [(Probe.now w, Probe.Acquire);
                     (Probe.now w, Probe.Connect host port timeout);
                     (t1, Probe.Read 1024 (Probe.pymin (1 # 2) timeout));
                     (t2, Probe.Close); (t2, Probe.WaitClosed);
                     (t3, Probe.Release)]))
         ∧ (t2 - t1 <= Probe.pymin (1 # 2) timeout)%Q
         ∧ (Probe.pymin (1 # 2) timeout <= 1 # 2)%Q
         ∧ (Probe.pymin (1 # 2) timeout <= timeout)%Q)
  ∧ (∀ open_connection host port timeout w after reader writer e,
       ProbeSpec.connected (open_connection host port) timeout
       = Some (after, (reader, writer)) →
       ProbeSpec.read_failure reader (Probe.pymin (1 # 2) timeout) = Some e →
       Probe.close_result writer = Return () →
       Probe.wait_closed_result writer = Raise e →
       is_AttributeError e = false →
       ProbeSpec.banner_of reader (Probe.pymin (1 # 2) timeout) = []
       ∧ ∃ t1 t2 t3,
           Probe.scan_port open_connection host port timeout true w
           = (Return (port, false, []),
              Probe.World t3
                (Probe.log w
                   ++ [(Probe.now w, Probe.Acquire);
                       (Probe.now w, Probe.Connect host port timeout);
                       (t1, Probe.Read 1024 (Probe.pymin (1 # 2) timeout));
                       (t2, Probe.Close); (t2, Probe.WaitClosed);
                       (t3, Probe.Release)]))).
Proof.
  split; [done|]. split; [intros; apply ProbeFacts.pymin_Qmin|].
  split.
  { intros reader timeout w.
    destruct (ProbeFacts.banner_grab_run reader timeout w) as (t & Hrun & Ht).
    exists t. split; [exact Hrun|]. intros Hpos.
    pose proof (ProbeFacts.wait_time_le (Probe.incoming reader) timeout Hpos). lra. }
  split.
  { intros reader timeout.
    destruct (ProbeFacts.banner_of_cases reader timeout) as (H1 & H2 & H3 & H4).
    split; [|by auto].
    intros after data Hin Hpos Hle. split; [by eapply H1|].
    rewrite length_take. lia. }
  split.
  { intros data Hascii. unfold Codec.decode.
    apply ProbeFacts.utf8_replace_ascii. by apply Forall_fmap. }
  split; [by vm_compute|].
  split.
  { intros s. destruct (ProbeFacts.strip_split s) as (pre & suf & Hs & Hpre & Hsuf).
    exists pre, suf. split; [done|]. split; [done|]. split; [done|].
    intros c. destruct (ProbeFacts.strip_trimmed s) as [Hh Hl].
    intros [H|H]; auto. }
  split.
  { intros open_connection host port timeout w after reader writer Hc Hq.
    destruct (ProbeFacts.scan_port_connected _ _ _ _ true w _ _ _ Hc)
      as (t1 & t2 & t3 & Hrun & Ht1 & Ht2 & Ht3).
    rewrite Hq in Hrun. unfold ProbeSpec.closes_quietly in Hq.
    destruct (Probe.close_result writer); [|done].
    exists t1, t2, t3. split; [exact Hrun|].
    pose proof (ProbeFacts.connected_timeout_pos Hc) as Hpos.
    assert (0 < Probe.pymin (1 # 2) timeout)%Q as Hmin
      by (apply ProbeFacts.pymin_pos; [reflexivity|done]).
    pose proof (ProbeFacts.wait_time_le (Probe.incoming reader) _ Hmin).
    pose proof (ProbeFacts.pymin_le_l (1 # 2) timeout).
    pose proof (ProbeFacts.pymin_le_r (1 # 2) timeout).
    repeat split; lra. }
  intros open_connection host port timeout w after reader writer e Hc Hread Hclose Hwait He.
  split.
  { unfold ProbeSpec.read_failure in Hread. unfold ProbeSpec.banner_of.
    destruct (Qle_bool (Probe.pymin (1 # 2) timeout) 0); [done|].
    by destruct (Probe.incoming reader) as [? [?|?]|]. }
  destruct (ProbeFacts.scan_port_connected _ _ _ _ true w _ _ _ Hc)
    as (t1 & t2 & t3 & Hrun & _).
  unfold ProbeSpec.closes_quietly, ProbeSpec.closed_port in Hrun.
  rewrite Hclose, Hwait, He in Hrun. by exists t1, t2, t3.
Qed.

Lemma banner_read_failure_closes_port_witness :
  ProbeSpec.banner_of (ProbeSpec.reset_while_reading).1 (Probe.pymin (1 # 2) 1) = []
  ∧ ∃ t1 t2 t3,
      Probe.scan_port
        (λ _ _, Probe.Completes (1 # 100) (Return ProbeSpec.reset_while_reading))
        "10.0.0.1" 80 1 true Probe.start
      = (Return (80, false, []),
         Probe.World t3
           (Probe.log Probe.start
              ++ [(Probe.now Probe.start, Probe.Acquire);
                  (Probe.now Probe.start, Probe.Connect "10.0.0.1" 80 1);
                  (t1, Probe.Read 1024 (Probe.pymin (1 # 2) 1));
                  (t2, Probe.Close); (t2, Probe.WaitClosed);
                  (t3, Probe.Release)])).
Proof.
  apply (proj2 (proj2 (proj2 (proj2 (proj2 (proj2 (proj2 (proj2
           banner_read_failure_closes_port))))))))
    with (after := (1 # 100)%Q) (writer := (ProbeSpec.reset_while_reading).2)
         (e := ConnectionResetError); reflexivity.
Defined.

(** ** scan_host *)

Section ListUpdate.
Context {A : Type} (P : A → Prop) `{!∀ x, Decision (P x)}.

Lemma filter_insert_length (l : list A) i x y :
  l !! i = Some x →
  (length (filter P (<[i:=y]> l)) + (if decide (P x) then 1 else 0)
   = length (filter P l) + (if decide (P y) then 1 else 0))%nat.
Proof.
  intros Hi. rewrite insert_take_drop by (by eapply lookup_lt_Some).
  rewrite <- (take_drop_middle l i x Hi) at 3.
  rewrite !filter_app, !filter_cons, !length_app.
  destruct (decide (P x)), (decide (P y)); simpl; lia.
Qed.

Lemma filter_insert_gain (l : list A) i x y :
  l !! i = Some x → ¬ P x → P y → filter P (<[i:=y]> l) ≡ₚ y :: filter P l.
Proof.
  intros Hi Hx Hy. rewrite insert_take_drop by (by eapply lookup_lt_Some).
  rewrite <- (take_drop_middle l i x Hi) at 3.
  rewrite !filter_app, !filter_cons.
  destruct (decide (P x)); [done|]. destruct (decide (P y)); [|done].
  by rewrite Permutation_middle.
Qed.

Lemma filter_insert_same (l : list A) i x y :
  l !! i = Some x → ¬ P x → ¬ P y → filter P (<[i:=y]> l) = filter P l.
Proof.
  intros Hi Hx Hy. rewrite insert_take_drop by (by eapply lookup_lt_Some).
  rewrite <- (take_drop_middle l i x Hi) at 3.
  rewrite !filter_app, !filter_cons.
  destruct (decide (P x)); [done|]. by destruct (decide (P y)).
Qed.
End ListUpdate.

Lemma sum_list_with_insert {A} (f : A → nat) (l : list A) i x y :
  l !! i = Some x →
  (sum_list_with f (<[i:=y]> l) + f x = sum_list_with f l + f y)%nat.
Proof.
  intros Hi. rewrite insert_take_drop by (by eapply lookup_lt_Some).
  rewrite <- (take_drop_middle l i x Hi) at 3.
  rewrite !sum_list_with_app. simpl. lia.
Qed.

Module SchedulerFacts.

Import Probe Scheduler SchedulerSpec.

(** The script a probe follows, whatever the network does. *)
Lemma scan_port_script open_connection host port timeout do_banner :
  ∃ body o,
    scan_port open_connection host port timeout do_banner start
    = (Return o, (scan_port open_connection host port timeout do_banner start).2)
    ∧ out_port o = port
    ∧ snd <$> log (scan_port open_connection host port timeout do_banner start).2
      = Acquire :: body ++ [Release]
    ∧ forallb probe_event body = true
    ∧ head body = Some (Connect host port timeout).
Proof.
  destruct (ProbeSpec.connected (open_connection host port) timeout)
    as [[after [reader writer]]|] eqn:Hc.
  - destruct (ProbeFacts.scan_port_connected _ _ _ _ do_banner start _ _ _ Hc)
      as (t1 & t2 & t3 & -> & _).
    cbn [snd log start app].
    eexists (Connect host port timeout
               :: (if do_banner
                   then [Read BANNER_READ_BYTES (pymin (1 # 2) timeout)] else [])
               ++ Close :: match close_result writer with
                           | Return _ => [WaitClosed]
                           | Raise _ => []
                           end), _.
    split; [reflexivity|]. split.
    { unfold ProbeSpec.closed_port. by destruct (ProbeSpec.closes_quietly writer). }
    by destruct do_banner, (close_result writer).
  - destruct (ProbeFacts.scan_port_not_connected _ _ _ _ do_banner start Hc) as (t & ->).
    cbn [snd log start app].
    by exists [Connect host port timeout], (ProbeSpec.closed_port port).
Qed.

Lemma spawn_phase net host timeout do_banner i p :
  phase (spawn net host timeout do_banner i p)
  ∧ returns (spawn net host timeout do_banner i p)
    = Return (outcome_of net host timeout do_banner i p)
  ∧ out_port (outcome_of net host timeout do_banner i p) = p.
Proof.
  unfold outcome_of, spawn.
  destruct (scan_port_script (λ h q, net h q i) host p timeout do_banner)
    as (body & o & Hrun & Hport & Hlog & Hbody & _).
  rewrite Hrun. cbn [returns]. split; [|done].
  by apply (Waiting _ body).
Qed.

Lemma script_shape net host timeout do_banner i p :
  ∃ body,
    script net host timeout do_banner i p = Acquire :: body ++ [Release]
    ∧ forallb probe_event body = true
    ∧ head body = Some (Connect host p timeout).
Proof.
  destruct (scan_port_script (λ h q, net h q i) host p timeout do_banner)
    as (body & o & _ & _ & Hlog & Hbody & Hhead).
  by exists body.
Qed.

Lemma script_connected net host timeout do_banner i p after reader writer :
  ProbeSpec.connected (net host p i) timeout = Some (after, (reader, writer)) →
  script net host timeout do_banner i p
  = Acquire :: Connect host p timeout
      :: (if do_banner then [Read BANNER_READ_BYTES (pymin (1 # 2) timeout)] else [])
      ++ Close :: match close_result writer with
                  | Return _ => [WaitClosed]
                  | Raise _ => []
                  end
      ++ [Release].
Proof.
  intros Hc. unfold script.
  destruct (ProbeFacts.scan_port_connected (λ h q, net h q i) host p timeout
              do_banner start _ _ _ Hc) as (t1 & t2 & t3 & -> & _).
  cbn [snd log start app]. by destruct do_banner, (close_result writer).
Qed.

Lemma script_not_connected net host timeout do_banner i p :
  ProbeSpec.connected (net host p i) timeout = None →
  script net host timeout do_banner i p = [Acquire; Connect host p timeout; Release].
Proof.
  intros Hc. unfold script.
  by destruct (ProbeFacts.scan_port_not_connected (λ h q, net h q i) host p timeout
                 do_banner start Hc) as (t & ->).
Qed.

Lemma probe_events_plain l :
  forallb probe_event l = true →
  existsb is_acquire l = false ∧ existsb is_release l = false.
Proof.
  induction l as [|e l IH]; simpl; [done|].
  intros [He Hl]%andb_prop. destruct (IH Hl) as [-> ->].
  unfold probe_event in He. apply andb_prop in He as [Ha Hr].
  apply negb_true_iff in Ha, Hr. by rewrite Ha, Hr.
Qed.

Lemma holding_waiting t : done t = [] → holding t = false.
Proof. unfold holding. by intros ->. Qed.

Lemma holding_running t pre :
  done t = Acquire :: pre → forallb probe_event pre = true → holding t = true.
Proof.
  unfold holding. intros -> Hpre. simpl.
  by destruct (probe_events_plain _ Hpre) as [_ ->].
Qed.

Lemma holding_over t body : done t = Acquire :: body ++ [Release] → holding t = false.
Proof.
  unfold holding. intros ->. simpl. rewrite existsb_app. simpl.
  by rewrite orb_true_r.
Qed.

Lemma filter_none {A} (P : A → Prop) `{!∀ x, Decision (P x)} (l : list A) :
  Forall (λ x, ¬ P x) l → filter P l = [].
Proof.
  induction 1 as [|x l Hx _ IH]; [done|].
  rewrite filter_cons. by destruct (decide (P x)).
Qed.

Lemma fmap_insert_same {B} (f : task → B) (l : list task) i t t' :
  l !! i = Some t → f t' = f t → f <$> <[i:=t']> l = f <$> l.
Proof.
  intros Hi Hr. rewrite list_fmap_insert, Hr.
  apply list_insert_id. by rewrite list_lookup_fmap, Hi.
Qed.

Lemma init_inv net host ports timeout cap do_banner :
  inv cap (expected net host ports timeout do_banner)
    (imap (script net host timeout do_banner) ports)
    (init net host ports timeout cap do_banner).
Proof.
  assert (Forall (λ t, phase t ∧ done t = [] ∧ idle t = false)
            (imap (spawn net host timeout do_banner) ports)) as Hall.
  { apply Forall_lookup. intros i t. rewrite list_lookup_imap.
    destruct (ports !! i) as [p|]; [|done]. intros [= <-].
    destruct (spawn_phase net host timeout do_banner i p) as [Hph _].
    split; [done|]. unfold spawn.
    destruct (scan_port_script (λ h q, net h q i) host p timeout do_banner)
      as (body & o & Hrun & _ & Hlog & _).
    rewrite Hrun. cbn [done todo idle]. by rewrite Hlog. }
  split; cbn [tasks sem_value completed results failure init].
  - eapply Forall_impl; [exact Hall|]. by intros t [? _].
  - unfold expected. rewrite !fmap_imap. apply imap_ext. intros i p _. simpl.
    by destruct (spawn_phase net host timeout do_banner i p) as (_ & -> & _).
  - rewrite fmap_imap. apply imap_ext. intros i p _. unfold script, spawn. simpl.
    by destruct (scan_port _ _ _ _ _ _) as [r w].
  - unfold in_flight. cbn [tasks]. rewrite filter_none; [simpl; lia|].
    eapply Forall_impl; [exact Hall|]. intros t (_ & Hd & _).
    by rewrite (holding_waiting t Hd).
  - done.
  - rewrite filter_none; [done|].
    eapply Forall_impl; [exact Hall|]. intros t (_ & _ & Hi). by rewrite Hi.
Qed.

Lemma completed_returns cap expect scripts s r :
  inv cap expect scripts s → r ∈ completed s → ∃ o, r = Return o.
Proof.
  intros Hinv Hr.
  assert (r ∈ returns <$> filter (λ t, idle t = true) (tasks s)) as Hin.
  { rewrite <- (inv_results _ _ _ _ Hinv). apply elem_of_app. by right. }
  apply list_elem_of_fmap in Hin as (t & -> & Ht).
  apply list_elem_of_filter in Ht as [_ Ht].
  assert (returns t ∈ returns <$> tasks s) as Hin by by apply list_elem_of_fmap_2.
  rewrite (inv_returns _ _ _ _ Hinv) in Hin.
  apply list_elem_of_fmap in Hin as (o & -> & _). eauto.
Qed.

Lemma step_inv host cap expect scripts c s s' :
  inv cap expect scripts s → step host c s = Some s' → inv cap expect scripts s'.
Proof.
  intros Hinv Hstep. pose proof Hinv as [Hph Hret Hev Hsem Hfail Hres].
  unfold step in Hstep. rewrite Hfail in Hstep. destruct c as [i|].
  - destruct (tasks s !! i) as [t|] eqn:Hi; [|done]. simpl in Hstep.
    destruct (todo t) as [|e rest] eqn:Htodo; [done|].
    pose proof (Forall_lookup_1 _ _ _ _ Hph Hi) as Ht.
    destruct Ht as [body Hd Ht Hb|pre post Hd Ht Hpre Hpost|body Hd Ht Hb].
    + (* the task acquires *)
      rewrite Htodo in Ht. injection Ht as -> ->.
      destruct (0 <? sem_value s) eqn:Hpos; [|done]. simpl in Hstep.
      injection Hstep as <-. rewrite Hd.
      set (t' := Task ([] ++ [Acquire]) (body ++ [Release]) (returns t)).
      assert (holding t = false) as Hh by by apply holding_waiting.
      assert (holding t' = true) as Hh' by by apply (holding_running t' []).
      assert (idle t = false) as Hidle by (unfold idle; by rewrite Htodo).
      assert (idle t' = false) as Hidle' by (by destruct body).
      split; cbn [tasks sem_value completed results failure].
      * apply Forall_insert; [done|]. by apply (Running t' [] body).
      * by erewrite fmap_insert_same.
      * erewrite fmap_insert_same; [done..|].
        unfold events. cbn. by rewrite Hd, Htodo.
      * unfold in_flight in *. cbn [tasks].
        pose proof (filter_insert_length (λ t, holding t = true) (tasks s) i t t' Hi) as Hlen.
        cbv beta in Hlen. rewrite Hh, Hh' in Hlen.
        destruct (decide (false = true)); [done|].
        destruct (decide (true = true)); [|done]. lia.
      * done.
      * replace (match body ++ [Release] with [] => completed s ++ [returns t]
                 | _ :: _ => completed s end) with (completed s) by by destruct body.
        rewrite (filter_insert_same (λ t, idle t = true) (tasks s) i t t' Hi); [done|..];
          congruence.
    + destruct post as [|e' post].
      * (* the task releases and completes *)
        rewrite Htodo in Ht. injection Ht as -> ->. simpl in Hstep.
        injection Hstep as <-.
        set (t' := Task (done t ++ [Release]) [] (returns t)).
        assert (holding t = true) as Hh by by apply (holding_running t pre).
        assert (holding t' = false) as Hh'.
        { apply (holding_over t' pre). unfold t'. by rewrite Hd. }
        assert (idle t = false) as Hidle by (unfold idle; by rewrite Htodo).
        split; cbn [tasks sem_value completed results failure].
        -- apply Forall_insert; [done|]. apply (Over t' pre); [|done..].
           unfold t'. by rewrite Hd.
        -- by erewrite fmap_insert_same.
        -- erewrite fmap_insert_same; [done..|].
           unfold events. cbn. by rewrite Htodo, app_nil_r.
        -- unfold in_flight in *. cbn [tasks].
           pose proof (filter_insert_length (λ t, holding t = true) (tasks s) i t t' Hi) as Hlen.
           cbv beta in Hlen. rewrite Hh, Hh' in Hlen.
           destruct (decide (false = true)); [done|].
           destruct (decide (true = true)); [|done]. lia.
        -- done.
        -- rewrite (filter_insert_gain (λ t, idle t = true) (tasks s) i t t' Hi);
             [|congruence|done].
           rewrite fmap_cons. cbn [returns t'].
           rewrite app_assoc, <- Permutation_cons_append. by f_equiv.
      * (* the task goes through an event of the probe *)
        rewrite Htodo in Ht. injection Ht as -> ->.
        simpl in Hpost. apply andb_prop in Hpost as [He Hpost].
        assert (Some (sem_value s) = match e' with
                                     | Acquire => if 0 <? sem_value s
                                                  then Some (sem_value s - 1) else None
                                     | Release => Some (sem_value s + 1)
                                     | _ => Some (sem_value s)
                                     end) as Hsv by by destruct e'.
        rewrite <- Hsv in Hstep. simpl in Hstep. injection Hstep as <-.
        set (t' := Task (done t ++ [e']) (post ++ [Release]) (returns t)).
        assert (forallb probe_event (pre ++ [e']) = true) as Hpre'.
        { rewrite forallb_app, Hpre. simpl. by rewrite He. }
        assert (holding t = true) as Hh by by apply (holding_running t pre).
        assert (holding t' = true) as Hh'.
        { apply (holding_running t' (pre ++ [e'])); [|done]. unfold t'. by rewrite Hd. }
        assert (idle t = false) as Hidle by (unfold idle; by rewrite Htodo).
        assert (idle t' = false) as Hidle' by (by destruct post).
        split; cbn [tasks sem_value completed results failure].
        -- apply Forall_insert; [done|].
           apply (Running t' (pre ++ [e']) post); [|done..].
           unfold t'. by rewrite Hd.
        -- by erewrite fmap_insert_same.
        -- erewrite fmap_insert_same; [done..|].
           unfold events. cbn. by rewrite Htodo, <- app_assoc.
        -- unfold in_flight in *. cbn [tasks].
           pose proof (filter_insert_length (λ t, holding t = true) (tasks s) i t t' Hi) as Hlen.
           cbv beta in Hlen. rewrite Hh, Hh' in Hlen.
           destruct (decide (true = true)); [|done]. lia.
        -- done.
        -- replace (match post ++ [Release] with [] => completed s ++ [returns t]
                    | _ :: _ => completed s end) with (completed s) by by destruct post.
           rewrite (filter_insert_same (λ t, idle t = true) (tasks s) i t t' Hi); [done|..];
             congruence.
    + congruence.
  - destruct (completed s) as [|r q] eqn:Hq; [done|].
    destruct (completed_returns _ _ _ _ r Hinv) as [[[port is_open] banner] ->].
    { rewrite Hq. by left. }
    injection Hstep as <-.
    split; cbn [tasks sem_value completed results failure]; [done..|].
    rewrite <- Hres, fmap_app, <- app_assoc. done.
Qed.

Lemma run_inv host cap expect scripts sched : ∀ s s',
  inv cap expect scripts s → run host sched s = Some s' → inv cap expect scripts s'.
Proof.
  induction sched as [|c sched IH]; intros s s' Hinv; simpl.
  - by intros [= <-].
  - destruct (step host c s) as [s1|] eqn:Hstep; [|done]. simpl.
    apply IH. by eapply step_inv.
Qed.

Lemma omap_unwrap (l : list outcome) : omap unwrap (Return <$> l) = l.
Proof. induction l as [|o l IH]; [done|]. simpl. by f_equal. Qed.

(** When the scan is over the loop has collected what the probes
    returned, in some order. *)
Lemma finished_results cap expect scripts s :
  inv cap expect scripts s → finished s = true → results s ≡ₚ expect.
Proof.
  intros Hinv [Hidle Hq]%andb_prop.
  pose proof (inv_results _ _ _ _ Hinv) as Hres.
  destruct (completed s); [|done]. rewrite app_nil_r in Hres.
  assert (filter (λ t, idle t = true) (tasks s) = tasks s) as Hall.
  { clear -Hidle. induction (tasks s) as [|t l IH]; [done|].
    simpl in Hidle. apply andb_prop in Hidle as [Ht Hl].
    rewrite filter_cons. destruct (decide (idle t = true)); [|done].
    by rewrite IH. }
  rewrite Hall, (inv_returns _ _ _ _ Hinv) in Hres.
  apply (omap_Permutation unwrap) in Hres. by rewrite !omap_unwrap in Hres.
Qed.

Lemma step_pending host c s s' :
  step host c s = Some s' → (pending s' < pending s)%nat.
Proof.
  unfold step, pending. destruct (failure s); [done|]. destruct c as [i|].
  - destruct (tasks s !! i) as [t|] eqn:Hi; [|done]. simpl.
    destruct (todo t) as [|e rest] eqn:Htodo; [done|].
    destruct (match e with
              | Acquire => if 0 <? sem_value s then Some (sem_value s - 1) else None
              | Release => Some (sem_value s + 1)
              | _ => Some (sem_value s)
              end) as [v|]; [|done].
    simpl. intros [= <-]. cbn [tasks completed].
    pose proof (sum_list_with_insert (λ t, length (todo t)) (tasks s) i t
                  (Task (done t ++ [e]) rest (returns t)) Hi) as Hsum.
    cbn [todo] in Hsum. rewrite Htodo in Hsum. simpl in Hsum.
    destruct rest; [rewrite length_app|]; simpl in *; lia.
  - destruct (completed s) as [|[[[port is_open] banner]|e] q]; [done|..];
      intros [= <-]; cbn [tasks completed]; simpl; lia.
Qed.

Lemma running_can_step host s i t pre post :
  failure s = None → tasks s !! i = Some t →
  done t = Acquire :: pre → todo t = post ++ [Release] →
  forallb probe_event post = true →
  ∃ s', step host (Advance i) s = Some s'.
Proof.
  intros Hfail Hi _ Htodo Hpost. unfold step. rewrite Hfail, Hi. simpl.
  rewrite Htodo. destruct post as [|e post]; simpl; [by eauto|].
  simpl in Hpost. apply andb_prop in Hpost as [He _].
  destruct e; try done; simpl; eauto.
Qed.

Lemma can_step host cap expect scripts s :
  inv cap expect scripts s → 1 ≤ cap → finished s = false →
  ∃ c s', step host c s = Some s'.
Proof.
  intros Hinv Hcap Hfin. pose proof Hinv as [Hph Hret Hev Hsem Hfail Hres].
  destruct (completed s) as [|r q] eqn:Hq.
  - unfold finished in Hfin. rewrite Hq, andb_true_r in Hfin.
    destruct (0 <? sem_value s) eqn:Hpos.
    + (* a slot is free: any task that is not over can go on *)
      assert (∃ i t, tasks s !! i = Some t ∧ idle t = false) as (i & t & Hi & Hidle).
      { clear -Hfin. induction (tasks s) as [|t l IH]; [done|].
        simpl in Hfin. destruct (idle t) eqn:Ht.
        - destruct (IH Hfin) as (i & t' & ? & ?). by exists (S i), t'.
        - by exists O, t. }
      exists (Advance i).
      destruct (Forall_lookup_1 _ _ _ _ Hph Hi)
        as [body Hd Ht Hb|pre post Hd Ht Hpre Hpost|body Hd Ht Hb].
      * unfold step. rewrite Hfail, Hi. simpl. rewrite Ht, Hpos. simpl. eauto.
      * by eapply running_can_step.
      * unfold idle in Hidle. by rewrite Ht in Hidle.
    + (* no slot is free: some task holds one, and can go on *)
      apply Z.ltb_ge in Hpos.
      destruct (filter (λ t, holding t = true) (tasks s)) as [|t l] eqn:Hf.
      { unfold in_flight in Hsem. rewrite Hf in Hsem. simpl in Hsem. lia. }
      assert (t ∈ filter (λ t, holding t = true) (tasks s)) as Ht
          by (rewrite Hf; by left).
      apply list_elem_of_filter in Ht as [Hh Ht].
      apply list_elem_of_lookup in Ht as [i Hi].
      exists (Advance i).
      destruct (Forall_lookup_1 _ _ _ _ Hph Hi)
        as [body Hd Ht Hb|pre post Hd Ht Hpre Hpost|body Hd Ht Hb].
      * by rewrite (holding_waiting t Hd) in Hh.
      * by eapply running_can_step.
      * by rewrite (holding_over t body Hd) in Hh.
  - exists Collect.
    destruct (completed_returns _ _ _ _ r Hinv) as [[[port is_open] banner] ->].
    { rewrite Hq. by left. }
    unfold step. rewrite Hfail, Hq. eauto.
Qed.

Lemma run_app host sched1 sched2 s :
  run host (sched1 ++ sched2) s = s' ← run host sched1 s; run host sched2 s'.
Proof.
  revert s. induction sched1 as [|c sched1 IH]; intros s; simpl; [done|].
  destruct (step host c s); simpl; [apply IH|done].
Qed.

(** With a cap of at least one the scan can always be brought to its
    end. *)
Lemma can_finish host cap expect scripts (n : nat) : ∀ s,
  (pending s < n)%nat → inv cap expect scripts s → 1 ≤ cap →
  ∃ sched s', run host sched s = Some s' ∧ finished s' = true.
Proof.
  induction n as [|n IH]; intros s Hn Hinv Hcap; [lia|].
  destruct (finished s) eqn:Hfin.
  - by exists [], s.
  - destruct (can_step host _ _ _ _ Hinv Hcap Hfin) as (c & s1 & Hstep).
    pose proof (step_pending _ _ _ _ Hstep).
    destruct (IH s1) as (sched & s' & Hrun & Hfin'); [lia|by eapply step_inv|done|].
    exists (c :: sched), s'. simpl. rewrite Hstep. done.
Qed.

Lemma step_sem_nonneg host c s s' :
  0 ≤ sem_value s → step host c s = Some s' → 0 ≤ sem_value s'.
Proof.
  intros Hs. unfold step. destruct (failure s); [done|]. destruct c as [i|].
  - destruct (tasks s !! i) as [t|]; [|done]. simpl.
    destruct (todo t) as [|e rest]; [done|].
    destruct e; simpl; try (intros [= <-]; simpl; lia).
    destruct (Z.ltb_spec 0 (sem_value s)); [|done]. simpl.
    intros [= <-]; simpl; lia.
  - destruct (completed s) as [|[[[port is_open] banner]|e] q]; [done|..];
      by intros [= <-].
Qed.

Lemma run_sem_nonneg host sched : ∀ s s',
  0 ≤ sem_value s → run host sched s = Some s' → 0 ≤ sem_value s'.
Proof.
  induction sched as [|c sched IH]; intros s s' Hs; simpl.
  - by intros [= <-].
  - destruct (step host c s) as [s1|] eqn:Hstep; [|done]. simpl.
    apply IH. by eapply step_sem_nonneg.
Qed.

Lemma expected_ports net host ports timeout do_banner :
  out_port <$> expected net host ports timeout do_banner = ports.
Proof.
  unfold expected. rewrite fmap_imap.
  rewrite (imap_ext _ (const id) ports).
  - by rewrite imap_const, list_fmap_id.
  - intros i p _. simpl.
    by destruct (spawn_phase net host timeout do_banner i p) as (_ & _ & ->).
Qed.

Lemma NoDup_fmap_eq {A B} (f : A → B) (l : list A) x y :
  NoDup (f <$> l) → x ∈ l → y ∈ l → f x = f y → x = y.
Proof.
  induction l as [|z l IH]; simpl; [by intros _ ?%elem_of_nil|].
  intros [Hz Hnd]%NoDup_cons [->|Hx]%elem_of_cons [->|Hy]%elem_of_cons Hxy.
  - done.
  - exfalso. apply Hz. rewrite Hxy. by apply list_elem_of_fmap_2.
  - exfalso. apply Hz. rewrite <- Hxy. by apply list_elem_of_fmap_2.
  - by apply IH.
Qed.

(** The sorted list of a scan whose ports are distinct does not depend on
    the order the outcomes came in. *)
Lemma sorted_by_unique (l1 l2 : list outcome) :
  l1 ≡ₚ l2 → NoDup (out_port <$> l2) →
  sorted_by out_port l1 = sorted_by out_port l2.
Proof.
  intros Hperm Hnd.
  apply (StronglySorted_unique_strong (key_le out_port)).
  - intros x1 x2 Hx1 Hx2 H12 H21. unfold key_le in *.
    rewrite sorted_by_perm in Hx1, Hx2. rewrite Hperm in Hx1.
    apply (NoDup_fmap_eq out_port l2); [done..|lia].
  - apply sorted_by_sorted.
  - apply sorted_by_sorted.
  - by rewrite !sorted_by_perm.
Qed.

End SchedulerFacts.

(** C1.  Whatever the network does and in whatever order the event loop
    lets the probes run and complete, the list [scan_host] returns has the
    length of the port list, holds one outcome per requested port (its
    ports are the requested ports, up to order), namely what the probes
    returned, and is ascending by port; for distinct ports it is one and
    the same list under every schedule.  With a cap that is not negative
    the scan raises nothing, and with a cap of at least one every run of
    the scan can be brought to its end, where it returns. *)
Theorem scan_host_sorted_complete net host ports timeout concurrency do_banner :
  (∀ sched l effects,
     Scheduler.scan_host net host ports timeout concurrency do_banner sched
     = Some (Return l, effects) →
     length l = length ports
     ∧ out_port <$> l ≡ₚ ports
     ∧ l ≡ₚ SchedulerSpec.expected net host ports timeout do_banner
     ∧ StronglySorted (key_le out_port) l
     ∧ (NoDup ports →
        NoDup (out_port <$> l)
        ∧ l = sorted_by out_port (SchedulerSpec.expected net host ports timeout do_banner)))
  ∧ (0 ≤ concurrency →
     ∀ sched r effects,
       Scheduler.scan_host net host ports timeout concurrency do_banner sched
       = Some (r, effects) →
       ∃ l, r = Return l)
  ∧ (1 ≤ concurrency →
     ∀ sched s,
       Scheduler.run host sched
         (Scheduler.init net host ports timeout concurrency do_banner) = Some s →
       ∃ sched' l effects,
         Scheduler.scan_host net host ports timeout concurrency do_banner (sched ++ sched')
         = Some (Return l, effects)).
Proof.
  pose proof (SchedulerFacts.init_inv net host ports timeout concurrency do_banner) as Hinit.
  pose proof (SchedulerFacts.expected_ports net host ports timeout do_banner) as Hports.
  split; [|split].
  - intros sched l effects. unfold Scheduler.scan_host.
    destruct (concurrency <? 0); [done|].
    destruct (Scheduler.run host sched _) as [s|] eqn:Hrun; [|done]. simpl.
    pose proof (SchedulerFacts.run_inv _ _ _ _ _ _ _ Hinit Hrun) as Hinv.
    rewrite (SchedulerSpec.inv_failure _ _ _ _ Hinv).
    destruct (Scheduler.finished s) eqn:Hfin; [|done].
    intros [= <- <-].
    pose proof (SchedulerFacts.finished_results _ _ _ _ Hinv Hfin) as Hres.
    assert (sorted_by out_port (Scheduler.results s)
            ≡ₚ SchedulerSpec.expected net host ports timeout do_banner) as Hperm
      by by rewrite sorted_by_perm.
    split; [rewrite Hperm; apply length_imap|].
    split; [by rewrite Hperm, Hports|]. split; [done|].
    split; [apply sorted_by_sorted|].
    intros Hnd. split; [by rewrite Hperm, Hports|].
    apply SchedulerFacts.sorted_by_unique; [done|by rewrite Hports].
  - intros Hcap sched r effects. unfold Scheduler.scan_host.
    destruct (Z.ltb_spec concurrency 0); [lia|].
    destruct (Scheduler.run host sched _) as [s|] eqn:Hrun; [|done]. simpl.
    pose proof (SchedulerFacts.run_inv _ _ _ _ _ _ _ Hinit Hrun) as Hinv.
    rewrite (SchedulerSpec.inv_failure _ _ _ _ Hinv).
    destruct (Scheduler.finished s); [|done]. intros [= <- _]. eauto.
  - intros Hcap sched s Hrun.
    pose proof (SchedulerFacts.run_inv _ _ _ _ _ _ _ Hinit Hrun) as Hinv.
    destruct (SchedulerFacts.can_finish host _ _ _ (S (SchedulerSpec.pending s)) s
                (Nat.lt_succ_diag_r _) Hinv Hcap)
      as (sched' & s' & Hrun' & Hfin).
    exists sched'. unfold Scheduler.scan_host.
    destruct (Z.ltb_spec concurrency 0); [lia|].
    rewrite SchedulerFacts.run_app, Hrun. simpl. rewrite Hrun'. simpl.
    pose proof (SchedulerFacts.run_inv _ _ _ _ _ _ _ Hinv Hrun') as Hinv'.
    rewrite (SchedulerSpec.inv_failure _ _ _ _ Hinv'), Hfin. eauto.
Qed.

Lemma scan_host_sorted_complete_witness :
  let l : host_result := [(22, true, [83; 83; 72]%N); (443, false, [])] in
  length l = length [443; 22]
  ∧ out_port <$> l ≡ₚ [443; 22]
  ∧ l ≡ₚ SchedulerSpec.expected ProbeSpec.one_open_port "10.0.0.1" [443; 22] 1 true
  ∧ StronglySorted (key_le out_port) l
  ∧ (NoDup [443; 22] →
     NoDup (out_port <$> l)
     ∧ l = sorted_by out_port
             (SchedulerSpec.expected ProbeSpec.one_open_port "10.0.0.1" [443; 22] 1 true)).
Proof.
  eapply (proj1 (scan_host_sorted_complete ProbeSpec.one_open_port "10.0.0.1"
                   [443; 22] 1 1 true)
            (Scheduler.Advance 1 :: repeat (Scheduler.Advance 1) 5
               ++ Scheduler.Collect :: repeat (Scheduler.Advance 0) 3
               ++ [Scheduler.Collect])).
  vm_compute. reflexivity.
Defined.

(** C2.  In every state a host scan with cap [concurrency] can reach, the
    tasks past their [Acquire] and before their [Release] are at most
    [concurrency], the free slots making up the difference.  Every task
    follows the script of its probe, which begins with [Acquire], goes on
    with the connection attempt and ends with [Release]; for a probe that
    connects, the banner read, the close and the wait for the close all
    stand before [Release].  A task has done nothing before it acquires,
    and has nothing left to do once it has released. *)
Theorem semaphore_bounds_probes net host ports timeout concurrency do_banner sched s :
  0 ≤ concurrency →
  Scheduler.run host sched (Scheduler.init net host ports timeout concurrency do_banner)
  = Some s →
  Z.of_nat (Scheduler.in_flight s) ≤ concurrency
  ∧ Scheduler.sem_value s = concurrency - Z.of_nat (Scheduler.in_flight s)
  ∧ (∀ i t, Scheduler.tasks s !! i = Some t →
       ∃ p, ports !! i = Some p
            ∧ SchedulerSpec.events t = SchedulerSpec.script net host timeout do_banner i p
            ∧ SchedulerSpec.phase t)
  ∧ (∀ i p, ports !! i = Some p →
       ∃ body,
         SchedulerSpec.script net host timeout do_banner i p
         = Probe.Acquire :: body ++ [Probe.Release]
         ∧ forallb SchedulerSpec.probe_event body = true
         ∧ head body = Some (Probe.Connect host p timeout))
  ∧ (∀ i p after reader writer,
       ProbeSpec.connected (net host p i) timeout = Some (after, (reader, writer)) →
       SchedulerSpec.script net host timeout do_banner i p
       = Probe.Acquire :: Probe.Connect host p timeout
           :: (if do_banner
               then [Probe.Read 1024 (Probe.pymin (1 # 2) timeout)] else [])
           ++ Probe.Close :: match Probe.close_result writer with
                             | Return _ => [Probe.WaitClosed]
                             | Raise _ => []
                             end
           ++ [Probe.Release]).
Proof.
  intros Hcap Hrun.
  pose proof (SchedulerFacts.init_inv net host ports timeout concurrency do_banner) as Hinit.
  pose proof (SchedulerFacts.run_inv _ _ _ _ _ _ _ Hinit Hrun) as Hinv.
  pose proof (SchedulerFacts.run_sem_nonneg host sched
                (Scheduler.init net host ports timeout concurrency do_banner) s Hcap Hrun)
    as Hsem.
  pose proof (SchedulerSpec.inv_sem _ _ _ _ Hinv).
  split; [lia|]. split; [lia|]. split; [|split].
  - intros i t Hi.
    pose proof (SchedulerSpec.inv_events _ _ _ _ Hinv) as Hev.
    assert ((SchedulerSpec.events <$> Scheduler.tasks s) !! i
            = Some (SchedulerSpec.events t)) as Hl by by rewrite list_lookup_fmap, Hi.
    rewrite Hev, list_lookup_imap in Hl.
    destruct (ports !! i) as [p|]; [|done]. injection Hl as Hl.
    exists p. split; [done|]. split; [done|].
    exact (Forall_lookup_1 _ _ _ _ (SchedulerSpec.inv_phase _ _ _ _ Hinv) Hi).
  - intros i p _.
    apply SchedulerFacts.script_shape.
  - intros i p after reader writer Hc.
    exact (SchedulerFacts.script_connected _ _ _ _ _ _ _ _ _ Hc).
Qed.

Lemma semaphore_bounds_probes_witness :
  ∃ s,
    Scheduler.run "10.0.0.1" [Scheduler.Advance 1; Scheduler.Advance 1]
      (Scheduler.init ProbeSpec.one_open_port "10.0.0.1" [443; 22] 1 1 true) = Some s
    ∧ Z.of_nat (Scheduler.in_flight s) ≤ 1
    ∧ Scheduler.sem_value s = 1 - Z.of_nat (Scheduler.in_flight s).
Proof.
  eexists. split; [vm_compute; reflexivity|].
  pose proof (semaphore_bounds_probes ProbeSpec.one_open_port "10.0.0.1" [443; 22] 1 1 true
                [Scheduler.Advance 1; Scheduler.Advance 1] _ ltac:(lia)
                ltac:(vm_compute; reflexivity)) as (H1 & H2 & _).
  split; [exact H1|exact H2].
Defined.

(** ** expand_targets *)

(** *** Netmask arithmetic *)

Section Netmask.
Variables m p packed : Z.
Hypothesis Hp : 0 ≤ p ≤ m.
Hypothesis Hpacked : 0 ≤ packed < 2 ^ m.

Let mask := Z.lxor (Z.ones m) (Z.shiftr (Z.ones m) p).
Let low := Z.ones (m - p).

Lemma testbit_mask i : 0 ≤ i → Z.testbit mask i = (m - p <=? i) && (i <? m).
Proof.
  intros Hi. unfold mask.
  rewrite Z.lxor_spec, Z.shiftr_spec, !Z.testbit_ones by lia.
  destruct (Z.leb_spec 0 i), (Z.ltb_spec i m), (Z.leb_spec 0 (i + p)),
    (Z.ltb_spec (i + p) m), (Z.leb_spec (m - p) i); simpl; lia.
Qed.

Lemma testbit_low i : 0 ≤ i → Z.testbit low i = (i <? m - p).
Proof.
  intros Hi. unfold low. rewrite Z.testbit_ones by lia.
  destruct (Z.leb_spec 0 i); [done|lia].
Qed.

Lemma testbit_packed_high i : m ≤ i → Z.testbit packed i = false.
Proof.
  intros Hi. destruct (Z.eq_dec packed 0) as [->|Hne]; [apply Z.bits_0|].
  apply Z.bits_above_log2; [lia|].
  apply Z.log2_lt_pow2; [lia|].
  assert (2 ^ m ≤ 2 ^ i) by (apply Z.pow_le_mono_r; lia). lia.
Qed.

Lemma hostmask_ones : Z.lxor mask (Z.ones m) = low.
Proof.
  apply Z.bits_inj'. intros i Hi.
  rewrite Z.lxor_spec, testbit_mask, testbit_low, Z.testbit_ones by lia.
  destruct (Z.leb_spec 0 i), (Z.ltb_spec i m), (Z.leb_spec (m - p) i),
    (Z.ltb_spec i (m - p)); simpl; lia.
Qed.

Lemma network_low_disjoint : Z.land (Z.land packed mask) low = 0.
Proof.
  apply Z.bits_inj'. intros i Hi.
  rewrite !Z.land_spec, testbit_mask, testbit_low, Z.bits_0 by lia.
  destruct (Z.testbit packed i), (Z.leb_spec (m - p) i), (Z.ltb_spec i m),
    (Z.ltb_spec i (m - p)); simpl; lia.
Qed.

Lemma network_nonneg : 0 ≤ Z.land packed mask.
Proof. apply Z.land_nonneg. left. lia. Qed.

Lemma low_value : low = 2 ^ (m - p) - 1.
Proof. unfold low. rewrite Z.ones_equiv. lia. Qed.

Lemma broadcast_sum : Z.lor (Z.land packed mask) low = Z.land packed mask + low.
Proof.
  rewrite <- Z.lxor_lor by apply network_low_disjoint.
  symmetry. apply Z.add_nocarry_lxor, network_low_disjoint.
Qed.

Lemma packed_split : packed = Z.land packed mask + Z.land packed low.
Proof.
  assert (Z.land (Z.land packed mask) (Z.land packed low) = 0) as Hdis.
  { apply Z.bits_inj'. intros i Hi.
    rewrite !Z.land_spec, testbit_mask, testbit_low, Z.bits_0 by lia.
    destruct (Z.testbit packed i), (Z.leb_spec (m - p) i), (Z.ltb_spec i m),
      (Z.ltb_spec i (m - p)); simpl; lia. }
  rewrite (Z.add_nocarry_lxor _ _ Hdis), (Z.lxor_lor _ _ Hdis).
  apply Z.bits_inj'. intros i Hi.
  rewrite Z.lor_spec, !Z.land_spec, testbit_mask, testbit_low by lia.
  destruct (Z.ltb_spec i m) as [Him|Him].
  - destruct (Z.testbit packed i), (Z.leb_spec (m - p) i), (Z.ltb_spec i (m - p));
      simpl; lia.
  - rewrite testbit_packed_high by lia. done.
Qed.

Lemma packed_in_block :
  Z.land packed mask ≤ packed ≤ Z.land packed mask + low.
Proof.
  assert (0 ≤ Z.land packed low ≤ low) as Hl.
  { unfold low. rewrite Z.land_ones by lia. rewrite Z.ones_equiv.
    pose proof (Z.mod_pos_bound packed (2 ^ (m - p))) as Hmod.
    assert (0 < 2 ^ (m - p)) by (apply Z.pow_pos_nonneg; lia). lia. }
  pose proof packed_split. lia.
Qed.

Lemma full_mask_keeps : p = m → Z.land packed mask = packed.
Proof.
  intros Hpm. pose proof packed_in_block as H. rewrite low_value in H.
  replace (m - p) with 0 in H by lia. simpl in H. lia.
Qed.
End Netmask.

(** *** What the parsers of [ipaddress] return *)

Module IpFacts.

Import PyStr Ipaddress TargetsSpec.

Lemma digit_value_range c : is_digit c = true → 0 ≤ digit_value c ≤ 9.
Proof.
  unfold is_digit, digit_value. intros [H1 H2]%andb_prop.
  apply N.leb_le in H1, H2. lia.
Qed.

Lemma decimal_acc_nonneg s : ∀ acc,
  all_chars is_digit s = true → 0 ≤ acc → 0 ≤ decimal_acc acc s.
Proof.
  induction s as [|c s IH]; intros acc; simpl; [done|].
  intros [Hc Hs]%andb_prop Hacc. apply IH; [done|].
  pose proof (digit_value_range c Hc). lia.
Qed.

Lemma parse_octet_range s n : parse_octet s = Some n → 0 ≤ n ≤ 255.
Proof.
  unfold parse_octet. destruct (is_empty s); [done|].
  destruct (ascii_digits s) eqn:Hd; [|done]. simpl.
  destruct (3 <? String.length s)%nat; [done|].
  destruct (negb (String.eqb s "0") && first_is "0" s); [done|].
  destruct (Z.ltb_spec 255 (decimal_acc 0 s)); [done|].
  intros [= <-]. split; [|lia].
  unfold ascii_digits in Hd. apply andb_prop in Hd as [_ Hd].
  by apply decimal_acc_nonneg.
Qed.

Lemma v4_ip_int_range s ip : v4_ip_int_from_string s = Some ip → 0 ≤ ip < 2 ^ 32.
Proof.
  unfold v4_ip_int_from_string. destruct (is_empty s); [done|].
  destruct (length (split "." s) =? 4)%nat eqn:Hlen; [|done]. simpl.
  apply Nat.eqb_eq in Hlen.
  destruct (mapM parse_octet (split "." s)) as [l|] eqn:Hm; [|done].
  intros [= <-]. apply mapM_Some in Hm.
  pose proof (Forall2_length _ _ _ Hm) as Hl. rewrite Hlen in Hl.
  assert (Forall (λ n, 0 ≤ n ≤ 255) l) as Hall.
  { clear -Hm. induction Hm as [|x y l k Hxy _ IH]; constructor; [|done].
    by eapply parse_octet_range. }
  destruct l as [|a [|b [|c [|d [|]]]]]; try done.
  apply Forall_cons in Hall as [Ha Hall]. apply Forall_cons in Hall as [Hb Hall].
  apply Forall_cons in Hall as [Hc Hall]. apply Forall_cons in Hall as [Hd _].
  unfold from_bytes. simpl. lia.
Qed.

Lemma IPv4Address_range s a :
  IPv4Address s = Some a → addr_version a = V4 ∧ 0 ≤ addr_ip a < 2 ^ 32.
Proof.
  unfold IPv4Address. destruct (contains "/" s); [done|].
  destruct (v4_ip_int_from_string s) as [ip|] eqn:Hip; [|done].
  intros [= <-]. split; [done|]. by eapply v4_ip_int_range.
Qed.

Lemma hex_value_range c v : hex_value c = Some v → 0 ≤ v ≤ 15.
Proof.
  unfold hex_value.
  repeat match goal with
         | |- context [if ?b then _ else _] => destruct b eqn:?
         end; intros [= <-]; lia.
Qed.

Lemma hex_acc_range s : ∀ acc,
  all_chars is_hex s = true → 0 ≤ acc →
  0 ≤ hex_acc acc s < (acc + 1) * 16 ^ Z.of_nat (String.length s).
Proof.
  induction s as [|c s IH]; intros acc; simpl String.length.
  - intros _ Hacc. simpl. lia.
  - cbn [all_chars hex_acc]. intros [Hc Hs]%andb_prop Hacc.
    unfold is_hex in Hc. destruct (hex_value c) as [v|] eqn:Hv; [|done].
    pose proof (hex_value_range c v Hv). simpl default.
    specialize (IH (16 * acc + v) Hs ltac:(lia)).
    rewrite Nat2Z.inj_succ, Z.pow_succ_r by lia.
    assert (0 < 16 ^ Z.of_nat (String.length s)) by (apply Z.pow_pos_nonneg; lia).
    nia.
Qed.

Lemma parse_hextet_range s h : parse_hextet s = Some h → 0 ≤ h < 2 ^ 16.
Proof.
  unfold parse_hextet. destruct (all_chars is_hex s) eqn:Hs; [|done]. simpl.
  destruct (Nat.ltb_spec 4 (String.length s)) as [|Hlen]; [done|].
  destruct (is_empty s); [done|]. intros [= <-].
  pose proof (hex_acc_range s 0 Hs ltac:(lia)) as Hr.
  assert (16 ^ Z.of_nat (String.length s) ≤ 16 ^ 4)
    by (apply Z.pow_le_mono_r; lia).
  change (2 ^ 16) with (16 ^ 4). lia.
Qed.

Lemma lor_shift_hextet a h :
  0 ≤ a → 0 ≤ h < 2 ^ 16 → Z.lor (Z.shiftl a 16) h = a * 2 ^ 16 + h.
Proof.
  intros Ha Hh.
  assert (Z.land (Z.shiftl a 16) h = 0) as Hdis.
  { apply Z.bits_inj'. intros i Hi. rewrite Z.land_spec, Z.bits_0.
    destruct (Z.ltb_spec i 16).
    - rewrite Z.shiftl_spec_low by lia. done.
    - destruct (Z.eq_dec h 0) as [->|Hne]; [by rewrite Z.bits_0, andb_false_r|].
      rewrite (Z.bits_above_log2 h i); [by rewrite andb_false_r|lia|].
      apply Z.log2_lt_pow2; [lia|].
      assert (2 ^ 16 ≤ 2 ^ i) by (apply Z.pow_le_mono_r; lia). lia. }
  rewrite <- (Z.lxor_lor _ _ Hdis), <- (Z.add_nocarry_lxor _ _ Hdis).
  by rewrite Z.shiftl_mul_pow2 by lia.
Qed.

Lemma shift_hextets_range hs : ∀ acc k,
  Forall (λ h, 0 ≤ h < 2 ^ 16) hs → 0 ≤ k → 0 ≤ acc < 2 ^ (16 * k) →
  0 ≤ shift_hextets acc hs < 2 ^ (16 * (k + Z.of_nat (length hs))).
Proof.
  unfold shift_hextets.
  induction hs as [|h hs IH]; intros acc k Hall Hk Hacc; simpl fold_left.
  - simpl length. by rewrite Z.add_0_r.
  - apply Forall_cons in Hall as [Hh Hall].
    rewrite lor_shift_hextet by lia.
    specialize (IH (acc * 2 ^ 16 + h) (k + 1) Hall ltac:(lia)).
    replace (16 * (k + Z.of_nat (length (h :: hs))))
      with (16 * (k + 1 + Z.of_nat (length hs))) by (simpl length; lia).
    apply IH.
    replace (16 * (k + 1)) with (16 * k + 16) by lia.
    rewrite Z.pow_add_r by lia. nia.
Qed.

Lemma assemble_range hi sk lo :
  Forall (λ h, 0 ≤ h < 2 ^ 16) hi → Forall (λ h, 0 ≤ h < 2 ^ 16) lo →
  (length hi + sk + length lo ≤ 8)%nat →
  0 ≤ assemble hi sk lo < 2 ^ 128.
Proof.
  intros Hhi Hlo Hlen. unfold assemble.
  pose proof (shift_hextets_range hi 0 0 Hhi ltac:(lia) ltac:(simpl; lia)) as H1.
  rewrite Z.add_0_l in H1.
  set (a := shift_hextets 0 hi) in *.
  assert (0 ≤ Z.shiftl a (16 * Z.of_nat sk)
          < 2 ^ (16 * (Z.of_nat (length hi) + Z.of_nat sk))) as H2.
  { rewrite Z.shiftl_mul_pow2 by lia.
    replace (16 * (Z.of_nat (length hi) + Z.of_nat sk))
      with (16 * Z.of_nat (length hi) + 16 * Z.of_nat sk) by lia.
    rewrite Z.pow_add_r by lia.
    assert (0 < 2 ^ (16 * Z.of_nat sk)) by (apply Z.pow_pos_nonneg; lia). nia. }
  pose proof (shift_hextets_range lo _ (Z.of_nat (length hi) + Z.of_nat sk)
                Hlo ltac:(lia) H2) as H3.
  assert (2 ^ (16 * (Z.of_nat (length hi) + Z.of_nat sk + Z.of_nat (length lo)))
          ≤ 2 ^ 128) by (apply Z.pow_le_mono_r; lia).
  lia.
Qed.

Lemma part_counts_sum parts skip hi lo sk :
  part_counts parts skip = Some (hi, lo, sk) → (hi + lo + sk = 8)%nat.
Proof.
  unfold part_counts. destruct skip as [skip|].
  - match goal with
    | |- context [mbind _ ?x] => destruct x as [h'|]; [|done]
    end.
    cbv [mbind option_bind].
    match goal with
    | |- context [match ?x with Some _ => _ | None => None end] =>
        destruct x as [l'|]; [|done]
    end.
    destruct (Nat.leb_spec 8 (h' + l')); [done|]. intros [= <- <- <-]. lia.
  - destruct (length parts =? 8)%nat eqn:Hl; [|done]. simpl.
    destruct (is_empty _); [done|]. destruct (is_empty _); [done|].
    intros [= <- <- <-]. apply Nat.eqb_eq in Hl. lia.
Qed.

Lemma mapM_hextets parts hs :
  mapM parse_hextet parts = Some hs →
  length hs = length parts ∧ Forall (λ h, 0 ≤ h < 2 ^ 16) hs.
Proof.
  intros Hm%mapM_Some. split; [symmetry; by eapply Forall2_length|].
  induction Hm as [|x y l k Hxy _ IH]; constructor; [|done].
  by eapply parse_hextet_range.
Qed.

Lemma v6_ip_int_range s ip : v6_ip_int_from_string s = Some ip → 0 ≤ ip < 2 ^ 128.
Proof.
  unfold v6_ip_int_from_string. destruct (is_empty s); [done|].
  destruct (length (split ":" s) <? 3)%nat; [done|].
  destruct (expand_suffix (split ":" s)) as [parts|]; [|done]. simpl.
  destruct (9 <? length parts)%nat; [done|].
  destruct (find_skip 1 (inner_parts parts) None) as [skip|]; [|done]. simpl.
  destruct (part_counts parts skip) as [[[phi plo] sk]|] eqn:Hc; [|done]. simpl.
  destruct (mapM parse_hextet (take phi parts)) as [hi|] eqn:Hhi; [|done]. simpl.
  destruct (mapM parse_hextet (drop _ parts)) as [lo|] eqn:Hlo; [|done]. simpl.
  intros [= <-].
  apply mapM_hextets in Hhi as [Hlhi Hhi], Hlo as [Hllo Hlo].
  apply part_counts_sum in Hc.
  rewrite length_take in Hlhi. rewrite length_drop in Hllo.
  apply assemble_range; [done..|lia].
Qed.

Lemma IPv6Address_range s a :
  IPv6Address s = Some a → addr_version a = V6 ∧ 0 ≤ addr_ip a < 2 ^ 128.
Proof.
  unfold IPv6Address. destruct (contains "/" s); [done|].
  destruct (split_scope_id s) as [[addr scope]|]; [|done]. simpl.
  destruct (v6_ip_int_from_string addr) as [ip|] eqn:Hip; [|done].
  intros [= <-]. split; [done|]. by eapply v6_ip_int_range.
Qed.

(** *** Prefix lengths *)

Lemma all_ones_ones v : all_ones v = Z.ones (max_prefixlen v).
Proof. by destruct v. Qed.

Lemma max_prefixlen_pos v : 0 < max_prefixlen v.
Proof. by destruct v. Qed.

Lemma prefix_from_prefix_string_range v s p :
  prefix_from_prefix_string v s = Some p → 0 ≤ p ≤ max_prefixlen v.
Proof.
  unfold prefix_from_prefix_string. destruct (ascii_digits s); [|done]. simpl.
  destruct (Z.leb_spec 0 (decimal_acc 0 s)); [|done].
  destruct (Z.leb_spec (decimal_acc 0 s) (max_prefixlen v)); [|done].
  simpl. intros [= <-]. lia.
Qed.

Lemma trailing_zero_bits_nonneg fuel : ∀ n, 0 ≤ trailing_zero_bits fuel n.
Proof.
  induction fuel as [|fuel IH]; intros n; simpl; [done|].
  destruct (Z.odd n); [done|]. specialize (IH (Z.shiftr n 1)). lia.
Qed.

Lemma prefix_from_ip_int_range v ip p :
  prefix_from_ip_int v ip = Some p → 0 ≤ p ≤ max_prefixlen v.
Proof.
  unfold prefix_from_ip_int, count_righthand_zero_bits.
  pose proof (max_prefixlen_pos v).
  pose proof (trailing_zero_bits_nonneg (Z.to_nat (max_prefixlen v)) ip).
  destruct (ip =? 0); destruct (_ =? _); try done; intros [= <-]; lia.
Qed.

Lemma make_netmask_range v s p : make_netmask v s = Some p → 0 ≤ p ≤ max_prefixlen v.
Proof.
  unfold make_netmask. destruct v.
  - destruct (prefix_from_prefix_string V4 s) as [q|] eqn:Hq.
    + intros [= <-]. exact (prefix_from_prefix_string_range V4 s q Hq).
    + unfold prefix_from_ip_string.
      destruct (v4_ip_int_from_string s) as [ip|]; [|done]. simpl.
      destruct (prefix_from_ip_int V4 ip) as [q|] eqn:Hq'.
      * intros [= <-]. exact (prefix_from_ip_int_range V4 ip q Hq').
      * apply (prefix_from_ip_int_range V4).
  - apply prefix_from_prefix_string_range.
Qed.

Lemma IPNetwork_wf v text n :
  IPNetwork v text = Some n → net_version n = v ∧ well_formed n.
Proof.
  unfold IPNetwork.
  destruct (split_addr_prefix text) as [[addr mask]|]; [|done]. simpl.
  destruct (match v with V4 => IPv4Address addr | V6 => IPv6Address addr end)
    as [a|] eqn:Ha; [|done]. simpl.
  destruct (match mask with Some mask => make_netmask v mask
            | None => Some (max_prefixlen v) end) as [p|] eqn:Hp; [|done]. simpl.
  intros [= <-]. split; [done|]. unfold well_formed. cbn.
  assert (addr_version a = v ∧ 0 ≤ addr_ip a < 2 ^ max_prefixlen v) as [Hv Hr].
  { destruct v; [by apply IPv4Address_range in Ha|by apply IPv6Address_range in Ha]. }
  split; [|done].
  destruct mask as [mask|].
  - by eapply make_netmask_range.
  - injection Hp as <-. pose proof (max_prefixlen_pos v). lia.
Qed.

Lemma ip_network_wf text n : ip_network text = Return n → well_formed n.
Proof.
  unfold ip_network.
  destruct (IPNetwork V4 text) as [n4|] eqn:H4.
  - intros [= <-]. by apply IPNetwork_wf in H4 as [_ ?].
  - destruct (IPNetwork V6 text) as [n6|] eqn:H6; [|done].
    intros [= <-]. by apply IPNetwork_wf in H6 as [_ ?].
Qed.

Lemma ip_network_raises text e : ip_network text = Raise e → e = ValueError.
Proof.
  unfold ip_network. destruct (IPNetwork V4 text); [done|].
  destruct (IPNetwork V6 text); [done|]. by intros [= <-].
Qed.

Lemma ip_address_raises text e : ip_address text = Raise e → e = ValueError.
Proof.
  unfold ip_address. destruct (IPv4Address text); [done|].
  destruct (IPv6Address text); [done|]. by intros [= <-].
Qed.

(** *** The block of a network *)

Section Block.
Variable n : network.
Hypothesis Hwf : well_formed n.

Lemma span_nonneg : 0 ≤ span n.
Proof.
  destruct Hwf as (Hp & _). unfold span.
  assert (0 < 2 ^ (max_prefixlen (net_version n) - prefixlen n))
    by (apply Z.pow_pos_nonneg; lia). lia.
Qed.

Lemma hostmask_span : hostmask n = span n.
Proof.
  destruct Hwf as (Hp & Hr & _). unfold hostmask, ip_int_from_prefix, span.
  rewrite all_ones_ones, hostmask_ones by done. rewrite Z.ones_equiv. lia.
Qed.

Lemma network_address_nonneg : 0 ≤ network_address n.
Proof.
  destruct Hwf as (Hp & Hr & _ & ->). unfold ip_int_from_prefix.
  rewrite all_ones_ones. by apply network_nonneg.
Qed.

Lemma broadcast_address_sum : broadcast_address n = network_address n + span n.
Proof.
  unfold broadcast_address. rewrite hostmask_span.
  destruct Hwf as (Hp & Hr & _ & ->). unfold ip_int_from_prefix, span.
  rewrite all_ones_ones.
  rewrite <- (low_value (max_prefixlen (net_version n)) (prefixlen n)).
  by apply broadcast_sum.
Qed.

Lemma address_in_block :
  network_address n ≤ addr_ip (net_addr n) ≤ broadcast_address n.
Proof.
  rewrite broadcast_address_sum.
  destruct Hwf as (Hp & Hr & _ & ->). unfold ip_int_from_prefix, span.
  rewrite all_ones_ones.
  rewrite <- (low_value (max_prefixlen (net_version n)) (prefixlen n)).
  by apply packed_in_block.
Qed.

Lemma span_small :
  (prefixlen n = max_prefixlen (net_version n) → span n = 0)
  ∧ (prefixlen n = max_prefixlen (net_version n) - 1 → span n = 1)
  ∧ (prefixlen n ≤ max_prefixlen (net_version n) - 2 → 3 ≤ span n).
Proof.
  destruct Hwf as (Hp & _). unfold span. repeat split.
  - intros ->. by rewrite Z.sub_diag.
  - intros ->. by replace (_ - (_ - 1)) with 1 by lia.
  - intros Hle.
    assert (2 ^ 2 ≤ 2 ^ (max_prefixlen (net_version n) - prefixlen n))
      by (apply Z.pow_le_mono_r; lia).
    lia.
Qed.
End Block.

Lemma seqZ_sorted (k : nat) : ∀ m len,
  Z.to_nat len = k → StronglySorted Z.lt (seqZ m len).
Proof.
  induction k as [|k IH]; intros m len Hk.
  - rewrite seqZ_nil by lia. constructor.
  - rewrite seqZ_cons by lia. constructor.
    + apply IH. lia.
    + apply Forall_seqZ. lia.
Qed.

Lemma range_sorted a b : StronglySorted Z.lt (range a b).
Proof. by eapply seqZ_sorted. Qed.

Lemma elem_of_range a b x : x ∈ range a b ↔ a ≤ x < b.
Proof. unfold range. rewrite elem_of_seqZ. lia. Qed.

Lemma ips_of_ints v (l : list Z) : addr_ip <$> (address_of_int v <$> l) = l.
Proof. rewrite <- list_fmap_compose. apply list_fmap_id. Qed.

(** The addresses [hosts] lists, as integers. *)
Lemma hosts_ips n :
  addr_ip <$> hosts n =
    if prefixlen n =? max_prefixlen (net_version n) - 1
    then range (network_address n) (broadcast_address n + 1)
    else if prefixlen n =? max_prefixlen (net_version n)
    then [addr_ip (net_addr n)]
    else match net_version n with
         | V4 => range (network_address n + 1) (broadcast_address n)
         | V6 => range (network_address n + 1) (broadcast_address n + 1)
         end.
Proof.
  unfold hosts. destruct (_ =? _); [apply ips_of_ints|].
  destruct (_ =? _); [done|]. destruct (net_version n); apply ips_of_ints.
Qed.

End IpFacts.

Module TargetsFacts.

Import PyStr Ipaddress TargetsSpec Targets IpFacts.

Lemma expand_targets_cidr target_arg n :
  contains "/" (strip target_arg) = true →
  ip_network (strip target_arg) = Return n →
  expand_targets target_arg = Return (str <$> hosts n).
Proof. unfold expand_targets. by intros -> ->. Qed.

Lemma expand_targets_fallback target_arg e :
  contains "/" (strip target_arg) = true →
  ip_network (strip target_arg) = Raise e →
  expand_targets target_arg = Return [strip target_arg].
Proof.
  unfold expand_targets. intros -> He. rewrite He.
  by rewrite (ip_network_raises _ _ He).
Qed.

Lemma expand_targets_plain target_arg :
  contains "/" (strip target_arg) = false →
  expand_targets target_arg = Return [strip target_arg].
Proof.
  unfold expand_targets. intros ->.
  destruct (ip_address (strip target_arg)) as [a|e] eqn:He; [done|].
  by rewrite (ip_address_raises _ _ He).
Qed.

(** The integers of the listed addresses, by the width of the block. *)
Lemma hosts_ips_cases n :
  well_formed n →
  (prefixlen n = max_prefixlen (net_version n) - 1
   ∧ addr_ip <$> hosts n = [network_address n; network_address n + 1]
   ∧ broadcast_address n = network_address n + 1)
  ∨ (prefixlen n = max_prefixlen (net_version n)
     ∧ addr_ip <$> hosts n = [network_address n]
     ∧ addr_ip (net_addr n) = network_address n
     ∧ broadcast_address n = network_address n)
  ∨ (prefixlen n ≤ max_prefixlen (net_version n) - 2
     ∧ network_address n + 3 ≤ broadcast_address n
     ∧ addr_ip <$> hosts n
       = match net_version n with
         | V4 => range (network_address n + 1) (broadcast_address n)
         | V6 => range (network_address n + 1) (broadcast_address n + 1)
         end).
Proof.
  intros Hwf. rewrite hosts_ips.
  pose proof (broadcast_address_sum n Hwf) as Hb.
  destruct (span_small n Hwf) as (H0 & H1 & H3).
  pose proof Hwf as (Hp & Hr & _ & Hn).
  destruct (Z.eqb_spec (prefixlen n) (max_prefixlen (net_version n) - 1)) as [E1|N1].
  - left. rewrite Hb, (H1 E1). split; [done|]. split; [|done].
    unfold range. replace (network_address n + 1 + 1 - network_address n) with 2 by lia.
    rewrite seqZ_cons by lia. rewrite seqZ_cons by lia. rewrite seqZ_nil by done.
    by rewrite Z.add_1_r.
  - destruct (Z.eqb_spec (prefixlen n) (max_prefixlen (net_version n))) as [E2|N2].
    + right; left. rewrite Hb, (H0 E2), Z.add_0_r.
      assert (addr_ip (net_addr n) = network_address n) as ->; [|done].
      rewrite Hn. unfold ip_int_from_prefix. rewrite all_ones_ones.
      symmetry. by apply full_mask_keeps.
    + right; right. specialize (H3 ltac:(lia)). split; [lia|]. split; [lia|done].
Qed.

Lemma hosts_nonempty n : well_formed n → hosts n ≠ [].
Proof.
  intros Hwf Hnil.
  assert (addr_ip <$> hosts n = []) as Hips by by rewrite Hnil.
  destruct (hosts_ips_cases n Hwf)
    as [(_ & H & _)|[(_ & H & _)|(_ & Hb & H)]]; rewrite H in Hips; try done.
  assert (network_address n + 1 ∈ @nil Z) as Hin; [|by apply elem_of_nil in Hin].
  rewrite <- Hips. destruct (net_version n); apply elem_of_range; lia.
Qed.

Lemma expand_targets_nonempty target_arg :
  ∃ targets, expand_targets target_arg = Return targets ∧ targets ≠ [].
Proof.
  destruct (contains "/" (strip target_arg)) eqn:Hc.
  - destruct (ip_network (strip target_arg)) as [n|e] eqn:Hn.
    + rewrite (expand_targets_cidr _ n Hc Hn). eexists. split; [done|].
      intros Hnil. apply fmap_nil_inv in Hnil.
      by apply (hosts_nonempty n), Hnil; apply (ip_network_wf (strip target_arg)).
    + rewrite (expand_targets_fallback _ e Hc Hn). by eexists.
  - rewrite (expand_targets_plain _ Hc). by eexists.
Qed.

End TargetsFacts.



(** C10.  An IPv4 [/31] expands to both addresses of the block and a [/32]
    to its one address, while a wider IPv4 block leaves out its network and
    broadcast addresses; no network has an empty list of hosts, so no
    target with a [/] expands to an empty list. *)
Theorem cidr_edge_blocks :
  (∀ text n,
     Ipaddress.ip_network text = Return n →
     Ipaddress.net_version n = Ipaddress.V4 → Ipaddress.prefixlen n = 31 →
     Ipaddress.hosts n
     = [Ipaddress.address_of_int Ipaddress.V4 (Ipaddress.network_address n);
        Ipaddress.address_of_int Ipaddress.V4 (Ipaddress.network_address n + 1)]
     ∧ Ipaddress.broadcast_address n = Ipaddress.network_address n + 1)
  ∧ (∀ text n,
       Ipaddress.ip_network text = Return n →
       Ipaddress.net_version n = Ipaddress.V4 → Ipaddress.prefixlen n = 32 →
       Ipaddress.hosts n = [Ipaddress.net_addr n]
       ∧ Ipaddress.addr_ip (Ipaddress.net_addr n) = Ipaddress.network_address n
       ∧ Ipaddress.broadcast_address n = Ipaddress.network_address n)
  ∧ (∀ text n,
       Ipaddress.ip_network text = Return n →
       Ipaddress.net_version n = Ipaddress.V4 → Ipaddress.prefixlen n ≤ 30 →
       Ipaddress.addr_ip <$> Ipaddress.hosts n
       = Ipaddress.range (Ipaddress.network_address n + 1) (Ipaddress.broadcast_address n)
       ∧ (Ipaddress.network_address n ∉ (Ipaddress.addr_ip <$> Ipaddress.hosts n))
       ∧ (Ipaddress.broadcast_address n ∉ (Ipaddress.addr_ip <$> Ipaddress.hosts n)))
  ∧ (∀ text n, Ipaddress.ip_network text = Return n → Ipaddress.hosts n ≠ [])
  ∧ (∀ target_arg,
       PyStr.contains "/" (PyStr.strip target_arg) = true →
       ∃ targets, Targets.expand_targets target_arg = Return targets ∧ targets ≠ [])
  ∧ Targets.expand_targets "10.0.0.4/31" = Return ["10.0.0.4"; "10.0.0.5"]
  ∧ Targets.expand_targets "10.0.0.5/31" = Return ["10.0.0.4"; "10.0.0.5"]
  ∧ Targets.expand_targets "10.0.0.5/32" = Return ["10.0.0.5"].
Proof.
  split.
  { intros text n Hn Hv Hp. pose proof (IpFacts.ip_network_wf _ _ Hn) as Hwf.
    destruct (TargetsFacts.hosts_ips_cases n Hwf)
      as [(_ & H & Hb)|[(Hp' & _)|(Hp' & _)]];
      [|rewrite Hv in Hp'; simpl in Hp'; lia..].
    split; [|done].
    unfold Ipaddress.hosts. rewrite Hv, Hp. simpl.
    rewrite Hb. unfold Ipaddress.range.
    replace (Ipaddress.network_address n + 1 + 1 - Ipaddress.network_address n)
      with 2 by lia.
    rewrite seqZ_cons by lia. rewrite seqZ_cons by lia. rewrite seqZ_nil by done.
    by rewrite Z.add_1_r. }
  split.
  { intros text n Hn Hv Hp. pose proof (IpFacts.ip_network_wf _ _ Hn) as Hwf.
    destruct (TargetsFacts.hosts_ips_cases n Hwf)
      as [(Hp' & _)|[(_ & _ & Ha & Hb)|(Hp' & _)]];
      [rewrite Hv in Hp'; simpl in Hp'; lia| |rewrite Hv in Hp'; simpl in Hp'; lia].
    split; [|done]. unfold Ipaddress.hosts. by rewrite Hv, Hp. }
  split.
  { intros text n Hn Hv Hp. pose proof (IpFacts.ip_network_wf _ _ Hn) as Hwf.
    destruct (TargetsFacts.hosts_ips_cases n Hwf)
      as [(Hp' & _)|[(Hp' & _)|(_ & Hb & H)]];
      [rewrite Hv in Hp'; simpl in Hp'; lia..|].
    rewrite H, Hv. split; [done|].
    rewrite !IpFacts.elem_of_range. lia. }
  split.
  { intros text n Hn. by apply TargetsFacts.hosts_nonempty, (IpFacts.ip_network_wf text). }
  split; [intros; apply TargetsFacts.expand_targets_nonempty|].
  by vm_compute.
Qed.

Lemma cidr_edge_blocks_witness :
  ∃ n,
    Ipaddress.ip_network "10.0.0.4/31" = Return n
    ∧ Ipaddress.hosts n
      = [Ipaddress.address_of_int Ipaddress.V4 (Ipaddress.network_address n);
         Ipaddress.address_of_int Ipaddress.V4 (Ipaddress.network_address n + 1)]
    ∧ Ipaddress.broadcast_address n = Ipaddress.network_address n + 1.
Proof.
  eexists. split; [vm_compute; reflexivity|].
  apply (proj1 cidr_edge_blocks "10.0.0.4/31"); vm_compute; reflexivity.
Defined.

(** * Further properties *)

(** ** Decoding: the round trip with UTF-8 *)

Module CodecFacts.

Import Codec CodecSpec.

Ltac div_lia := zify; Z.to_euclidean_division_equations; lia.

Ltac decide_ltb :=
  repeat match goal with
         | |- context [(?a <? ?b)%N] =>
             first [ replace (a <? b)%N with true by (symmetry; apply N.ltb_lt; div_lia)
                   | replace (a <? b)%N with false by (symmetry; apply N.ltb_ge; div_lia) ]
         | |- context [(?a <=? ?b)%N] =>
             first [ replace (a <=? b)%N with true by (symmetry; apply N.leb_le; div_lia)
                   | replace (a <=? b)%N with false by (symmetry; apply N.leb_gt; div_lia) ]
         | |- context [(?a =? ?b)%N] =>
             first [ replace (a =? b)%N with false by (symmetry; apply N.eqb_neq; div_lia)
                   | replace (a =? b)%N with true by (symmetry; apply N.eqb_eq; div_lia) ]
         end.

Lemma utf8_replace_one (c : N) (rest : list N) :
  scalar c → utf8_replace (utf8_encode_one c ++ rest) = c :: utf8_replace rest.
Proof.
  intros Hc. unfold scalar in Hc. unfold utf8_encode_one.
  destruct (N.ltb_spec c 128) as [H1|H1].
  { cbn [app utf8_replace]. by decide_ltb. }
  destruct (N.ltb_spec c 2048) as [H2|H2].
  { cbn [app utf8_replace]. unfold is_continuation. decide_ltb.
    cbn [andb]. f_equal. unfold cp2. div_lia. }
  destruct (N.ltb_spec c 65536) as [H3|H3].
  { cbn [app utf8_replace]. unfold bad_second3, is_continuation.
    destruct (N.ltb_spec (128 + (c / 64) `mod` 64) 160); decide_ltb;
      cbn [andb negb orb]; f_equal; unfold cp3; div_lia. }
  cbn [app utf8_replace]. unfold bad_second4, is_continuation.
  destruct (N.ltb_spec (128 + (c / 4096) `mod` 64) 144); decide_ltb;
    cbn [andb negb orb]; f_equal; unfold cp4; div_lia.
Qed.

Lemma utf8_round_trip (s : text) :
  Forall scalar s → utf8_replace (utf8_encode s) = s.
Proof.
  induction 1 as [|c s Hc _ IH]; [done|].
  unfold utf8_encode. rewrite bind_cons. rewrite utf8_replace_one by done.
  f_equal. exact IH.
Qed.

End CodecFacts.

Module CodecBounds.

Import Codec CodecSpec.

Ltac bools_to_props :=
  repeat match goal with
         | H : (_ <? _)%N = true |- _ => apply N.ltb_lt in H
         | H : (_ <? _)%N = false |- _ => apply N.ltb_ge in H
         | H : (_ <=? _)%N = true |- _ => apply N.leb_le in H
         | H : (_ <=? _)%N = false |- _ => apply N.leb_gt in H
         | H : (_ =? _)%N = true |- _ => apply N.eqb_eq in H
         | H : (_ =? _)%N = false |- _ => apply N.eqb_neq in H
         | H : (_ && _) = true |- _ => apply andb_prop in H as [? ?]
         | H : negb _ = false |- _ => apply negb_false_iff in H
         | H : (_ || _) = false |- _ => apply orb_false_elim in H as [? ?]
         end.

(** One step of the decoder: a character, which is a scalar value, and
    the decoding of what follows some of the bytes behind the first. *)
Lemma utf8_replace_step (b0 : N) (rest : list N) :
  ∃ c k, utf8_replace (b0 :: rest) = c :: utf8_replace (drop k rest) ∧ scalar c.
Proof.
  cbn [utf8_replace]. unfold bad_second3, bad_second4, is_continuation.
  repeat case_match; subst; bools_to_props;
    first [ exists b0, 0%nat; split; [reflexivity|unfold scalar; lia]
          | exists REPLACEMENT, 0%nat; split; [reflexivity|unfold scalar, REPLACEMENT; lia]
          | exists REPLACEMENT, 1%nat; split; [reflexivity|unfold scalar, REPLACEMENT; lia]
          | exists REPLACEMENT, 2%nat; split; [reflexivity|unfold scalar, REPLACEMENT; lia]
          | exists REPLACEMENT, 3%nat; split; [reflexivity|unfold scalar, REPLACEMENT; lia]
          | eexists _, 1%nat; split; [reflexivity|unfold scalar, cp2; lia]
          | eexists _, 2%nat; split; [reflexivity|unfold scalar, cp3; lia]
          | eexists _, 3%nat; split; [reflexivity|unfold scalar, cp4; lia] ].
Qed.

Lemma utf8_replace_bounds (n : nat) : ∀ data,
  (length data ≤ n)%nat →
  (length (utf8_replace data) ≤ length data)%nat ∧ Forall scalar (utf8_replace data).
Proof.
  induction n as [|n IH]; intros [|b0 rest] Hlen; simpl in Hlen;
    try (split; [done|constructor]); [lia|].
  destruct (utf8_replace_step b0 rest) as (c & k & -> & Hc).
  destruct (IH (drop k rest)) as [Hl Hs]; [rewrite length_drop; lia|].
  rewrite length_drop in Hl. split; [simpl; lia|by constructor].
Qed.

End CodecBounds.

(** ** The probe: outcomes and time *)

Module ProbeMore.

Import Probe ProbeSpec ProbeTime CodecSpec.
Local Open Scope Q_scope.

Lemma lstrip_sublist (s : text) : Codec.lstrip s `sublist_of` s.
Proof.
  induction s as [|c s IH]; simpl; [done|].
  destruct (PyStr.isspace_code c); [by apply sublist_cons|done].
Qed.

Lemma rstrip_sublist (s : text) : Codec.rstrip s `sublist_of` s.
Proof.
  induction s as [|c s IH]; simpl; [done|].
  destruct (Codec.rstrip s) as [|c' r].
  - destruct (PyStr.isspace_code c); [apply sublist_nil_l|].
    apply sublist_skip, sublist_nil_l.
  - by apply sublist_skip.
Qed.

Lemma strip_sublist (s : text) : Codec.strip s `sublist_of` s.
Proof.
  unfold Codec.strip. etrans; [apply rstrip_sublist|apply lstrip_sublist].
Qed.

(** What a banner is, whatever came in. *)
Lemma banner_of_bounds reader timeout :
  (length (banner_of reader timeout) ≤ 1024)%nat
  ∧ Forall scalar (banner_of reader timeout)
  ∧ ∀ c, head (banner_of reader timeout) = Some c
         ∨ last (banner_of reader timeout) = Some c →
         PyStr.isspace_code c = false.
Proof.
  unfold banner_of.
  destruct (Qle_bool timeout 0); [by repeat split; [simpl; lia|constructor|intros ? [|]]|].
  destruct (incoming reader) as [after [data|e]|];
    try (by repeat split; [simpl; lia|constructor|intros ? [|]]).
  destruct (Qle_bool after timeout);
    [|by repeat split; [simpl; lia|constructor|intros ? [|]]].
  unfold Codec.decode.
  destruct (CodecBounds.utf8_replace_bounds _ (Byte.to_N <$> take BANNER_READ_BYTES data)
              (le_n _)) as [Hlen Hsc].
  rewrite length_fmap, length_take in Hlen.
  pose proof (strip_sublist (Codec.utf8_replace (Byte.to_N <$> take BANNER_READ_BYTES data)))
    as Hsub.
  split; [|split].
  - apply sublist_length in Hsub. unfold BANNER_READ_BYTES in *. lia.
  - apply Forall_forall. intros c Hc. rewrite Forall_forall in Hsc.
    apply Hsc. by eapply elem_of_sublist.
  - intros c. destruct (ProbeFacts.strip_trimmed
      (Codec.utf8_replace (Byte.to_N <$> take BANNER_READ_BYTES data))) as [Hh Hl].
    intros [H|H]; auto.
Qed.

Lemma scan_port_not_connected_time open_connection host port timeout do_banner w :
  connected (open_connection host port) timeout = None →
  ∃ t, scan_port open_connection host port timeout do_banner w =
         (Return (closed_port port),
          World t (log w ++ [(now w, Acquire); (now w, Connect host port timeout);
                             (t, Release)]))
       ∧ t == now w + wait_time (open_connection host port) timeout.
Proof.
  unfold connected, closed_port, wait_time. ProbeFacts.unfold_M.
  destruct (Qle_bool timeout 0); cbn.
  { intros _. eexists. rewrite <- !app_assoc. split; [reflexivity|]. cbn. lra. }
  destruct (open_connection host port) as [after [[reader writer]|e]|]; cbn.
  - destruct (Qle_bool after timeout); [done|]. intros _. cbn.
    eexists. rewrite <- !app_assoc. split; [reflexivity|]. cbn. lra.
  - intros _.
    destruct (Qle_bool after timeout); cbn;
      destruct (is_TimeoutError e || is_ConnectionRefusedError e || is_OSError e);
      cbn; eexists; rewrite <- !app_assoc; (split; [reflexivity|]); cbn; lra.
  - intros _. eexists. rewrite <- !app_assoc. split; [reflexivity|]. cbn. lra.
Qed.

Lemma connected_conn {conn timeout after c} :
  connected conn timeout = Some (after, c) →
  conn = Completes after (Return c) ∧ after <= timeout.
Proof.
  unfold connected. destruct (Qle_bool timeout 0); [done|].
  destruct conn as [d [c'|e]|]; [|done..].
  destruct (Qle_bool d timeout) eqn:Hd; [|done].
  intros [= -> ->]. split; [done|]. by apply Qle_bool_iff.
Qed.

Lemma scan_port_outcome open_connection host port timeout do_banner w :
  ∃ is_open banner,
    (Probe.scan_port open_connection host port timeout do_banner w).1
    = Return (port, is_open, banner)
    ∧ (is_open = false → banner = [])
    ∧ (do_banner = false → banner = [])
    ∧ (length banner ≤ 1024)%nat
    ∧ Forall CodecSpec.scalar banner
    ∧ (∀ c, head banner = Some c ∨ last banner = Some c →
            PyStr.isspace_code c = false)
    ∧ (is_open = true →
       ∃ after c, open_connection host port = Probe.Completes after (Return c)
                  ∧ (after <= timeout)%Q ∧ (0 < timeout)%Q).
Proof.
  rewrite ProbeFacts.scan_port_result. unfold ProbeSpec.closed_port.
  destruct (ProbeSpec.connected (open_connection host port) timeout)
    as [[after [reader writer]]|] eqn:Hc.
  - destruct (ProbeSpec.closes_quietly writer).
    + destruct (banner_of_bounds reader (Probe.pymin (1 # 2) timeout))
        as (Hlen & Hsc & Htrim).
      eexists true, _. split; [reflexivity|].
      destruct do_banner.
      * repeat split; try done.
        intros _. exists after, (reader, writer).
        destruct (connected_conn Hc) as [-> ?].
        by pose proof (ProbeFacts.connected_timeout_pos Hc).
      * repeat split; try done; [simpl; lia|by intros ? [|]|].
        intros _. exists after, (reader, writer).
        destruct (connected_conn Hc) as [-> ?].
        by pose proof (ProbeFacts.connected_timeout_pos Hc).
    + exists false, []. repeat split; try done; [simpl; lia|by intros ? [|]].
  - exists false, []. repeat split; try done; [simpl; lia|by intros ? [|]].
Qed.

End ProbeMore.

(** X1.  The banner of a probe is empty unless the port is reported open and a
    banner was asked for; it has at most 1024 characters, all of them Unicode
    scalar values, and neither begins nor ends with whitespace.  A port is
    reported open only if the connection attempt completed within the
    timeout. *)
Theorem scan_port_banner_invariants open_connection host port timeout do_banner w :
  ∃ is_open banner,
    (Probe.scan_port open_connection host port timeout do_banner w).1
    = Return (port, is_open, banner)
    ∧ (is_open = false → banner = [])
    ∧ (do_banner = false → banner = [])
    ∧ (length banner ≤ 1024)%nat
    ∧ Forall CodecSpec.scalar banner
    ∧ (∀ c, head banner = Some c ∨ last banner = Some c →
            PyStr.isspace_code c = false)
    ∧ (is_open = true →
       ∃ after c, open_connection host port = Probe.Completes after (Return c)
                  ∧ (after <= timeout)%Q ∧ (0 < timeout)%Q).
Proof. apply ProbeMore.scan_port_outcome. Qed.

Lemma scan_port_banner_invariants_witness :
  ∃ is_open banner,
    (Probe.scan_port (λ _ _, Probe.Completes (1 # 100) (Return ProbeSpec.greeting))
       "10.0.0.1" 22 1 true Probe.start).1 = Return (22, is_open, banner)
    ∧ (length banner ≤ 1024)%nat.
Proof.
  destruct (scan_port_banner_invariants
              (λ _ _, Probe.Completes (1 # 100) (Return ProbeSpec.greeting))
              "10.0.0.1" 22 1 true Probe.start)
    as (is_open & banner & H1 & _ & _ & H2 & _).
  exists is_open, banner. split; [exact H1|exact H2].
Defined.





(** X4.  With a timeout that is not positive no connection attempt is waited
    for: whatever the network, the port is reported as not open and the probe
    takes no time. *)
Theorem scan_port_timeout_not_positive open_connection host port timeout do_banner w :
  (timeout <= 0)%Q →
  Probe.scan_port open_connection host port timeout do_banner w
  = (Return (port, false, []),
     Probe.World (Probe.now w)
       (Probe.log w ++ [(Probe.now w, Probe.Acquire);
                        (Probe.now w, Probe.Connect host port timeout);
                        (Probe.now w, Probe.Release)])).
Proof.
  intros Hle%Qle_bool_iff. ProbeFacts.unfold_M. rewrite Hle. cbn.
  by rewrite <- !app_assoc.
Qed.

Lemma scan_port_timeout_not_positive_witness :
  Probe.scan_port (λ _ _, Probe.Completes 0 (Return ProbeSpec.greeting))
    "10.0.0.1" 22 0 true Probe.start
  = (Return (22, false, []),
     Probe.World (Probe.now Probe.start)
       (Probe.log Probe.start
          ++ [(Probe.now Probe.start, Probe.Acquire);
              (Probe.now Probe.start, Probe.Connect "10.0.0.1" 22 0);
              (Probe.now Probe.start, Probe.Release)])).
Proof.
  apply (scan_port_timeout_not_positive
           (λ _ _, Probe.Completes 0 (Return ProbeSpec.greeting)) "10.0.0.1" 22 0 true
           Probe.start).
  apply Qle_refl.
Defined.

(** ** The host scan: what it does to the outside *)

Module TraceFacts.

Import Probe Scheduler SchedulerSpec EffectSpec TraceSpec.

Lemma net_trace_app i l1 l2 : net_trace i (l1 ++ l2) = net_trace i l1 ++ net_trace i l2.
Proof. apply omap_app. Qed.

Lemma console_app l1 l2 : console (l1 ++ l2) = console l1 ++ console l2.
Proof. apply omap_app. Qed.

Lemma open_lines_app host l1 l2 :
  open_lines host (l1 ++ l2) = open_lines host l1 ++ open_lines host l2.
Proof. unfold open_lines. by rewrite filter_app, fmap_app. Qed.

Lemma init_traced net host ports timeout cap do_banner :
  traced host (init net host ports timeout cap do_banner).
Proof.
  split; cbn [init effects results tasks].
  - intros i. rewrite list_lookup_imap.
    destruct (ports !! i) as [p|]; [|done]. cbn. unfold spawn.
    by destruct (scan_port _ _ _ _ _ _).
  - done.
  - constructor.
Qed.

Lemma step_traced host c s s' :
  traced host s → step host c s = Some s' → traced host s'.
Proof.
  intros [Hnet Hcon Hscan]. unfold step.
  destruct (failure s); [done|]. destruct c as [i|].
  - destruct (tasks s !! i) as [t|] eqn:Hi; [|done]. cbn.
    destruct (todo t) as [|e rest]; [done|].
    destruct (match e with Acquire => _ | _ => _ end) as [v|]; [|done].
    intros [= <-]. split; cbn [effects results tasks].
    + intros j. rewrite net_trace_app, Hnet. cbn.
      destruct (Nat.eqb_spec i j) as [->|Hne].
      * rewrite Hi, list_lookup_insert_eq by by eapply lookup_lt_Some. done.
      * rewrite list_lookup_insert_ne by done. by rewrite app_nil_r.
    + by rewrite console_app, Hcon, app_nil_r.
    + apply Forall_app. split; [done|]. by repeat constructor.
  - destruct (completed s) as [|[[[port is_open] banner]|e] q]; [done|..].
    + intros [= <-]. split; cbn [effects results tasks].
      * intros j. rewrite net_trace_app, Hnet.
        replace (net_trace j _) with (@nil event) by by destruct is_open.
        by rewrite app_nil_r.
      * rewrite console_app, open_lines_app, Hcon. f_equal.
        unfold open_lines. rewrite filter_cons. cbn. by destruct is_open.
      * apply Forall_app. split; [done|]. destruct is_open; by repeat constructor.
    + intros [= <-]. by split.
Qed.

Lemma run_traced host sched : ∀ s s',
  traced host s → run host sched s = Some s' → traced host s'.
Proof.
  induction sched as [|c sched IH]; intros s s' Htr; simpl.
  - by intros [= <-].
  - destruct (step host c s) as [s1|] eqn:Hstep; [|done]. simpl.
    apply IH. by eapply step_traced.
Qed.

(** A script holds one connection attempt. *)
Lemma script_one_connect net host timeout do_banner i p :
  filter (λ e, is_connect e = true) (script net host timeout do_banner i p)
  = [Connect host p timeout].
Proof.
  destruct (ProbeSpec.connected (net host p i) timeout) as [[after [reader writer]]|] eqn:Hc.
  - rewrite (SchedulerFacts.script_connected _ _ _ do_banner _ _ _ _ _ Hc).
    destruct do_banner, (close_result writer); done.
  - by rewrite (SchedulerFacts.script_not_connected _ _ _ do_banner _ _ Hc).
Qed.

(** What a host scan that ends has done and returns. *)
Lemma scan_host_end net host ports timeout concurrency do_banner sched r effs :
  scan_host net host ports timeout concurrency do_banner sched = Some (r, effs) →
  0 ≤ concurrency →
  ∃ s, run host sched (init net host ports timeout concurrency do_banner) = Some s
       ∧ finished s = true
       ∧ r = Return (sorted_by out_port (results s))
       ∧ effs = effects s
       ∧ results s ≡ₚ expected net host ports timeout do_banner.
Proof.
  unfold scan_host. intros Hscan Hcap.
  destruct (Z.ltb_spec concurrency 0); [lia|].
  destruct (run host sched _) as [s|] eqn:Hrun; [|done]. simpl in Hscan.
  pose proof (SchedulerFacts.run_inv _ _ _ _ _ _ _
                (SchedulerFacts.init_inv net host ports timeout concurrency do_banner) Hrun)
    as Hinv.
  rewrite (inv_failure _ _ _ _ Hinv) in Hscan.
  destruct (finished s) eqn:Hfin; [|done]. injection Hscan as <- <-.
  exists s. repeat split; try done.
  by eapply SchedulerFacts.finished_results.
Qed.

Lemma scan_host_negative net host ports timeout concurrency do_banner sched :
  concurrency < 0 →
  scan_host net host ports timeout concurrency do_banner sched = Some (Raise ValueError, []).
Proof. unfold scan_host. intros. by destruct (Z.ltb_spec concurrency 0); [|lia]. Qed.

Lemma finished_done s i t :
  finished s = true → tasks s !! i = Some t → done t = events t.
Proof.
  intros [Hidle _]%andb_prop Hi.
  rewrite forallb_forall in Hidle.
  assert (idle t = true) as Ht.
  { apply Hidle, list_elem_of_In. by eapply list_elem_of_lookup_2. }
  unfold idle in Ht. unfold events. destruct (todo t); [|done]. by rewrite app_nil_r.
Qed.

Lemma scan_host_effects net host ports timeout concurrency do_banner sched l effs :
  scan_host net host ports timeout concurrency do_banner sched = Some (Return l, effs) →
  (∀ i p, ports !! i = Some p →
          net_trace i effs = script net host timeout do_banner i p)
  ∧ (∀ i, ports !! i = None → net_trace i effs = [])
  ∧ console effs ≡ₚ open_lines host l
  ∧ Forall (of_scan host) effs.
Proof.
  intros Hscan.
  destruct (Z.ltb_spec concurrency 0) as [Hneg|Hcap].
  { by rewrite scan_host_negative in Hscan. }
  destruct (scan_host_end _ _ _ _ _ _ _ _ _ Hscan Hcap) as (s & Hrun & Hfin & [= ->] & -> & _).
  pose proof (SchedulerFacts.run_inv _ _ _ _ _ _ _
                (SchedulerFacts.init_inv net host ports timeout concurrency do_banner) Hrun)
    as Hinv.
  pose proof (run_traced _ _ _ _ (init_traced net host ports timeout concurrency do_banner)
                Hrun) as [Hnet Hcon Hsc].
  pose proof (inv_events _ _ _ _ Hinv) as Hev.
  assert (∀ i, (events <$> tasks s) !! i
               = script net host timeout do_banner i <$> ports !! i) as Hl.
  { intros i. by rewrite Hev, list_lookup_imap. }
  repeat split.
  - intros i p Hp. specialize (Hl i). rewrite Hnet.
    rewrite list_lookup_fmap, Hp in Hl.
    destruct (tasks s !! i) as [t|] eqn:Hi; [|done]. cbn in *.
    injection Hl as <-. by eapply finished_done.
  - intros i Hp. specialize (Hl i). rewrite Hnet.
    rewrite list_lookup_fmap, Hp in Hl. by destruct (tasks s !! i).
  - rewrite Hcon. unfold open_lines. by rewrite sorted_by_perm.
  - done.
Qed.

(** With no slot free no task of the initial state can move. *)
Lemma init_stuck net host ports timeout do_banner c :
  step host c (init net host ports timeout 0 do_banner) = None.
Proof.
  destruct c as [i|]; [|done]. unfold step. cbn.
  rewrite list_lookup_imap. destruct (ports !! i) as [p|]; [|done]. cbn.
  destruct (SchedulerFacts.spawn_phase net host timeout do_banner i p)
    as ([b Hd Ht _|? ? Hd|? Hd] & _).
  - by rewrite Ht.
  - unfold spawn in Hd. by destruct (scan_port _ _ _ _ _ _).
  - unfold spawn in Hd. by destruct (scan_port _ _ _ _ _ _).
Qed.

Lemma init_unfinished net host p ports timeout cap do_banner :
  finished (init net host (p :: ports) timeout cap do_banner) = false.
Proof.
  cbn.
  destruct (SchedulerFacts.spawn_phase net host timeout do_banner 0 p)
    as ([b Hd Ht _|? ? Hd|? Hd] & _).
  - unfold finished, idle. cbn. by rewrite Ht.
  - unfold spawn in Hd. by destruct (scan_port _ _ _ _ _ _).
  - unfold spawn in Hd. by destruct (scan_port _ _ _ _ _ _).
Qed.

Lemma scan_host_stuck net host ports timeout do_banner sched :
  ports ≠ [] → scan_host net host ports timeout 0 do_banner sched = None.
Proof.
  intros Hports. unfold scan_host. change (0 <? 0) with false. cbv iota.
  destruct sched as [|c sched]; cbn [run].
  - destruct ports as [|p ports]; [done|]. cbn [mbind option_bind failure init].
    by rewrite init_unfinished.
  - by rewrite init_stuck.
Qed.

End TraceFacts.

(** X5.  In a host scan that returns, the events of each probe are those of
    its script, in order, with one connection attempt, to its port; there
    are no events of other probes; the lines printed are the [OPEN] lines of
    the open ports of the result, one each, in some order; and nothing else
    is done. *)
Theorem scan_host_probes_each_port_once
    net host ports timeout concurrency do_banner sched l effs :
  Scheduler.scan_host net host ports timeout concurrency do_banner sched
  = Some (Return l, effs) →
  (∀ i p, ports !! i = Some p →
     EffectSpec.net_trace i effs = SchedulerSpec.script net host timeout do_banner i p
     ∧ filter (λ e, EffectSpec.is_connect e = true) (EffectSpec.net_trace i effs)
       = [Probe.Connect host p timeout])
  ∧ (∀ i, ports !! i = None → EffectSpec.net_trace i effs = [])
  ∧ EffectSpec.console effs ≡ₚ EffectSpec.open_lines host l
  ∧ length (EffectSpec.console effs) = Session.open_count l
  ∧ Forall (EffectSpec.of_scan host) effs.
Proof.
  intros Hscan.
  destruct (TraceFacts.scan_host_effects _ _ _ _ _ _ _ _ _ Hscan) as (H1 & H2 & H3 & H4).
  split; [|split; [done|split; [done|split; [|done]]]].
  - intros i p Hp. rewrite (H1 i p Hp). split; [done|].
    apply TraceFacts.script_one_connect.
  - rewrite H3. unfold EffectSpec.open_lines, Session.open_count.
    by rewrite length_fmap.
Qed.

Lemma scan_host_probes_each_port_once_witness :
  ∃ effs,
    EffectSpec.console effs
    ≡ₚ EffectSpec.open_lines "10.0.0.1" [(22, true, [83; 83; 72]%N); (443, false, [])]
    ∧ EffectSpec.net_trace 2 effs = [].
Proof.
  eexists.
  pose proof (scan_host_probes_each_port_once ProbeSpec.one_open_port "10.0.0.1"
                [443; 22] 1 1 true
                (Scheduler.Advance 1 :: repeat (Scheduler.Advance 1) 5
                   ++ Scheduler.Collect :: repeat (Scheduler.Advance 0) 3
                   ++ [Scheduler.Collect]) _ _ ltac:(vm_compute; reflexivity))
    as (_ & H2 & H3 & _).
  split; [exact H3|]. apply H2. reflexivity.
Defined.

(** X6.  With a semaphore of zero slots and at least one port the scan never
    ends: no probe can acquire, so the event loop has nothing to run and the
    loop over the completed probes nothing to take. *)
Theorem scan_host_zero_concurrency net host ports timeout do_banner :
  ports ≠ [] →
  (∀ c, Scheduler.step host c (Scheduler.init net host ports timeout 0 do_banner) = None)
  ∧ ∀ sched, Scheduler.scan_host net host ports timeout 0 do_banner sched = None.
Proof.
  intros Hports. split.
  - intros c. apply TraceFacts.init_stuck.
  - intros sched. by apply TraceFacts.scan_host_stuck.
Qed.

Lemma scan_host_zero_concurrency_witness :
  Scheduler.scan_host ProbeSpec.one_open_port "10.0.0.1" [22] 1 0 true
    [Scheduler.Advance 0] = None.
Proof.
  apply (proj2 (scan_host_zero_concurrency ProbeSpec.one_open_port "10.0.0.1" [22] 1 true
                  ltac:(discriminate))).
Defined.

(** ** The session: results, failures and files *)

Module SessionMore.

Import Scheduler SchedulerSpec EffectSpec Session.

Lemma sorted_by_fixed {A} (key : A → Z) (l : list A) :
  StronglySorted (key_le key) l → sorted_by key l = l.
Proof.
  induction 1 as [|x l Hl IH Hx]; [done|].
  unfold sorted_by in *. cbn. rewrite IH.
  destruct Hx as [|y l Hxy _]; [done|]. cbn.
  by destruct (Z.leb_spec (key x) (key y)); [|unfold key_le in Hxy; lia].
Qed.

Lemma sorted_fmap_key {A} (key : A → Z) (l : list A) :
  StronglySorted Z.lt (key <$> l) → StronglySorted (key_le key) l.
Proof.
  induction l as [|x l IH]; [constructor|].
  rewrite fmap_cons. intros [Hl Hx]%StronglySorted_inv.
  constructor; [by apply IH|].
  rewrite Forall_fmap in Hx. eapply Forall_impl; [done|].
  cbn. unfold key_le. lia.
Qed.

Lemma sorted_lt_NoDup (l : list Z) : StronglySorted Z.lt l → NoDup l.
Proof.
  induction 1 as [|x l Hl IH Hx]; constructor; [|done].
  rewrite Forall_forall in Hx. intros Hin. specialize (Hx _ Hin). lia.
Qed.

(** For ascending distinct ports the result of a host scan is the list of
    the outcomes of its probes, in the order of the ports. *)
Lemma scan_host_expected net host ports timeout concurrency do_banner sched l effs :
  StronglySorted Z.lt ports →
  scan_host net host ports timeout concurrency do_banner sched = Some (Return l, effs) →
  0 ≤ concurrency ∧ l = expected net host ports timeout do_banner.
Proof.
  intros Hsorted Hscan.
  destruct (Z.ltb_spec concurrency 0) as [Hneg|Hcap].
  { by rewrite TraceFacts.scan_host_negative in Hscan. }
  split; [done|].
  destruct (TraceFacts.scan_host_end _ _ _ _ _ _ _ _ _ Hscan Hcap)
    as (s & _ & _ & [= ->] & _ & Hperm).
  pose proof (SchedulerFacts.expected_ports net host ports timeout do_banner) as Hports.
  rewrite (SchedulerFacts.sorted_by_unique _ _ Hperm).
  - apply sorted_by_fixed, sorted_fmap_key. by rewrite Hports.
  - rewrite Hports. by apply sorted_lt_NoDup.
Qed.

Lemma scan_host_raises net host ports timeout concurrency do_banner sched e effs :
  scan_host net host ports timeout concurrency do_banner sched = Some (Raise e, effs) →
  concurrency < 0 ∧ e = ValueError ∧ effs = [].
Proof.
  intros Hscan.
  destruct (Z.ltb_spec concurrency 0) as [Hneg|Hcap].
  - rewrite TraceFacts.scan_host_negative in Hscan by done. by injection Hscan as <- <-.
  - by destruct (TraceFacts.scan_host_end _ _ _ _ _ _ _ _ _ Hscan Hcap) as (s & _ & _ & ? & _).
Qed.

(** What [parse_ports] returns is ascending, without repetition, and within
    the port range. *)
Lemma parse_ports_sorted ports_arg l :
  Ports.parse_ports ports_arg = Return l →
  StronglySorted Z.lt l ∧ Forall (λ p, 1 ≤ p ≤ 65535) l.
Proof.
  unfold Ports.parse_ports.
  destruct (Ports.parse_parts ∅ _) as [S|e]; [|done]. cbn. intros [= <-].
  set (kept := filter (λ p, Ports.in_port_range p = true) (elements S)).
  split.
  - apply sorted_le_nodup_lt; [exact (sorted_by_sorted id kept)|].
    rewrite sorted_by_perm. apply NoDup_filter, NoDup_elements.
  - rewrite sorted_by_perm. apply Forall_forall. intros p.
    unfold kept. rewrite list_elem_of_filter. unfold Ports.in_port_range. lia.
Qed.

Lemma parse_ports_raises ports_arg e :
  Ports.parse_ports ports_arg = Raise e → e = ValueError.
Proof.
  unfold Ports.parse_ports.
  destruct (Ports.parse_parts ∅ _) as [S|e'] eqn:HS; [done|]. cbn. intros [= <-].
  by eapply PortsFacts.parse_parts_raises.
Qed.

(** *** The dictionary of results *)

Lemma dict_set_keys d h v :
  (dict_set d h v).*1 = if bool_decide (h ∈ d.*1) then d.*1 else d.*1 ++ [h].
Proof.
  induction d as [|[k v'] d IH]; [done|]. cbn.
  destruct (String.eqb_spec k h) as [->|Hne]; cbn.
  - rewrite bool_decide_eq_true_2; [done|]. by left.
  - rewrite IH. destruct (bool_decide_reflect (h ∈ d.*1)) as [Hin|Hin].
    + rewrite bool_decide_eq_true_2; [done|]. by right.
    + rewrite bool_decide_eq_false_2; [done|].
      apply not_elem_of_cons. split; [congruence|done].
Qed.

Lemma dict_set_NoDup d h v : NoDup d.*1 → NoDup (dict_set d h v).*1.
Proof.
  intros Hnd. rewrite dict_set_keys.
  destruct (bool_decide_reflect (h ∈ d.*1)); [done|].
  apply NoDup_app. split; [done|]. split; [|apply NoDup_singleton].
  intros x Hx ->%list_elem_of_singleton. done.
Qed.

Lemma dict_set_elem_of d h v k w :
  (k, w) ∈ dict_set d h v → (k, w) ∈ d ∨ (k = h ∧ w = v).
Proof.
  induction d as [|[k' v'] d IH]; cbn.
  - intros [= -> ->]%list_elem_of_singleton. by right.
  - destruct (String.eqb_spec k' h) as [->|Hne].
    + intros [[= -> ->]|Hin]%elem_of_cons; [by right|]. left. by right.
    + intros [[= -> ->]|Hin]%elem_of_cons; [left; by left|].
      destruct (IH Hin) as [?|?]; [|by right]. left. by right.
Qed.

Lemma dict_set_new d h v : (h, v) ∈ dict_set d h v.
Proof.
  induction d as [|[k' v'] d IH]; cbn; [by left|].
  destruct (String.eqb_spec k' h) as [->|Hne]; [by left|by right].
Qed.

Lemma dict_set_other d h v k w : k ≠ h → (k, w) ∈ d → (k, w) ∈ dict_set d h v.
Proof.
  intros Hne. induction d as [|[k' v'] d IH]; cbn; [by intros ?%elem_of_nil|].
  destruct (String.eqb_spec k' h) as [->|Hne'].
  - intros [[= ? ?]|Hin]%elem_of_cons; [congruence|by right].
  - intros [[= ? ?]|Hin]%elem_of_cons; [subst; by left|]. right. by apply IH.
Qed.

Section Loop.

Context (scan : string → option (res host_result * list effect)).
Context (nports : nat) (f : string → host_result).
Context (Hret : ∀ h r during, scan h = Some (Return r, during) → r = f h).
Context (Hduring : ∀ h r during, scan h = Some (r, during) → Forall (of_scan h) during).

Lemma scan_targets_NoDup targets : ∀ d0 final effs,
  scan_targets scan nports targets d0 = Some (final, effs) →
  NoDup d0.*1 → NoDup final.*1.
Proof using Type.
  induction targets as [|h targets IH]; intros d0 final effs; cbn.
  - by intros [= <- <-].
  - destruct (scan h) as [[r during]|]; [|done]. cbn.
    destruct r as [res|e];
      (destruct (scan_targets _ _ _ _) as [[final' later]|] eqn:Hrest; [|done]);
      cbn; intros [= <- <-] Hnd; eapply IH; eauto using dict_set_NoDup.
Qed.

Lemma scan_targets_keeps targets h : ∀ d0 final effs,
  scan_targets scan nports targets d0 = Some (final, effs) →
  (h, f h) ∈ d0 → (h, f h) ∈ final.
Proof using Hret.
  induction targets as [|h' targets IH]; intros d0 final effs; cbn.
  - by intros [= <- <-].
  - destruct (scan h') as [[r during]|] eqn:Hscan; [|done]. cbn.
    destruct r as [res|e];
      (destruct (scan_targets _ _ _ _) as [[final' later]|] eqn:Hrest; [|done]);
      cbn; intros [= <- <-] Hin; eapply IH; eauto.
    destruct (decide (h = h')) as [->|Hne].
    + rewrite (Hret _ _ _ Hscan). apply dict_set_new.
    + by apply dict_set_other.
Qed.

Lemma scan_targets_entries targets : ∀ d0 final effs,
  scan_targets scan nports targets d0 = Some (final, effs) →
  ∀ h res, (h, res) ∈ final →
    (h, res) ∈ d0
    ∨ (h ∈ targets ∧ ∃ during, scan h = Some (Return res, during)).
Proof using Type.
  induction targets as [|h' targets IH]; intros d0 final effs; cbn.
  - intros [= <- <-]. by left.
  - destruct (scan h') as [[r during]|] eqn:Hscan; [|done]. cbn.
    destruct r as [res'|e];
      (destruct (scan_targets _ _ _ _) as [[final' later]|] eqn:Hrest; [|done]);
      cbn; intros [= <- <-] h res Hin;
      destruct (IH _ _ _ Hrest h res Hin) as [Hd|[Ht Hs]];
      try (right; split; [by right|done]); try by left.
    apply dict_set_elem_of in Hd as [?|[-> ->]]; [by left|].
    right. split; [by left|eauto].
Qed.

Lemma scan_targets_finished targets : ∀ d0 final effs,
  scan_targets scan nports targets d0 = Some (final, effs) →
  ∀ h k n, Console (Finished h k n) ∈ effs →
    h ∈ targets ∧ n = nports ∧ k = open_count (f h) ∧ (h, f h) ∈ final.
Proof using Hret Hduring.
  induction targets as [|h' targets IH]; intros d0 final effs; cbn.
  - intros [= <- <-] h k n Hin. by apply elem_of_nil in Hin.
  - destruct (scan h') as [[r during]|] eqn:Hscan; [|done]. cbn.
    pose proof (Hduring _ _ _ Hscan) as Hd. rewrite Forall_forall in Hd.
    destruct r as [res'|e];
      (destruct (scan_targets _ _ _ _) as [[final' later]|] eqn:Hrest; [|done]);
      cbn; intros [= <- <-] h k n Hin.
    + apply elem_of_cons in Hin as [[=]|Hin].
      apply elem_of_app in Hin as [Hin|Hin]; [by apply Hd in Hin|].
      apply elem_of_cons in Hin as [[= -> -> ->]|Hin].
      * pose proof (Hret _ _ _ Hscan) as ->.
        split; [by left|]. split; [done|]. split; [done|].
        eapply scan_targets_keeps; [done|]. apply dict_set_new.
      * destruct (IH _ _ _ Hrest _ _ _ Hin) as (? & ? & ? & ?).
        split; [by right|done].
    + apply elem_of_cons in Hin as [[=]|Hin].
      apply elem_of_app in Hin as [Hin|Hin]; [by apply Hd in Hin|].
      apply elem_of_cons in Hin as [[=]|Hin].
      destruct (IH _ _ _ Hrest _ _ _ Hin) as (? & ? & ? & ?).
      split; [by right|done].
Qed.

End Loop.

(** The loop when every scan raises [e] at once. *)
Lemma scan_targets_all_raise e nports targets : ∀ d0,
  scan_targets (λ _, Some (Raise e, [])) nports targets d0
  = Some (d0, targets ≫= λ h, [Console (Scanning h nports); Console (ErrorScanning h e)]).
Proof.
  induction targets as [|h targets IH]; intros d0; [done|].
  cbn. by rewrite IH.
Qed.

(** What the part after the loop does: nothing to a file; or a save that
    goes through; or a save whose write raises after the file was opened; or
    a save whose [open] raises. *)
Lemma save_output_cases fs out d r effs :
  save_output fs out d = (r, effs) →
  (r = Return () ∧ Forall (λ x, is_write x = false) effs)
  ∨ ∃ path,
      out = Some path
      ∧ (endswith (lower path) ".json" || endswith (lower path) ".csv") = true
      ∧ ((∃ x, fs path = Return (Return ()) ∧ r = Return ()
               ∧ effs = [x; Console (Saved path)]
               ∧ (x = WriteJson path d ∧ endswith (lower path) ".json" = true
                  ∨ x = WriteCsv path d ∧ endswith (lower path) ".json" = false
                                        ∧ endswith (lower path) ".csv" = true))
         ∨ (∃ e, fs path = Return (Raise e) ∧ r = Raise e ∧ effs = [WritePartial path])
         ∨ (∃ e, fs path = Raise e ∧ r = Raise e ∧ effs = [])).
Proof.
  unfold save_output.
  destruct out as [path|]; [|intros [= <- <-]; left; by split].
  destruct (PyStr.is_empty path); [intros [= <- <-]; left; by split|].
  destruct (endswith (lower path) ".json") eqn:Hj.
  - destruct (fs path) as [[[]|e']|e'] eqn:Hfs; intros [= <- <-];
      right; exists path; (split; [done|]); (split; [by rewrite Hj|]).
    + left. eexists. eauto 10.
    + right. left. eauto.
    + right. right. eauto.
  - destruct (endswith (lower path) ".csv") eqn:Hc.
    + destruct (fs path) as [[[]|e']|e'] eqn:Hfs; intros [= <- <-];
        right; exists path; (split; [done|]); (split; [by rewrite Hj, Hc|]).
      * left. eexists. eauto 10.
      * right. left. eauto.
      * right. right. eauto.
    + intros [= <- <-]. left. split; [done|]. by repeat constructor.
Qed.

Lemma of_scan_no_write h x : of_scan h x → is_write x = false.
Proof. by destruct x. Qed.

Lemma scan_targets_no_write scan nports targets : ∀ d0 final effs,
  (∀ h r during, scan h = Some (r, during) → Forall (of_scan h) during) →
  scan_targets scan nports targets d0 = Some (final, effs) →
  Forall (λ x, is_write x = false) effs.
Proof.
  induction targets as [|h' targets IH]; intros d0 final effs Hd; cbn.
  - intros [= <- <-]. constructor.
  - destruct (scan h') as [[r during]|] eqn:Hscan; [|done]. cbn.
    pose proof (Hd _ _ _ Hscan) as Hdu.
    assert (Forall (λ x, is_write x = false) during) as Hdu'.
    { eapply Forall_impl; [done|]. apply of_scan_no_write. }
    destruct r as [res'|e];
      (destruct (scan_targets _ _ _ _) as [[final' later]|] eqn:Hrest; [|done]);
      cbn; intros [= <- <-]; constructor; try done;
      apply Forall_app; (split; [done|]); constructor; try done; by eapply IH.
Qed.

Lemma scan_host_during net host ports timeout concurrency do_banner sched r during :
  scan_host net host ports timeout concurrency do_banner sched = Some (r, during) →
  Forall (of_scan host) during.
Proof.
  destruct r as [l|e]; intros Hscan.
  - by destruct (TraceFacts.scan_host_effects _ _ _ _ _ _ _ _ _ Hscan) as (_ & _ & _ & ?).
  - by destruct (scan_host_raises _ _ _ _ _ _ _ _ _ Hscan) as (_ & _ & ->).
Qed.

Lemma save_output_lines fs out d r effs x :
  save_output fs out d = (r, effs) → x ∈ effs →
  is_write x = true ∨ (∃ path, x = Console (Saved path)) ∨ x = Console SkippingSave.
Proof.
  unfold save_output. intros Hsave Hx.
  repeat case_match; simplify_eq;
    repeat (apply elem_of_cons in Hx as [->|Hx]); try (by apply elem_of_nil in Hx);
    eauto.
Qed.

Lemma scan_targets_ext scan1 scan2 nports targets : ∀ d0,
  (∀ h, scan1 h = scan2 h) →
  scan_targets scan1 nports targets d0 = scan_targets scan2 nports targets d0.
Proof.
  induction targets as [|h targets IH]; intros d0 Hext; [done|].
  cbn. rewrite Hext. destruct (scan2 h) as [[[res|e] during]|]; [| |done]; cbn;
    by rewrite IH.
Qed.

Lemma open_count_le l : (open_count l ≤ length l)%nat.
Proof. apply length_filter. Qed.

(** *** Suffixes *)

Lemma substring_all s : String.substring 0 (String.length s) s = s.
Proof. induction s as [|c s IH]; [done|]. cbn. by rewrite IH. Qed.

Lemma substring_skip base s :
  String.substring (String.length base) (String.length s) (base +:+ s) = s.
Proof.
  induction base as [|c base IH]; [apply substring_all|].
  change (String c base +:+ s) with (String c (base +:+ s)). cbn. apply IH.
Qed.

Lemma length_append base s :
  String.length (base +:+ s) = (String.length base + String.length s)%nat.
Proof.
  induction base as [|c base IH]; [done|].
  change (String c base +:+ s) with (String c (base +:+ s)). cbn. by rewrite IH.
Qed.

Lemma endswith_app base suffix : endswith (base +:+ suffix) suffix = true.
Proof.
  unfold endswith. rewrite length_append.
  replace (String.length base + String.length suffix - String.length suffix)%nat
    with (String.length base) by lia.
  rewrite substring_skip, String.eqb_refl, andb_true_r.
  apply Nat.leb_le. lia.
Qed.

Lemma lower_app s1 s2 : lower (s1 +:+ s2) = lower s1 +:+ lower s2.
Proof.
  induction s1 as [|c s1 IH]; [done|].
  change (String c s1 +:+ s2) with (String c (s1 +:+ s2)). cbn. by rewrite IH.
Qed.

End SessionMore.

(** X7.  With a negative concurrency no host is scanned: for every target
    the session prints the line that announces it and the line of the
    [ValueError] of the semaphore, and goes on to save an empty dictionary. *)
Theorem main_async_negative_concurrency net sched fs (a : Session.args) port_list targets :
  Session.concurrency a < 0 →
  Ports.parse_ports (Session.ports a) = Return port_list →
  Targets.expand_targets (Session.target a) = Return targets →
  Session.main_async net sched fs a
  = Some (match (Session.save_output fs (Session.output a) []).1 with
          | Return _ => Return []
          | Raise e => Raise e
          end,
          (targets ≫= λ h, [Console (Scanning h (length port_list));
                            Console (ErrorScanning h ValueError)])
          ++ (Session.save_output fs (Session.output a) []).2).
Proof.
  intros Hneg Hports Htargets. unfold Session.main_async.
  rewrite Hports, Htargets.
  rewrite (SessionMore.scan_targets_ext _ (λ _, Some (Raise ValueError, [])))
    by (intros h; by apply TraceFacts.scan_host_negative).
  rewrite SessionMore.scan_targets_all_raise. cbn.
  by destruct (Session.save_output _ _ _) as [[[]|e] saved].
Qed.

Lemma main_async_negative_concurrency_witness :
  Session.main_async ProbeSpec.one_open_port (λ _, []) (λ _, Return (Return ()))
    (Session.Args "10.0.0.1" "22" (-1) 1 true None)
  = Some (Return [],
          [Console (Scanning "10.0.0.1" 1);
           Console (ErrorScanning "10.0.0.1" ValueError)]).
Proof.
  apply (main_async_negative_concurrency ProbeSpec.one_open_port (λ _, [])
           (λ _, Return (Return ()))
           (Session.Args "10.0.0.1" "22" (-1) 1 true None) [22] ["10.0.0.1"%string]);
    [simpl; lia|reflexivity|reflexivity].
Defined.





(** ** The port expression: order and union *)

Module PortsMore.

Import PyStr Ports PortsSpec.

Lemma split_nonempty sep s : split sep s ≠ [].
Proof.
  destruct s as [|c s]; [done|]. cbn.
  destruct (Ascii.eqb c sep); [done|]. by destruct (split sep s).
Qed.

Lemma split_app sep a b :
  split sep (a +:+ String sep b) = split sep a ++ split sep b.
Proof.
  induction a as [|c a IH].
  - change (EmptyString +:+ String sep b) with (String sep b). cbn.
    by rewrite Ascii.eqb_refl.
  - change (String c a +:+ String sep b) with (String c (a +:+ String sep b)). cbn.
    destruct (Ascii.eqb c sep); [by rewrite IH|]. rewrite IH.
    pose proof (split_nonempty sep a). by destruct (split sep a).
Qed.

Lemma part_tokens_app l1 l2 : part_tokens (l1 ++ l2) = part_tokens l1 ++ part_tokens l2.
Proof. unfold part_tokens. by rewrite fmap_app, filter_app. Qed.

Lemma tokens_comma a b : tokens (a +:+ String "," b) = tokens a ++ tokens b.
Proof. unfold tokens. by rewrite split_app, fmap_app, filter_app. Qed.

Lemma sorted_lt_le (l : list Z) : StronglySorted Z.lt l → StronglySorted Z.le l.
Proof.
  induction 1 as [|x l Hl IH Hx]; constructor; [done|].
  eapply Forall_impl; [done|]. cbn. lia.
Qed.

Lemma sorted_lt_unique (l1 l2 : list Z) :
  StronglySorted Z.lt l1 → StronglySorted Z.lt l2 →
  (∀ p, p ∈ l1 ↔ p ∈ l2) → l1 = l2.
Proof.
  intros H1 H2 Heq.
  apply (StronglySorted_unique Z.le).
  - by apply sorted_lt_le.
  - by apply sorted_lt_le.
  - apply NoDup_Permutation; [by apply SessionMore.sorted_lt_NoDup..|done].
Qed.

(** What [parse_ports] returns, from the tokens of its argument. *)
Lemma parse_ports_tokens ports_arg :
  (Forall (λ t, parseable t = true) (tokens ports_arg)
   ∧ ∃ l, parse_ports ports_arg = Return l
          ∧ StronglySorted Z.lt l
          ∧ ∀ p, p ∈ l ↔ 1 ≤ p ≤ 65535 ∧ ∃ t, t ∈ tokens ports_arg ∧ covers t p)
  ∨ (Exists (λ t, parseable t = false) (tokens ports_arg)
     ∧ parse_ports ports_arg = Raise ValueError).
Proof.
  destruct (decide (Forall (λ t, parseable t = true) (tokens ports_arg))) as [Hall|Hex].
  - left. split; [done|]. unfold parse_ports.
    destruct (PortsFacts.parse_parts_ok (split "," ports_arg) ∅ Hall) as (S & HS & Hin).
    destruct (SessionMore.parse_ports_sorted ports_arg
                (sorted_by id (filter (λ p, in_port_range p = true) (elements S))))
      as [Hsorted _].
    { unfold parse_ports. by rewrite HS. }
    rewrite HS. eexists. split; [reflexivity|]. split; [done|].
    intros p. rewrite sorted_by_perm, list_elem_of_filter, elem_of_elements, Hin.
    unfold in_port_range. rewrite andb_true_iff, !Z.leb_le.
    split; [intros [? [?|?]]; [set_solver|done]|intros [? ?]; split; [done|by right]].
  - right. apply not_Forall_Exists in Hex; [|apply _].
    assert (Exists (λ t, parseable t = false) (tokens ports_arg)) as Hex'.
    { eapply Exists_impl; [done|]. cbn. intros t. by destruct (parseable t). }
    split; [done|]. unfold parse_ports.
    by rewrite (PortsFacts.parse_parts_fails (split "," ports_arg) ∅ Hex').
Qed.

Lemma parse_ports_Return ports_arg l :
  parse_ports ports_arg = Return l →
  Forall (λ t, parseable t = true) (tokens ports_arg)
  ∧ StronglySorted Z.lt l
  ∧ ∀ p, p ∈ l ↔ 1 ≤ p ≤ 65535 ∧ ∃ t, t ∈ tokens ports_arg ∧ covers t p.
Proof.
  intros Hl. destruct (parse_ports_tokens ports_arg) as [(? & l' & Hl' & ?)|[_ Hr]].
  - rewrite Hl in Hl'. by injection Hl' as <-.
  - by rewrite Hl in Hr.
Qed.

Lemma parse_ports_Raise ports_arg e :
  parse_ports ports_arg = Raise e →
  e = ValueError ∧ Exists (λ t, parseable t = false) (tokens ports_arg).
Proof.
  intros Hl. destruct (parse_ports_tokens ports_arg) as [(? & l' & Hl' & ?)|[? Hr]].
  - by rewrite Hl in Hl'.
  - rewrite Hl in Hr. by injection Hr as ->.
Qed.

Lemma sorted_lt_length (l : list Z) : ∀ a b,
  StronglySorted Z.lt l → Forall (λ p, a ≤ p ≤ b) l →
  Z.of_nat (length l) ≤ Z.max 0 (b - a + 1).
Proof.
  induction l as [|x l IH]; intros a b Hs Hr; [cbn; lia|].
  apply StronglySorted_inv in Hs as [Hs Hx]. apply Forall_cons in Hr as [Hxr Hr].
  specialize (IH (x + 1) b Hs). cbn [length].
  assert (Forall (λ p, x + 1 ≤ p ≤ b) l) as Hr'.
  { rewrite Forall_forall in *. intros p Hp. specialize (Hx p Hp). specialize (Hr p Hp). lia. }
  specialize (IH Hr'). lia.
Qed.

(** Both sides of a comma parse: the whole parses to their union. *)
Lemma parse_ports_union a b la lb :
  parse_ports a = Return la → parse_ports b = Return lb →
  ∃ l, parse_ports (a +:+ String "," b) = Return l
       ∧ StronglySorted Z.lt l
       ∧ ∀ p, p ∈ l ↔ p ∈ la ∨ p ∈ lb.
Proof.
  intros Ha Hb.
  destruct (parse_ports_Return _ _ Ha) as (Hta & _ & Hina).
  destruct (parse_ports_Return _ _ Hb) as (Htb & _ & Hinb).
  destruct (parse_ports_tokens (a +:+ String "," b))
    as [(_ & l & Hl & Hs & Hin)|[Hex _]].
  - exists l. split; [done|]. split; [done|]. intros p.
    rewrite Hin, Hina, Hinb, tokens_comma.
    setoid_rewrite elem_of_app. split.
    + intros (Hr & t & [Ht|Ht] & Hc); [left|right]; eauto.
    + intros [(Hr & t & Ht & Hc)|(Hr & t & Ht & Hc)]; eauto 6.
  - rewrite tokens_comma, Exists_app in Hex.
    rewrite Forall_forall in Hta, Htb. rewrite !Exists_exists in Hex.
    destruct Hex as [(t & Ht & Hf)|(t & Ht & Hf)];
      [specialize (Hta t Ht)|specialize (Htb t Ht)]; congruence.
Qed.

(** One side of a comma does not parse: neither does the whole. *)
Lemma comma_raises a b e :
  parse_ports a = Raise e ∨ parse_ports b = Raise e →
  parse_ports (a +:+ String "," b) = Raise ValueError.
Proof.
  intros Hr.
  assert (Exists (λ t, parseable t = false) (tokens (a +:+ String "," b))) as Hex.
  { rewrite tokens_comma, Exists_app.
    destruct Hr as [Hr|Hr]; [left|right]; by destruct (parse_ports_Raise _ _ Hr). }
  destruct (parse_ports_tokens (a +:+ String "," b)) as [(Hall & _)|[_ Hr']]; [|done].
  rewrite Forall_forall in Hall. apply Exists_exists in Hex as (t & Ht & Hf).
  specialize (Hall t Ht). congruence.
Qed.

End PortsMore.

(** X10.  [parse_ports] raises nothing but [ValueError], and what it returns
    is strictly ascending and within [1, 65535], hence of at most 65535
    ports. *)
Theorem parse_ports_total ports_arg :
  (∃ l, Ports.parse_ports ports_arg = Return l
        ∧ StronglySorted Z.lt l
        ∧ Forall (λ p, 1 ≤ p ≤ 65535) l
        ∧ Z.of_nat (length l) ≤ 65535)
  ∨ Ports.parse_ports ports_arg = Raise ValueError.
Proof.
  destruct (Ports.parse_ports ports_arg) as [l|e] eqn:Hl.
  - left. exists l. destruct (SessionMore.parse_ports_sorted _ _ Hl) as [Hs Hr].
    split; [done|]. split; [done|]. split; [done|].
    pose proof (PortsMore.sorted_lt_length l 1 65535 Hs Hr). lia.
  - right. by rewrite (SessionMore.parse_ports_raises _ _ Hl).
Qed.

(** X11.  The parts of a port expression are read independently and in any
    order: when both sides of a comma parse, the whole parses to the ports
    of either side; when one side does not, the whole raises [ValueError];
    and swapping the two sides changes nothing. *)
Theorem parse_ports_comma a b :
  (∀ la lb,
     Ports.parse_ports a = Return la → Ports.parse_ports b = Return lb →
     ∃ l, Ports.parse_ports (a +:+ String "," b) = Return l
          ∧ StronglySorted Z.lt l
          ∧ ∀ p, p ∈ l ↔ p ∈ la ∨ p ∈ lb)
  ∧ (∀ e, Ports.parse_ports a = Raise e ∨ Ports.parse_ports b = Raise e →
          Ports.parse_ports (a +:+ String "," b) = Raise ValueError)
  ∧ Ports.parse_ports (a +:+ String "," b) = Ports.parse_ports (b +:+ String "," a).
Proof.
  split; [apply PortsMore.parse_ports_union|].
  split; [apply PortsMore.comma_raises|].
  destruct (Ports.parse_ports a) as [la|ea] eqn:Ha.
  - destruct (Ports.parse_ports b) as [lb|eb] eqn:Hb.
    + destruct (PortsMore.parse_ports_union a b la lb Ha Hb) as (l1 & -> & Hs1 & Hin1).
      destruct (PortsMore.parse_ports_union b a lb la Hb Ha) as (l2 & -> & Hs2 & Hin2).
      f_equal. apply PortsMore.sorted_lt_unique; [done..|].
      intros p. rewrite Hin1, Hin2. tauto.
    + rewrite (PortsMore.comma_raises a b eb),
        (PortsMore.comma_raises b a eb); auto.
  - rewrite (PortsMore.comma_raises a b ea),
      (PortsMore.comma_raises b a ea); auto.
Qed.

Lemma parse_ports_comma_witness :
  ∃ l, Ports.parse_ports "22,80-81" = Return l
       ∧ StronglySorted Z.lt l
       ∧ ∀ p, p ∈ l ↔ p ∈ [22] ∨ p ∈ [80; 81].
Proof.
  apply (proj1 (parse_ports_comma "22" "80-81") [22] [80; 81]); reflexivity.
Defined.

(** ** The port expression: decimal text *)

Module DecimalFacts.

Import PyStr Ports PortsSpec DecimalSpec.

Lemma pretty_N_char_digit x :
  (x < 10)%N →
  is_digit (pretty_N_char x) = true ∧ digit_value (pretty_N_char x) = Z.of_N x.
Proof.
  intros Hx.
  assert (x = 0 ∨ x = 1 ∨ x = 2 ∨ x = 3 ∨ x = 4 ∨ x = 5 ∨ x = 6 ∨ x = 7 ∨ x = 8 ∨ x = 9)%N
    as Hc by lia.
  by repeat destruct Hc as [->|Hc]; [..|subst x].
Qed.

Lemma pretty_N_char_plain x : (x < 10)%N → plain (pretty_N_char x) = true.
Proof.
  intros Hx.
  assert (x = 0 ∨ x = 1 ∨ x = 2 ∨ x = 3 ∨ x = 4 ∨ x = 5 ∨ x = 6 ∨ x = 7 ∨ x = 8 ∨ x = 9)%N
    as Hc by lia.
  by repeat destruct Hc as [->|Hc]; [..|subst x].
Qed.

Lemma pretty_N_go_plain x : ∀ s,
  Ipaddress.all_chars plain s = true → Ipaddress.all_chars plain (pretty_N_go x s) = true.
Proof.
  induction (N.lt_wf_0 x) as [x _ IH]; intros s Hs.
  destruct (decide (x = 0)%N) as [->|Hx]; [by rewrite pretty_N_go_0|].
  rewrite pretty_N_go_step by lia. apply IH.
  - apply N.div_lt; lia.
  - cbn. rewrite pretty_N_char_plain, Hs; [done|]. apply N.mod_lt. lia.
Qed.

Lemma pretty_N_go_scan x : ∀ s,
  ∃ m, ∀ acc, scan_digits acc false (pretty_N_go x s)
              = scan_digits (acc * m + Z.of_N x) false s.
Proof.
  induction (N.lt_wf_0 x) as [x _ IH]; intros s.
  destruct (decide (x = 0)%N) as [->|Hx].
  { exists 1. intros acc. rewrite pretty_N_go_0. f_equal. lia. }
  rewrite pretty_N_go_step by lia.
  destruct (IH (x `div` 10)%N (N.div_lt x 10 ltac:(lia) ltac:(lia))
              (String (pretty_N_char (x `mod` 10)) s)) as [m Hm].
  exists (10 * m). intros acc. rewrite Hm. cbn.
  destruct (pretty_N_char_digit (x `mod` 10)) as [-> ->]; [apply N.mod_lt; lia|].
  f_equal. rewrite N2Z.inj_mod, N2Z.inj_div. change (Z.of_N 10) with 10.
  pose proof (Z.div_mod (Z.of_N x) 10 ltac:(lia)). lia.
Qed.

Lemma pretty_N_go_nonempty x s : (0 < x)%N → pretty_N_go x s ≠ EmptyString.
Proof.
  revert s. induction (N.lt_wf_0 x) as [x _ IH]; intros s Hx.
  rewrite pretty_N_go_step by done.
  destruct (decide (x `div` 10 = 0)%N) as [->|Hd]; [by rewrite pretty_N_go_0|].
  apply IH; [apply N.div_lt; lia|by apply N.neq_0_lt_0].
Qed.

(** The decimal text of a natural number: digits only, not empty, and
    read by [scan_number] as the number. *)
Lemma pretty_N_number (x : N) :
  Ipaddress.all_chars plain (pretty x) = true
  ∧ pretty x ≠ EmptyString
  ∧ scan_number (pretty x) = Some (Z.of_N x, EmptyString).
Proof.
  unfold pretty, pretty_N. destruct (decide (x = 0)%N) as [->|Hx]; [done|].
  pose proof (pretty_N_go_plain x EmptyString eq_refl) as Hplain.
  pose proof (pretty_N_go_nonempty x EmptyString ltac:(lia)) as Hne.
  split; [done|]. split; [done|].
  destruct (pretty_N_go_scan x EmptyString) as [m Hm].
  specialize (Hm 0). destruct (pretty_N_go x EmptyString) as [|c s]; [done|].
  cbn in Hplain. unfold plain at 1 in Hplain.
  destruct (is_digit c) eqn:Hc; [|done].
  cbn [scan_number]. rewrite Hc.
  cbn [scan_digits] in Hm. rewrite Hc in Hm.
  change (10 * 0 + digit_value c) with (digit_value c) in Hm.
  by rewrite Hm.
Qed.

Lemma plain_first c s :
  Ipaddress.all_chars plain (String c s) = true →
  is_digit c = true ∧ isspace c = false ∧ int_blank c = false
  ∧ Ascii.eqb c "," = false ∧ Ascii.eqb c "-" = false ∧ Ascii.eqb c "+" = false.
Proof.
  cbn. unfold plain. intros H.
  destruct (is_digit c), (isspace c), (int_blank c), (Ascii.eqb c ","),
    (Ascii.eqb c "-"), (Ascii.eqb c "+"); done.
Qed.

Lemma int_number s n :
  Ipaddress.all_chars plain s = true → s ≠ EmptyString →
  scan_number s = Some (n, EmptyString) →
  PyStr.int s = Return n ∧ PyStr.int (String "-" s) = Return (- n).
Proof.
  intros Hp Hne Hs. destruct s as [|c s]; [done|].
  destruct (plain_first _ _ Hp) as (Hd & Hsp & Hb & Hc & Hm & Hpl).
  unfold PyStr.int. cbn [skip_blanks]. rewrite Hb.
  change (int_blank "-") with false. cbv iota.
  unfold split_sign. rewrite Hpl, Hm. change (Ascii.eqb "-" "+") with false.
  change (Ascii.eqb "-" "-") with true. cbv iota. rewrite Hs. cbn.
  split; f_equal; lia.
Qed.

(** [int] reads the decimal text of an integer as that integer. *)
Lemma int_pretty (z : Z) : PyStr.int (pretty z) = Return z.
Proof.
  destruct z as [|p|p].
  - done.
  - change (pretty (Z.pos p)) with (pretty (N.pos p)).
    destruct (pretty_N_number (N.pos p)) as (Hp & Hne & Hs).
    by destruct (int_number _ _ Hp Hne Hs) as [-> _].
  - change (pretty (Z.neg p)) with (String "-" (pretty (N.pos p))).
    destruct (pretty_N_number (N.pos p)) as (Hp & Hne & Hs).
    by destruct (int_number _ _ Hp Hne Hs) as [_ ->].
Qed.

Lemma pretty_nonneg (z : Z) :
  0 ≤ z → Ipaddress.all_chars plain (pretty z) = true ∧ pretty z ≠ EmptyString.
Proof.
  destruct z as [|p|p]; [done| |lia]. intros _.
  change (pretty (Z.pos p)) with (pretty (N.pos p)).
  by destruct (pretty_N_number (N.pos p)) as (Hp & Hne & _).
Qed.

Lemma plain_solid s :
  Ipaddress.all_chars plain s = true → Ipaddress.all_chars solid s = true.
Proof.
  induction s as [|c s IH]; [done|]. cbn.
  intros [Hc Hs]%andb_prop. rewrite IH by done. unfold plain in Hc. unfold solid.
  by destruct (is_digit c), (isspace c), (int_blank c), (Ascii.eqb c ",").
Qed.

Lemma all_chars_app P s1 s2 :
  Ipaddress.all_chars P (s1 +:+ s2)
  = Ipaddress.all_chars P s1 && Ipaddress.all_chars P s2.
Proof.
  induction s1 as [|c s1 IH]; [done|].
  change (String c s1 +:+ s2) with (String c (s1 +:+ s2)). cbn.
  by rewrite IH, andb_assoc.
Qed.

Lemma solid_split s : Ipaddress.all_chars solid s = true → split "," s = [s].
Proof.
  induction s as [|c s IH]; [done|]. cbn. intros [Hc Hs]%andb_prop.
  unfold solid in Hc. destruct (Ascii.eqb c ","); [by rewrite andb_false_r in Hc|].
  by rewrite IH.
Qed.

Lemma solid_rstrip s : Ipaddress.all_chars solid s = true → rstrip s = s.
Proof.
  induction s as [|c s IH]; [done|]. cbn. intros [Hc Hs]%andb_prop.
  rewrite IH by done. unfold solid in Hc.
  destruct (isspace c); [done|]. by rewrite andb_false_r.
Qed.

Lemma solid_strip s : Ipaddress.all_chars solid s = true → strip s = s.
Proof.
  intros Hs. unfold strip.
  assert (lstrip s = s) as ->.
  { destruct s as [|c s]; [done|]. cbn in *. apply andb_prop in Hs as [Hc _].
    unfold solid in Hc. by destruct (isspace c). }
  by apply solid_rstrip.
Qed.

Lemma plain_no_dash s : Ipaddress.all_chars plain s = true → contains "-" s = false.
Proof.
  induction s as [|c s IH]; [done|]. cbn. intros [Hc Hs]%andb_prop.
  rewrite IH by done. unfold plain in Hc.
  destruct (Ascii.eqb c "-"); [|done]. by rewrite !andb_false_r in Hc.
Qed.

Lemma plain_split1 s t :
  Ipaddress.all_chars plain s = true →
  split1 "-" (s +:+ String "-" t) = (s, Some t)
  ∧ contains "-" (s +:+ String "-" t) = true.
Proof.
  induction s as [|c s IH]; [done|].
  change (String c s +:+ String "-" t) with (String c (s +:+ String "-" t)).
  cbn. intros [Hc Hs]%andb_prop. destruct (IH Hs) as [-> ->].
  unfold plain in Hc. destruct (Ascii.eqb c "-"); [|by rewrite orb_true_r].
  by rewrite !andb_false_r in Hc.
Qed.

(** The token of a port and of a range of ports. *)
Lemma token_span_pretty (a b : Z) :
  0 ≤ a → 0 ≤ b →
  token_span (pretty a) = Some (a, a)
  ∧ token_span (pretty a +:+ String "-" (pretty b)) = Some (Z.min a b, Z.max a b).
Proof.
  intros Ha Hb. destruct (pretty_nonneg a Ha) as [Hpa _].
  unfold token_span. split.
  - by rewrite (plain_no_dash _ Hpa), int_pretty.
  - destruct (plain_split1 (pretty a) (pretty b) Hpa) as [-> ->].
    by rewrite !int_pretty.
Qed.

Lemma tokens_solid s :
  Ipaddress.all_chars solid s = true → s ≠ EmptyString → tokens s = [s].
Proof.
  intros Hs Hne. unfold tokens. rewrite (solid_split _ Hs).
  change (strip <$> [s]) with [strip s].
  rewrite (solid_strip _ Hs), filter_cons, filter_nil.
  destruct (decide (is_empty s = false)) as [|Hn]; [done|]. by destruct s.
Qed.

Lemma parse_ports_token s lo hi :
  Ipaddress.all_chars solid s = true → s ≠ EmptyString →
  token_span s = Some (lo, hi) → 1 ≤ lo → hi ≤ 65535 →
  parse_ports s = Return (seqZ lo (hi - lo + 1)).
Proof.
  intros Hs Hne Hspan Hlo Hhi.
  pose proof (tokens_solid s Hs Hne) as Htok.
  destruct (PortsMore.parse_ports_tokens s) as [(_ & l & -> & Hsorted & Hin)|[Hex _]].
  - f_equal. apply PortsMore.sorted_lt_unique; [done|by eapply IpFacts.seqZ_sorted|].
    intros p. rewrite Hin, Htok, elem_of_seqZ. unfold covers.
    setoid_rewrite list_elem_of_singleton. split.
    + intros (Hr & t & -> & lo' & hi' & Hsp & Hp). rewrite Hspan in Hsp.
      injection Hsp as <- <-. lia.
    + intros Hp. split; [lia|]. exists s. split; [done|]. exists lo, hi. split; [done|lia].
  - rewrite Htok in Hex. apply Exists_cons in Hex as [Hf|Hn%Exists_nil]; [|done].
    unfold parseable in Hf. by rewrite Hspan in Hf.
Qed.

Lemma parse_ports_pretty p : 1 ≤ p ≤ 65535 → parse_ports (pretty p) = Return [p].
Proof.
  intros Hp.
  destruct (pretty_nonneg p ltac:(lia)) as [Hpa Hne].
  destruct (token_span_pretty p p ltac:(lia) ltac:(lia)) as [Hspan _].
  rewrite (parse_ports_token _ p p (plain_solid _ Hpa) Hne Hspan) by lia.
  by replace (p - p + 1) with 1 by lia.
Qed.

Lemma parse_ports_fold (l : list Z) : ∀ acc la,
  parse_ports acc = Return la → Forall (λ p, 1 ≤ p ≤ 65535) l →
  ∃ l', parse_ports (fold_left (λ acc y, acc +:+ "," +:+ y) (pretty <$> l) acc) = Return l'
        ∧ StronglySorted Z.lt l'
        ∧ ∀ p, p ∈ l' ↔ p ∈ la ∨ p ∈ l.
Proof.
  induction l as [|y l IH]; intros acc la Hacc Hr.
  - exists la. split; [done|]. destruct (PortsMore.parse_ports_Return _ _ Hacc) as (_ & ? & _).
    split; [done|]. intros p. rewrite elem_of_nil. tauto.
  - apply Forall_cons in Hr as [Hy Hr]. cbn [fmap list_fmap fold_left].
    destruct (PortsMore.parse_ports_union acc (pretty y) la [y] Hacc (parse_ports_pretty y Hy))
      as (l1 & Hl1 & _ & Hin1).
    destruct (IH (acc +:+ "," +:+ pretty y) l1 Hl1 Hr) as (l' & Hl' & Hs & Hin).
    exists l'. split; [done|]. split; [done|]. intros p.
    rewrite Hin, Hin1, list_elem_of_singleton, elem_of_cons. tauto.
Qed.

Lemma parse_ports_text (l : list Z) :
  Forall (λ p, 1 ≤ p ≤ 65535) l →
  ∃ l', parse_ports (PortsText.port_list_text l) = Return l'
        ∧ StronglySorted Z.lt l'
        ∧ ∀ p, p ∈ l' ↔ p ∈ l.
Proof.
  intros Hr. destruct l as [|x l].
  - exists []. split; [done|]. split; [constructor|done].
  - apply Forall_cons in Hr as [Hx Hr]. unfold PortsText.port_list_text. cbn [fmap list_fmap Ipaddress.join].
    destruct (parse_ports_fold l (pretty x) [x] (parse_ports_pretty x Hx) Hr)
      as (l' & Hl' & Hs & Hin).
    exists l'. split; [done|]. split; [done|]. intros p.
    rewrite Hin, list_elem_of_singleton, elem_of_cons. tauto.
Qed.

End DecimalFacts.

(** X12.  [int] reads the decimal text of an integer of at most 4300
    digits, the limit of the interpreter, as that integer.  The decimal text
    of a port is parsed to that port, and two ports with a dash between them
    to the ports from the smaller to the larger, in ascending order. *)
Theorem parse_ports_decimal (a b : Z) :
  (∀ z : Z, Z.abs z < 10 ^ 4300 → PyStr.int (pretty z) = Return z)
  ∧ (1 ≤ a ≤ 65535 → Ports.parse_ports (pretty a) = Return [a])
  ∧ (1 ≤ a ≤ 65535 → 1 ≤ b ≤ 65535 →
     Ports.parse_ports (pretty a +:+ String "-" (pretty b))
     = Return (seqZ (Z.min a b) (Z.max a b - Z.min a b + 1))).
Proof.
  split; [intros z _; apply DecimalFacts.int_pretty|].
  split; [apply DecimalFacts.parse_ports_pretty|].
  intros Ha Hb.
  destruct (DecimalFacts.pretty_nonneg a ltac:(lia)) as [Hpa Hne].
  destruct (DecimalFacts.pretty_nonneg b ltac:(lia)) as [Hpb _].
  destruct (DecimalFacts.token_span_pretty a b ltac:(lia) ltac:(lia)) as [_ Hspan].
  apply DecimalFacts.parse_ports_token; [|by destruct (pretty a)|done|lia..].
  rewrite DecimalFacts.all_chars_app. cbn.
  by rewrite !DecimalFacts.plain_solid.
Qed.

Lemma parse_ports_decimal_witness :
  Ports.parse_ports (pretty 8080 +:+ String "-" (pretty 8078))
  = Return (seqZ (Z.min 8080 8078) (Z.max 8080 8078 - Z.min 8080 8078 + 1)).
Proof.
  apply (proj2 (proj2 (parse_ports_decimal 8080 8078))); lia.
Defined.

(** X13.  Ports written as a comma list of decimal numbers parse to the same
    ports, ascending and without repetition; so what [parse_ports] returns,
    written back as such a list, parses to itself. *)
Theorem parse_ports_round_trip :
  (∀ l, Forall (λ p, 1 ≤ p ≤ 65535) l →
        ∃ l', Ports.parse_ports (PortsText.port_list_text l) = Return l'
              ∧ StronglySorted Z.lt l'
              ∧ ∀ p, p ∈ l' ↔ p ∈ l)
  ∧ (∀ ports_arg l,
       Ports.parse_ports ports_arg = Return l →
       Ports.parse_ports (PortsText.port_list_text l) = Return l).
Proof.
  split; [exact DecimalFacts.parse_ports_text|].
  intros ports_arg l Hl.
  destruct (SessionMore.parse_ports_sorted _ _ Hl) as [Hs Hr].
  destruct (DecimalFacts.parse_ports_text l Hr) as (l' & -> & Hs' & Hin).
  f_equal. by apply PortsMore.sorted_lt_unique.
Qed.

Lemma parse_ports_round_trip_witness :
  Ports.parse_ports (PortsText.port_list_text [22; 80; 81; 82]) = Return [22; 80; 81; 82].
Proof.
  apply (proj2 parse_ports_round_trip "22,80-82" [22; 80; 81; 82]).
  reflexivity.
Defined.

(** ** The targets of an IPv4 block *)

Module DottedFacts.

Import PyStr Ipaddress Targets TargetsSpec DecimalSpec DottedSpec.

Lemma parse_octet_pretty o : 0 ≤ o ≤ 255 → parse_octet (pretty o) = Some o.
Proof.
  intros Ho.
  assert (forallb octet_ok (seqZ 0 256) = true) as Hall by (vm_compute; reflexivity).
  rewrite forallb_forall in Hall.
  specialize (Hall o). unfold octet_ok in Hall.
  destruct (parse_octet (pretty o)) as [o'|].
  - f_equal. apply Z.eqb_eq, Hall, list_elem_of_In, elem_of_seqZ. lia.
  - discriminate Hall. apply list_elem_of_In, elem_of_seqZ. lia.
Qed.

Lemma plain_dotted s :
  all_chars plain s = true →
  all_chars dotted s = true ∧ split "." s = [s].
Proof.
  induction s as [|c s IH]; [done|]. cbn. intros [Hc Hs]%andb_prop.
  destruct (IH Hs) as [-> ->]. unfold plain in Hc. unfold dotted.
  destruct (is_digit c) eqn:Hd; [|done]. destruct (isspace c); [done|].
  destruct (Ascii.eqb_spec c ".") as [->|]; [done|].
  destruct (Ascii.eqb_spec c "/") as [->|]; done.
Qed.

Lemma dotted_fixed s :
  all_chars dotted s = true → strip s = s ∧ contains "/" s = false.
Proof.
  intros Hs. split.
  - apply DecimalFacts.solid_strip. induction s as [|c s IH]; [done|].
    cbn in *. apply andb_prop in Hs as [Hc Hs]. rewrite IH by done.
    unfold dotted in Hc. unfold solid.
    destruct (isspace c); [by rewrite andb_false_r in Hc|].
    destruct (Ascii.eqb_spec c ",") as [->|]; done.
  - induction s as [|c s IH]; [done|].
    cbn in *. apply andb_prop in Hs as [Hc Hs]. rewrite IH by done.
    unfold dotted in Hc. destruct (Ascii.eqb c "/"); [|done].
    by rewrite andb_false_r in Hc.
Qed.

Lemma octets_of_int ip :
  0 ≤ ip < 2 ^ 32 →
  let o1 := Z.shiftr ip 24 `mod` 256 in
  let o2 := Z.shiftr ip 16 `mod` 256 in
  let o3 := Z.shiftr ip 8 `mod` 256 in
  let o4 := ip `mod` 256 in
  (0 ≤ o1 ≤ 255 ∧ 0 ≤ o2 ≤ 255 ∧ 0 ≤ o3 ≤ 255 ∧ 0 ≤ o4 ≤ 255)
  ∧ from_bytes [o1; o2; o3; o4] = ip.
Proof.
  intros Hip. cbv zeta. rewrite !Z.shiftr_div_pow2 by lia.
  change (2 ^ 24) with 16777216. change (2 ^ 16) with 65536. change (2 ^ 8) with 256.
  change (2 ^ 32) with 4294967296 in Hip.
  unfold from_bytes. cbn [fold_left].
  pose proof (Z.mod_pos_bound (ip `div` 16777216) 256 ltac:(lia)).
  pose proof (Z.mod_pos_bound (ip `div` 65536) 256 ltac:(lia)).
  pose proof (Z.mod_pos_bound (ip `div` 256) 256 ltac:(lia)).
  pose proof (Z.mod_pos_bound ip 256 ltac:(lia)).
  split; [lia|].
  zify; Z.to_euclidean_division_equations; lia.
Qed.

Lemma v4_string_parts ip :
  0 ≤ ip < 2 ^ 32 →
  all_chars dotted (v4_string_from_ip_int ip) = true
  ∧ v4_ip_int_from_string (v4_string_from_ip_int ip) = Some ip.
Proof.
  intros Hip. destruct (octets_of_int ip Hip) as [(H1 & H2 & H3 & H4) Hb].
  cbv zeta in *.
  set (o1 := Z.shiftr ip 24 `mod` 256) in *. set (o2 := Z.shiftr ip 16 `mod` 256) in *.
  set (o3 := Z.shiftr ip 8 `mod` 256) in *. set (o4 := ip `mod` 256) in *.
  destruct (DecimalFacts.pretty_nonneg o1 ltac:(lia)) as [[Hd1 Hs1]%plain_dotted Hn1].
  destruct (DecimalFacts.pretty_nonneg o2 ltac:(lia)) as [[Hd2 Hs2]%plain_dotted _].
  destruct (DecimalFacts.pretty_nonneg o3 ltac:(lia)) as [[Hd3 Hs3]%plain_dotted _].
  destruct (DecimalFacts.pretty_nonneg o4 ltac:(lia)) as [[Hd4 Hs4]%plain_dotted _].
  assert (v4_string_from_ip_int ip
          = ((pretty o1 +:+ String "." (pretty o2)) +:+ String "." (pretty o3))
              +:+ String "." (pretty o4)) as -> by done.
  split.
  - rewrite !DecimalFacts.all_chars_app. cbn [all_chars].
    rewrite Hd1, Hd2, Hd3, Hd4. done.
  - unfold v4_ip_int_from_string.
    rewrite !PortsMore.split_app, Hs1, Hs2, Hs3, Hs4.
    replace (is_empty _) with false by (by destruct (pretty o1)).
    cbn. rewrite !parse_octet_pretty by done. cbn. f_equal. exact Hb.
Qed.

(** The text of an IPv4 address is read back as the address. *)
Lemma ip_address_str_v4 ip :
  0 ≤ ip < 2 ^ 32 →
  let t := str (address_of_int V4 ip) in
  ip_address t = Return (address_of_int V4 ip)
  ∧ strip t = t ∧ contains "/" t = false.
Proof.
  intros Hip. cbv zeta. unfold str, address_of_int. cbn [addr_version addr_ip].
  destruct (v4_string_parts ip Hip) as [Hd Hp].
  destruct (dotted_fixed _ Hd) as [Hs Hc].
  split; [|done]. unfold ip_address, IPv4Address. by rewrite Hc, Hp.
Qed.

Lemma lor_lt_pow2 a b m : 0 ≤ a < 2 ^ m → 0 ≤ b < 2 ^ m → 0 ≤ Z.lor a b < 2 ^ m.
Proof.
  intros Ha Hb.
  assert (0 ≤ m) as Hm.
  { destruct (Z.lt_ge_cases m 0) as [Hneg|]; [|done].
    rewrite Z.pow_neg_r in Ha by done. lia. }
  assert (0 ≤ Z.lor a b) as Hn by (apply Z.lor_nonneg; lia).
  split; [done|].
  destruct (decide (Z.lor a b = 0)) as [->|Hz]; [lia|].
  apply Z.log2_lt_pow2; [lia|]. rewrite Z.log2_lor by lia.
  destruct (decide (a = 0)) as [->|]; destruct (decide (b = 0)) as [->|];
    try (by destruct Hz).
  - rewrite Z.max_r by apply Z.log2_nonneg. apply Z.log2_lt_pow2; lia.
  - rewrite Z.max_l by apply Z.log2_nonneg. apply Z.log2_lt_pow2; lia.
  - apply Z.max_lub_lt; apply Z.log2_lt_pow2; lia.
Qed.

Lemma broadcast_range n :
  well_formed n → 0 ≤ network_address n ∧ broadcast_address n < 2 ^ max_prefixlen (net_version n).
Proof.
  intros Hwf. pose proof (IpFacts.network_address_nonneg n Hwf) as Hn.
  pose proof (IpFacts.span_nonneg n Hwf) as Hs.
  split; [done|].
  pose proof (IpFacts.address_in_block n Hwf) as [Hle _].
  pose proof (IpFacts.hostmask_span n Hwf) as Hmask.
  destruct Hwf as (Hp & Hr & _ & Hnet).
  unfold broadcast_address.
  apply lor_lt_pow2; [lia|].
  rewrite Hmask. split; [done|]. unfold span.
  assert (2 ^ (max_prefixlen (net_version n) - prefixlen n)
          ≤ 2 ^ max_prefixlen (net_version n)) by (apply Z.pow_le_mono_r; lia).
  lia.
Qed.

End DottedFacts.

Module BlockFacts.

Import PyStr Ipaddress Targets TargetsSpec DecimalSpec DottedSpec.

Lemma length_range a b : Z.of_nat (length (range a b)) = Z.max 0 (b - a).
Proof. unfold range. rewrite length_seqZ. lia. Qed.

(** The number of hosts of a block. *)
Lemma hosts_length n :
  well_formed n →
  Z.of_nat (length (hosts n))
  = let m := max_prefixlen (net_version n) in
    if prefixlen n =? m then 1
    else if prefixlen n =? m - 1 then 2
    else match net_version n with
         | V4 => 2 ^ (m - prefixlen n) - 2
         | V6 => 2 ^ (m - prefixlen n) - 1
         end.
Proof.
  intros Hwf. cbv zeta.
  rewrite <- (length_fmap addr_ip).
  pose proof (IpFacts.broadcast_address_sum n Hwf) as Hb.
  destruct (TargetsFacts.hosts_ips_cases n Hwf)
    as [(Hp & -> & _)|[(Hp & -> & _)|(Hp & Hlen & ->)]].
  - rewrite Hp. destruct (Z.eqb_spec (max_prefixlen (net_version n) - 1)
                            (max_prefixlen (net_version n))); [lia|].
    by rewrite Z.eqb_refl.
  - by rewrite Hp, Z.eqb_refl.
  - destruct (Z.eqb_spec (prefixlen n) (max_prefixlen (net_version n))); [lia|].
    destruct (Z.eqb_spec (prefixlen n) (max_prefixlen (net_version n) - 1)); [lia|].
    unfold span in Hb. destruct (net_version n); rewrite length_range; lia.
Qed.

Lemma ip_network_v4_scope text n :
  ip_network text = Return n → net_version n = V4 → addr_scope (net_addr n) = None.
Proof.
  unfold ip_network. intros Hn Hv.
  destruct (IPNetwork V4 text) as [n4|] eqn:H4.
  - injection Hn as ->. unfold IPNetwork in H4.
    destruct (split_addr_prefix text) as [[addr mask]|]; [|done]. cbn in H4.
    unfold IPv4Address in H4. destruct (contains "/" addr); [done|].
    destruct (v4_ip_int_from_string addr) as [ip|]; [|done]. cbn in H4.
    destruct (match mask with Some _ => _ | None => _ end); [|done].
    cbn in H4. by injection H4 as <-.
  - destruct (IPNetwork V6 text) as [n6|] eqn:H6; [|done]. injection Hn as ->.
    destruct (IpFacts.IPNetwork_wf _ _ _ H6) as [Hv6 _]. congruence.
Qed.

Lemma hosts_v4 text n a :
  ip_network text = Return n → net_version n = V4 → a ∈ hosts n →
  a = address_of_int V4 (addr_ip a)
  ∧ network_address n ≤ addr_ip a ≤ broadcast_address n
  ∧ 0 ≤ addr_ip a < 2 ^ 32.
Proof.
  intros Hnet Hv Ha.
  pose proof (IpFacts.ip_network_wf _ _ Hnet) as Hwf.
  pose proof (ip_network_v4_scope _ _ Hnet Hv) as Hsc.
  destruct (DottedFacts.broadcast_range n Hwf) as [Hlo Hhi]. rewrite Hv in Hhi.
  pose proof (IpFacts.address_in_block n Hwf) as Hin.
  change (max_prefixlen V4) with 32 in Hhi.
  unfold hosts in Ha. rewrite Hv in Ha.
  destruct (prefixlen n =? max_prefixlen V4 - 1).
  { apply list_elem_of_fmap in Ha as (x & -> & Hx%IpFacts.elem_of_range).
    unfold address_of_int. cbn [addr_ip]. split; [done|lia]. }
  destruct (prefixlen n =? max_prefixlen V4).
  { apply list_elem_of_singleton in Ha as ->.
    destruct Hwf as (_ & _ & Hav & _). rewrite Hv in Hav.
    split; [|lia]. destruct (net_addr n) as [v ip sc]. cbn in *. by subst. }
  apply list_elem_of_fmap in Ha as (x & -> & Hx%IpFacts.elem_of_range).
  unfold address_of_int. cbn [addr_ip]. split; [done|lia].
Qed.

Lemma hosts_NoDup n : NoDup (addr_ip <$> hosts n).
Proof.
  apply SessionMore.sorted_lt_NoDup. rewrite IpFacts.hosts_ips.
  repeat case_match; try apply IpFacts.range_sorted.
  repeat constructor.
Qed.

End BlockFacts.

(** X14.  The number of targets of a block: one for a prefix of full length,
    two for a prefix one shorter, and otherwise all the addresses of the
    block but the network address and, for IPv4, the broadcast address. *)
Theorem expand_targets_block_size target_arg n :
  PyStr.contains "/" (PyStr.strip target_arg) = true →
  Ipaddress.ip_network (PyStr.strip target_arg) = Return n →
  ∃ targets,
    Targets.expand_targets target_arg = Return targets
    ∧ Z.of_nat (length targets)
      = let m := Ipaddress.max_prefixlen (Ipaddress.net_version n) in
        if Ipaddress.prefixlen n =? m then 1
        else if Ipaddress.prefixlen n =? m - 1 then 2
        else match Ipaddress.net_version n with
             | Ipaddress.V4 => 2 ^ (m - Ipaddress.prefixlen n) - 2
             | Ipaddress.V6 => 2 ^ (m - Ipaddress.prefixlen n) - 1
             end.
Proof.
  intros Hc Hn. rewrite (TargetsFacts.expand_targets_cidr _ _ Hc Hn).
  eexists. split; [done|]. rewrite length_fmap.
  apply BlockFacts.hosts_length. by eapply IpFacts.ip_network_wf.
Qed.

Lemma expand_targets_block_size_witness :
  ∃ targets,
    Targets.expand_targets " 10.0.0.0/24 " = Return targets
    ∧ Z.of_nat (length targets) = 254.
Proof.
  edestruct (expand_targets_block_size " 10.0.0.0/24 ") as (targets & Ht & Hlen);
    [reflexivity|vm_compute; reflexivity|].
  exists targets. split; [exact Ht|exact Hlen].
Defined.

(** X15.  The targets of an IPv4 block are pairwise different, and each is the
    text of an IPv4 address of the block: [ip_address] reads it back as that
    address, and [expand_targets] of it is the target alone. *)
Theorem expand_targets_ipv4_block target_arg n :
  PyStr.contains "/" (PyStr.strip target_arg) = true →
  Ipaddress.ip_network (PyStr.strip target_arg) = Return n →
  Ipaddress.net_version n = Ipaddress.V4 →
  ∃ targets,
    Targets.expand_targets target_arg = Return targets
    ∧ NoDup targets
    ∧ ∀ t, t ∈ targets →
        (∃ a, Ipaddress.ip_address t = Return a
              ∧ Ipaddress.str a = t
              ∧ Ipaddress.addr_version a = Ipaddress.V4
              ∧ Ipaddress.network_address n ≤ Ipaddress.addr_ip a
                ≤ Ipaddress.broadcast_address n)
        ∧ Targets.expand_targets t = Return [t].
Proof.
  intros Hc Hn Hv. rewrite (TargetsFacts.expand_targets_cidr _ _ Hc Hn).
  eexists. split; [done|].
  assert (∀ a, a ∈ Ipaddress.hosts n →
            Ipaddress.ip_address (Ipaddress.str a) = Return a
            ∧ PyStr.strip (Ipaddress.str a) = Ipaddress.str a
            ∧ PyStr.contains "/" (Ipaddress.str a) = false
            ∧ Ipaddress.addr_version a = Ipaddress.V4
            ∧ Ipaddress.network_address n ≤ Ipaddress.addr_ip a
              ≤ Ipaddress.broadcast_address n) as Hback.
  { intros a Ha.
    destruct (BlockFacts.hosts_v4 _ _ _ Hn Hv Ha) as (Ha' & Hin & Hr).
    destruct (DottedFacts.ip_address_str_v4 _ Hr) as (Hip & Hs & Hno).
    rewrite <- Ha' in Hip, Hs, Hno.
    split; [done|]. split; [done|]. split; [done|]. split; [by rewrite Ha'|done]. }
  split.
  - apply (NoDup_fmap_2_strong _); [|eapply NoDup_fmap_1, BlockFacts.hosts_NoDup].
    intros a b Ha Hb Heq.
    destruct (Hback a Ha) as (Hra & _). destruct (Hback b Hb) as (Hrb & _).
    rewrite Heq, Hrb in Hra. by injection Hra.
  - intros t (a & -> & Ha)%list_elem_of_fmap.
    destruct (Hback a Ha) as (Hip & Hs & Hno & Hva & Hin).
    split; [by exists a|].
    rewrite TargetsFacts.expand_targets_plain; by rewrite Hs.
Qed.

Lemma expand_targets_ipv4_block_witness :
  ∃ targets,
    Targets.expand_targets "192.168.1.77/30" = Return targets
    ∧ NoDup targets.
Proof.
  edestruct (expand_targets_ipv4_block "192.168.1.77/30") as (targets & Ht & Hnd & _);
    [reflexivity|vm_compute; reflexivity|reflexivity|].
  exists targets. split; [exact Ht|exact Hnd].
Defined.

(** ** The dictionary of results and the rows written *)

Module OutputFacts.

Import Scheduler SchedulerSpec Session Output.

Lemma expected_outcome net host ports timeout do_banner o :
  o ∈ expected net host ports timeout do_banner →
  out_port o ∈ ports
  ∧ (out_open o = false → out_banner o = [])
  ∧ (do_banner = false → out_banner o = [])
  ∧ (length (out_banner o) ≤ 1024)%nat
  ∧ Forall CodecSpec.scalar (out_banner o).
Proof.
  unfold expected. intros (i & p & -> & Hp)%elem_of_lookup_imap.
  unfold outcome_of, spawn.
  destruct (ProbeMore.scan_port_outcome (λ h q, net h q i) host p timeout do_banner
              Probe.start) as (is_open & banner & Hr & H1 & H2 & H3 & H4 & _).
  destruct (Probe.scan_port _ _ _ _ _ _) as [r w]. cbn in Hr. subst r. cbn.
  split; [by eapply list_elem_of_lookup_2|done].
Qed.

Lemma csv_rows_cons host results data :
  csv_rows ((host, results) :: data)
  = ((λ o, CsvRow host (out_port o) (out_open o) (out_banner o)) <$> results)
      ++ csv_rows data.
Proof.
  unfold csv_rows. cbn. f_equal.
  induction results as [|[[port is_open] banner] results IH]; [done|].
  cbn. by rewrite IH.
Qed.

Lemma csv_rows_all (P : csv_row → Prop) nports data :
  (∀ host results, (host, results) ∈ data →
     length results = nports
     ∧ Forall (λ o, P (CsvRow host (out_port o) (out_open o) (out_banner o))) results) →
  length (csv_rows data) = (length data * nports)%nat ∧ Forall P (csv_rows data).
Proof.
  induction data as [|[host results] data IH]; intros Hall; [done|].
  rewrite csv_rows_cons, length_app, length_fmap.
  destruct (Hall host results) as [Hlen HP]; [by left|].
  destruct IH as [IH1 IH2]; [intros h r Hin; apply Hall; by right|].
  split; [cbn; lia|].
  apply Forall_app. split; [|done]. by apply Forall_fmap.
Qed.

Lemma main_async_entries net sched fs (a : Session.args) all_results effs :
  Session.main_async net sched fs a = Some (Return all_results, effs) →
  ∃ port_list targets,
    Ports.parse_ports (Session.ports a) = Return port_list
    ∧ Targets.expand_targets (Session.target a) = Return targets
    ∧ NoDup all_results.*1
    ∧ (∀ host res, (host, res) ∈ all_results →
         host ∈ targets ∧ 0 ≤ Session.concurrency a
         ∧ res = SchedulerSpec.expected net host port_list
                   (Session.timeout a) (Session.banner a)
         ∧ out_port <$> res = port_list)
    ∧ (∀ host k n, Console (Finished host k n) ∈ effs →
         host ∈ targets ∧ n = length port_list ∧ (k ≤ n)%nat
         ∧ ∃ res, (host, res) ∈ all_results ∧ k = Session.open_count res).
Proof.
  unfold Session.main_async.
  destruct (Ports.parse_ports _) as [port_list|] eqn:Hports; [|done].
  destruct (Targets.expand_targets _) as [targets|] eqn:Htargets; [|done].
  destruct (Session.scan_targets _ _ _ _) as [[final during]|] eqn:Hloop; [|done]. cbn.
  destruct (Session.save_output _ _ _) as [[[]|e] saved] eqn:Hsave; [|done].
  intros [= <- <-]. exists port_list, targets.
  destruct (SessionMore.parse_ports_sorted _ _ Hports) as [Hsorted _].
  set (f := λ host, SchedulerSpec.expected net host port_list
                      (Session.timeout a) (Session.banner a)).
  assert (∀ h r d,
            Scheduler.scan_host net h port_list (Session.timeout a) (Session.concurrency a)
              (Session.banner a) (sched h) = Some (Return r, d) → r = f h) as Hret.
  { intros h r d Hscan. by destruct (SessionMore.scan_host_expected _ _ _ _ _ _ _ _ _ Hsorted Hscan). }
  assert (∀ h r d,
            Scheduler.scan_host net h port_list (Session.timeout a) (Session.concurrency a)
              (Session.banner a) (sched h) = Some (r, d) → Forall (EffectSpec.of_scan h) d)
    as Hduring.
  { intros h r d. apply SessionMore.scan_host_during. }
  split; [done|]. split; [done|]. split; [|split].
  - eapply SessionMore.scan_targets_NoDup; [done|constructor].
  - intros host res Hin.
    destruct (SessionMore.scan_targets_entries _ _ _ _ _ _ Hloop host res Hin)
      as [[]%elem_of_nil|(Ht & d & Hscan)].
    destruct (SessionMore.scan_host_expected _ _ _ _ _ _ _ _ _ Hsorted Hscan) as [Hc ->].
    split; [done|]. split; [done|]. split; [done|].
    apply SchedulerFacts.expected_ports.
  - intros host k n [Hin|Hin]%elem_of_app.
    + destruct (SessionMore.scan_targets_finished _ _ f Hret Hduring _ _ _ _ Hloop _ _ _ Hin)
        as (Ht & -> & -> & Hf).
      split; [done|]. split; [done|]. split; [|eauto].
      etrans; [apply SessionMore.open_count_le|].
      unfold f, SchedulerSpec.expected. by rewrite length_imap.
    + by destruct (SessionMore.save_output_lines _ _ _ _ _ _ Hsave Hin) as [?|[[? ?]|?]].
Qed.

(** *** The extension of the output file *)

Lemma endswith_cons c s suf :
  (String.length suf ≤ String.length s)%nat → endswith (String c s) suf = endswith s suf.
Proof.
  intros Hle. unfold endswith. cbn [String.length].
  replace (S (String.length s) - String.length suf)%nat
    with (S (String.length s - String.length suf)) by lia.
  cbn [String.substring].
  destruct (Nat.leb_spec (String.length suf) (String.length s)); [|lia].
  by destruct (Nat.leb_spec (String.length suf) (S (String.length s))); [|lia].
Qed.

Lemma csv_not_json base : endswith (base +:+ ".csv") ".json" = false.
Proof.
  induction base as [|c base IH]; [done|].
  change (String c base +:+ ".csv") with (String c (base +:+ ".csv")).
  destruct base as [|c' base].
  - change (EmptyString +:+ ".csv") with ".csv"%string.
    unfold endswith. cbn. by destruct (Ascii.eqb c ".").
  - rewrite endswith_cons; [done|].
    rewrite SessionMore.length_append. cbn. lia.
Qed.

Lemma append_nonempty base ext :
  ext ≠ EmptyString → PyStr.is_empty (base +:+ ext) = false.
Proof. destruct base; [by destruct ext|done]. Qed.

End OutputFacts.

(** X16.  When [main_async] returns, the keys of the dictionary it returns are
    distinct targets, and the entry of a host is the list of the outcomes of
    its probes, one per parsed port and in the order of the parsed ports,
    whatever the schedule was.  Every summary line counts the open ports of
    the host's entry, out of the number of parsed ports. *)
Theorem main_async_results net sched fs (a : Session.args) all_results effs :
  Session.main_async net sched fs a = Some (Return all_results, effs) →
  ∃ port_list targets,
    Ports.parse_ports (Session.ports a) = Return port_list
    ∧ Targets.expand_targets (Session.target a) = Return targets
    ∧ NoDup all_results.*1
    ∧ (∀ host res, (host, res) ∈ all_results →
         host ∈ targets ∧ 0 ≤ Session.concurrency a
         ∧ res = SchedulerSpec.expected net host port_list
                   (Session.timeout a) (Session.banner a)
         ∧ out_port <$> res = port_list)
    ∧ (∀ host k n, Console (Finished host k n) ∈ effs →
         host ∈ targets ∧ n = length port_list ∧ (k ≤ n)%nat
         ∧ ∃ res, (host, res) ∈ all_results ∧ k = Session.open_count res).
Proof. apply OutputFacts.main_async_entries. Qed.


Lemma main_async_results_witness :
  ∃ all_results effs,
    Session.main_async ProbeSpec.one_open_port
      (λ _, repeat (Scheduler.Advance 0) 6 ++ [Scheduler.Collect]) (λ _, Return (Return ()))
      (Session.Args "10.0.0.1" "22" 1 1 true None)
    = Some (Return all_results, effs)
    ∧ NoDup all_results.*1.
Proof.
  eexists _, _. split; [vm_compute; reflexivity|].
  pose proof (main_async_results ProbeSpec.one_open_port
                (λ _, repeat (Scheduler.Advance 0) 6 ++ [Scheduler.Collect])
                (λ _, Return (Return ()))
                (Session.Args "10.0.0.1" "22" 1 1 true None) _ _
                ltac:(vm_compute; reflexivity)) as (? & ? & _ & _ & H & _).
  exact H.
Defined.


(** X17.  The rows [save_csv] builds from the dictionary [main_async] returns:
    one for every recorded host and parsed port, with a host among the
    targets and a port among the parsed ports, and with an empty banner
    unless the port is open and a banner was asked for. *)
Theorem save_csv_rows net sched fs (a : Session.args) all_results effs port_list targets :
  Session.main_async net sched fs a = Some (Return all_results, effs) →
  Ports.parse_ports (Session.ports a) = Return port_list →
  Targets.expand_targets (Session.target a) = Return targets →
  length (Output.csv_rows all_results) = (length all_results * length port_list)%nat
  ∧ Forall (λ row,
      Output.row_host row ∈ targets
      ∧ Output.row_port row ∈ port_list
      ∧ 1 ≤ Output.row_port row ≤ 65535
      ∧ (Output.row_open row = false → Output.row_banner row = [])
      ∧ (Session.banner a = false → Output.row_banner row = [])
      ∧ (length (Output.row_banner row) ≤ 1024)%nat) (Output.csv_rows all_results).
Proof.
  intros Hmain Hports Htargets.
  destruct (OutputFacts.main_async_entries _ _ _ _ _ _ Hmain)
    as (port_list' & targets' & Hports' & Htargets' & _ & Hentries & _).
  rewrite Hports in Hports'. injection Hports' as <-.
  rewrite Htargets in Htargets'. injection Htargets' as <-.
  destruct (SessionMore.parse_ports_sorted _ _ Hports) as [_ Hrange].
  apply OutputFacts.csv_rows_all. intros host results Hin.
  destruct (Hentries host results Hin) as (Ht & _ & -> & _).
  split; [apply length_imap|].
  apply Forall_forall. intros o Ho. cbn.
  destruct (OutputFacts.expected_outcome _ _ _ _ _ _ Ho) as (Hp & H1 & H2 & H3 & _).
  rewrite Forall_forall in Hrange. specialize (Hrange _ Hp). done.
Qed.

Lemma save_csv_rows_witness :
  ∃ all_results,
    length (Output.csv_rows all_results) = (length all_results * length [22])%nat.
Proof.
  eexists.
  eapply (proj1 (save_csv_rows ProbeSpec.one_open_port
                   (λ _, repeat (Scheduler.Advance 0) 6 ++ [Scheduler.Collect])
                   (λ _, Return (Return ()))
                   (Session.Args "10.0.0.1" "22" 1 1 true None) _ _ [22]
                   ["10.0.0.1"%string]
                   ltac:(vm_compute; reflexivity) eq_refl eq_refl)).
Defined.

(** X18.  The format of the output follows the extension of the file name,
    whatever the case of its letters: a name that ends in [.json] is written
    as JSON and one that ends in [.csv] as CSV, with the dictionary of
    results and followed by the line that says so. *)
Theorem save_output_extension fs base ext d :
  fs (base +:+ ext) = Return (Return ()) →
  (Session.lower ext = ".json"%string →
   Session.save_output fs (Some (base +:+ ext)) d
   = (Return (), [WriteJson (base +:+ ext) d; Console (Saved (base +:+ ext))]))
  ∧ (Session.lower ext = ".csv"%string →
     Session.save_output fs (Some (base +:+ ext)) d
     = (Return (), [WriteCsv (base +:+ ext) d; Console (Saved (base +:+ ext))])).
Proof.
  intros Hfs. split; intros Hext; unfold Session.save_output;
    (rewrite OutputFacts.append_nonempty by (by destruct ext));
    rewrite SessionMore.lower_app, Hext.
  - by rewrite SessionMore.endswith_app, Hfs.
  - by rewrite OutputFacts.csv_not_json, SessionMore.endswith_app, Hfs.
Qed.

Lemma save_output_extension_witness :
  Session.save_output (λ _, Return (Return ())) (Some ("scan-1" +:+ ".CSV")) []
  = (Return (), [WriteCsv ("scan-1" +:+ ".CSV") []; Console (Saved ("scan-1" +:+ ".CSV"))]).
Proof.
  apply (proj2 (save_output_extension (λ _, Return (Return ())) "scan-1" ".CSV" [] eq_refl)).
  reflexivity.
Defined.

(** ** Progress of the session *)

Module ProgressFacts.

Import Scheduler SchedulerSpec Session.

(** With at least one slot a host scan has a schedule under which it
    returns. *)
Lemma scan_host_can_return net host ports timeout concurrency do_banner :
  1 ≤ concurrency →
  ∃ sched l effs,
    scan_host net host ports timeout concurrency do_banner sched = Some (Return l, effs).
Proof.
  intros Hcap.
  pose proof (SchedulerFacts.init_inv net host ports timeout concurrency do_banner) as Hinit.
  destruct (SchedulerFacts.can_finish host _ _ _
              (S (pending (init net host ports timeout concurrency do_banner))) _
              (Nat.lt_succ_diag_r _) Hinit Hcap) as (sched & s & Hrun & Hfin).
  exists sched. unfold scan_host.
  destruct (Z.ltb_spec concurrency 0); [lia|]. rewrite Hrun. cbn.
  pose proof (SchedulerFacts.run_inv _ _ _ _ _ _ _ Hinit Hrun) as Hinv.
  rewrite (inv_failure _ _ _ _ Hinv), Hfin. eauto.
Qed.

(** Schedules for all the targets at once. *)
Lemma schedules_exist net ports timeout concurrency do_banner (targets : list string) :
  1 ≤ concurrency →
  ∃ sched : string → list choice,
    ∀ h, h ∈ targets →
         is_Some (scan_host net h ports timeout concurrency do_banner (sched h)).
Proof.
  intros Hcap. induction targets as [|h targets (sched & IH)].
  - exists (λ _, []). by intros h ?%elem_of_nil.
  - destruct (scan_host_can_return net h ports timeout concurrency do_banner Hcap)
      as (sched_h & l & effs & Hh).
    exists (λ x, if String.eqb x h then sched_h else sched x).
    intros x Hx. destruct (String.eqb_spec x h) as [->|Hne]; [by rewrite Hh|].
    apply IH. by apply elem_of_cons in Hx as [?|?].
Qed.

Lemma scan_targets_None scan nports h targets d0 :
  scan h = None → scan_targets scan nports (h :: targets) d0 = None.
Proof. intros Hh. cbn. by rewrite Hh. Qed.

End ProgressFacts.

(** X19.  With a concurrency of at least one the session can always be run to
    its end: when the port expression parses there are schedules of the
    event loop under which [main_async] is over, whatever the network
    does. *)
Theorem main_async_terminates net fs (a : Session.args) port_list :
  1 ≤ Session.concurrency a →
  Ports.parse_ports (Session.ports a) = Return port_list →
  ∃ sched r effs, Session.main_async net sched fs a = Some (r, effs).
Proof.
  intros Hcap Hports.
  destruct (TargetsFacts.expand_targets_nonempty (Session.target a)) as (targets & Ht & _).
  destruct (ProgressFacts.schedules_exist net port_list (Session.timeout a)
              (Session.concurrency a) (Session.banner a) targets Hcap) as (sched & Hsched).
  exists sched. unfold Session.main_async. rewrite Hports, Ht.
  destruct (SessionFacts.scan_targets_closed_form
              (λ host, Scheduler.scan_host net host port_list (Session.timeout a)
                         (Session.concurrency a) (Session.banner a) (sched host))
              (length port_list) targets [])
    as (final & -> & _); [by apply Forall_forall|].
  cbn. destruct (Session.save_output _ _ _) as [[[]|e] saved]; eauto.
Qed.

Lemma main_async_terminates_witness :
  ∃ sched r effs,
    Session.main_async ProbeSpec.one_open_port sched (λ _, Return (Return ()))
      (Session.Args "10.0.0.0/30" "22,80" 2 1 true None) = Some (r, effs).
Proof.
  apply (main_async_terminates ProbeSpec.one_open_port (λ _, Return (Return ()))
           (Session.Args "10.0.0.0/30" "22,80" 2 1 true None) [22; 80]);
    [simpl; lia|reflexivity].
Defined.

(** X20.  With a concurrency of zero and at least one port to probe the
    session never ends: the scan of the first target cannot go on, under any
    schedule. *)
Theorem main_async_hangs net sched fs (a : Session.args) port_list :
  Session.concurrency a = 0 →
  Ports.parse_ports (Session.ports a) = Return port_list → port_list ≠ [] →
  Session.main_async net sched fs a = None.
Proof.
  intros Hcap Hports Hne.
  destruct (TargetsFacts.expand_targets_nonempty (Session.target a)) as (targets & Ht & Hnt).
  unfold Session.main_async. rewrite Hports, Ht, Hcap.
  destruct targets as [|h targets]; [done|].
  rewrite ProgressFacts.scan_targets_None; [done|].
  by apply TraceFacts.scan_host_stuck.
Qed.

Lemma main_async_hangs_witness :
  Session.main_async ProbeSpec.one_open_port (λ _, [Scheduler.Advance 0]) (λ _, Return (Return ()))
    (Session.Args "10.0.0.1" "22" 0 1 true None) = None.
Proof.
  apply (main_async_hangs ProbeSpec.one_open_port (λ _, [Scheduler.Advance 0])
           (λ _, Return (Return ())) (Session.Args "10.0.0.1" "22" 0 1 true None) [22]);
    [reflexivity|reflexivity|discriminate].
Defined.
